(** * N-Queens genetic algorithm: a shallow embedding of [main.py]

    The engine of [main.py] (population construction, crossover, mutation,
    fitness, elimination and the generation loop of [start_algorithm]) is
    embedded as Rocq functions over an explicit world: a heap of board
    objects, so that the in-place item assignment of [mutation] and the
    sharing introduced by [list.copy()] in [crossover] are visible, and the
    state of the pseudo-random source.

    - Python integers are [Z]; a board is a [list Z].
    - A population is a list of references into the heap.
    - [mutation_rate] is an IEEE 754 binary64 value ([spec_float] with
      [prec = 53], [emax = 1024]); [int(len * rate)] is computed with the
      rounding multiplication of [SpecFloat].
    - [random.randint] and [random.shuffle] are an interface
      ([RandomSource]) with the contract of the library ([RandomSourceSpec]).
    - Exceptions are values of [exn]; a computation returns a [result].
    - The window is a record of the items on the canvas and the text of the
      result label; [clear_board], [draw_board] and the body of
      [start_algorithm] past the parsing of the entries (lines 141-170) act
      on it.  The [except ValueError] clause of line 172 is not part of the
      model: an exception of lines 141-170 is returned as it is. *)

From Stdlib Require Import ZArith Lia SpecFloat Permutation Sorted String.
From stdpp Require Import list.

Open Scope Z_scope.

(* ===================================================================== *)
(** * Part I: the model                                                    *)
(* ===================================================================== *)

(** ** Exceptions and results *)

Inductive exn :=
  | IndexError
  | ValueError
  | OverflowError
  | ZeroDivisionError
  | InvalidReference. (* a reference outside the heap: no Python counterpart *)

Inductive result (A : Type) :=
  | Ok (a : A)
  | Raise (e : exn).
Arguments Ok {A} a.
Arguments Raise {A} e.

(** ** Python sequences *)

(** [range(start, stop)] *)
Definition range (start stop : Z) : list Z :=
  map (fun k => start + Z.of_nat k) (seq 0 (Z.to_nat (stop - start))).

(** [range(start, stop, 2)] *)
Definition range2 (start stop : Z) : list Z :=
  map (fun k => start + 2 * Z.of_nat k) (seq 0 (Z.to_nat ((stop - start + 1) / 2))).

(** Position designated by a slice bound [k] in a list of length [len]:
    a negative bound counts from the end, and bounds are clamped. *)
Definition slice_index (len : nat) (k : Z) : nat :=
  if k <? 0 then Z.to_nat (Z.of_nat len + k) else Z.to_nat k.

(** [l[:k]] *)
Definition slice_to {A} (l : list A) (k : Z) : list A :=
  take (slice_index (length l) k) l.

(** [l[k:]] *)
Definition slice_from {A} (l : list A) (k : Z) : list A :=
  drop (slice_index (length l) k) l.

(** Position designated by an index [i]: negative indices count from the
    end; outside [-len, len) there is none. *)
Definition norm_index (len : nat) (i : Z) : option nat :=
  if (0 <=? i) && (i <? Z.of_nat len) then Some (Z.to_nat i)
  else if (- Z.of_nat len <=? i) && (i <? 0) then Some (Z.to_nat (Z.of_nat len + i))
  else None.

(** [l[i]] *)
Definition item {A} (l : list A) (i : Z) : result A :=
  match norm_index (length l) i with
  | Some k => match l !! k with Some x => Ok x | None => Raise IndexError end
  | None => Raise IndexError
  end.

(** [l[i] = v] *)
Definition setitem {A} (l : list A) (i : Z) (v : A) : result (list A) :=
  match norm_index (length l) i with
  | Some k => Ok (<[k := v]> l)
  | None => Raise IndexError
  end.

(** ** Python floats (binary64) *)

Definition prec : Z := 53.
Definition emax : Z := 1024.
Abbreviation fexp64 := (fexp prec emax).

(** [float(z)] for an integer [z]: correctly rounded; an integer too large
    for a double raises OverflowError. *)
Definition float_of_int (z : Z) : result spec_float :=
  match binary_normalize prec emax z 0 false with
  | S754_infinity _ => Raise OverflowError
  | x => Ok x
  end.

(** [int(x)] for a float [x]: truncation toward zero. *)
Definition int_of_float (x : spec_float) : result Z :=
  match x with
  | S754_zero _ => Ok 0
  | S754_finite s m e => Ok (cond_Zopp s (Z.shiftl (Z.pos m) e))
  | S754_infinity _ => Raise OverflowError
  | S754_nan => Raise ValueError
  end.

(** [int(len * rate)] with [len] an integer and [rate] a float. *)
Definition scaled_count (len : Z) (rate : spec_float) : result Z :=
  match float_of_int len with
  | Ok x => int_of_float (SFmul prec emax x rate)
  | Raise e => Raise e
  end.

Definition float_zero : spec_float := S754_zero false.
Definition float_one : spec_float := S754_finite false 4503599627370496 (-52).

(** [0 <= rate <= 1] on a double. *)
Definition unit_rate (rate : spec_float) : bool :=
  valid_binary prec emax rate && SFleb float_zero rate && SFleb rate float_one.

(** The specification's count: the floor of the product over the real
    numbers, the double being read as the rational [(-1)^s * m * 2^e]. *)
Definition real_floor_mul (len : Z) (rate : spec_float) : Z :=
  match rate with
  | S754_finite s m e =>
      if 0 <=? e then len * cond_Zopp s (Z.pos m) * 2 ^ e
      else (len * cond_Zopp s (Z.pos m)) / 2 ^ (- e)
  | _ => 0
  end.

(** ** The world: heap of boards and random source *)

Abbreviation board := (list Z).
Abbreviation ref := nat.

Class RandomSource (G : Type) := {
  randint : Z -> Z -> G -> Z * G;
  shuffle : list Z -> G -> list Z * G
}.

(** The contract of [random.randint(a, b)] (an integer in [[a, b]]) and of
    [random.shuffle] (a permutation of its argument). *)
Class RandomSourceSpec (G : Type) `{RandomSource G} : Prop := {
  randint_range : forall a b g, a <= b -> a <= (randint a b g).1 <= b;
  shuffle_perm : forall l g, (shuffle l g).1 ≡ₚ l
}.

Record world (G : Type) := World { heap : list board; rng : G }.
Arguments World {G} heap rng.
Arguments heap {G} w.
Arguments rng {G} w.

Definition M (G : Type) (A : Type) : Type := world G -> result (A * world G).

Global Instance M_ret {G} : MRet (M G) := fun A a w => Ok (a, w).
Global Instance M_bind {G} : MBind (M G) := fun A B f m w =>
  match m w with
  | Ok (a, w') => f a w'
  | Raise e => Raise e
  end.

Definition lift {G A} (r : result A) : M G A := fun w =>
  match r with
  | Ok a => Ok (a, w)
  | Raise e => Raise e
  end.

(** Allocation of a fresh list object. *)
Definition alloc {G} (b : board) : M G ref := fun w =>
  Ok (length (heap w), World (heap w ++ [b]) (rng w)).

(** Contents of the list object behind a reference. *)
Definition load {G} (r : ref) : M G board := fun w =>
  match heap w !! r with
  | Some b => Ok (b, w)
  | None => Raise InvalidReference
  end.

Definition store {G} (r : ref) (b : board) : M G unit := fun w =>
  match heap w !! r with
  | Some _ => Ok (tt, World (<[r := b]> (heap w)) (rng w))
  | None => Raise InvalidReference
  end.

Section Engine.
Context {G : Type} `{RandomSource G}.

(** [randint(a, b)]; an empty range raises ValueError. *)
Definition py_randint (a b : Z) : M G Z := fun w =>
  if b <? a then Raise ValueError
  else let '(v, g) := randint a b (rng w) in Ok (v, World (heap w) g).

(** [shuffle(l)] on a list local to the caller. *)
Definition py_shuffle (l : list Z) : M G (list Z) := fun w =>
  let '(l', g) := shuffle l (rng w) in Ok (l', World (heap w) g).

(** *** build_population (lines 33-35) *)

(** [[randint(0, n - 1) for _ in range(n)]], one draw per element of the range *)
Fixpoint random_board (count : nat) (n : Z) : M G board :=
  match count with
  | O => mret []
  | S count' =>
      v ← py_randint 0 (n - 1);
      vs ← random_board count' n;
      mret (v :: vs)
  end.

Fixpoint build_population_loop (count : nat) (n : Z) : M G (list ref) :=
  match count with
  | O => mret []
  | S count' =>
      b ← random_board (Z.to_nat n) n;
      r ← alloc b;
      rs ← build_population_loop count' n;
      mret (r :: rs)
  end.

Definition build_population (population_size n : Z) : M G (list ref) :=
  build_population_loop (Z.to_nat population_size) n.

(** *** crossover (lines 37-45) *)

Fixpoint crossover_loop (indices : list Z) (population_list : list ref)
    (div_index : Z) (new_population : list ref) : M G (list ref) :=
  match indices with
  | [] => mret new_population
  | i :: rest =>
      p1 ← lift (item population_list i);
      p2 ← lift (item population_list (i + 1));
      b1 ← load p1;
      b2 ← load p2;
      child1 ← alloc (slice_to b1 div_index ++ slice_from b2 div_index);
      child2 ← alloc (slice_to b2 div_index ++ slice_from b1 div_index);
      crossover_loop rest population_list div_index (new_population ++ [child1; child2])
  end.

Definition crossover (population_list : list ref) (n : Z) : M G (list ref) :=
  let div_index := n / 2 in
  let new_population := population_list in (* .copy(): same board objects *)
  crossover_loop (range2 0 (Z.of_nat (length population_list) - 1))
    population_list div_index new_population.

(** *** mutation (lines 47-56) *)

(** The candidate indices of line 49. *)
Definition mutation_pool (len : nat) : list Z :=
  range (Z.of_nat len / 2) (Z.of_nat len).

(** Lines 49-51: the shuffled pool cut to [int(len(pool) * mutation_rate)]. *)
Definition chosen_ones (len : nat) (mutation_rate : spec_float) : M G (list Z) :=
  mutated_population ← py_shuffle (mutation_pool len);
  k ← lift (scaled_count (Z.of_nat (length mutated_population)) mutation_rate);
  mret (slice_to mutated_population k).

(** Lines 52-55. *)
Fixpoint mutation_loop (chosen : list Z) (population_list : list ref) (n : Z)
    : M G unit :=
  match chosen with
  | [] => mret tt
  | i :: rest =>
      col ← py_randint 0 (n - 1);
      val ← py_randint 0 (n - 1);
      p ← lift (item population_list i);
      b ← load p;
      b' ← lift (setitem b col val);
      _ ← store p b';
      mutation_loop rest population_list n
  end.

Definition mutation (population_list : list ref) (mutation_rate : spec_float)
    (n : Z) : M G (list ref) :=
  chosen ← chosen_ones (length population_list) mutation_rate;
  _ ← mutation_loop chosen population_list n;
  mret population_list.
End Engine.

(** *** evaluate_gen (lines 58-65) *)

(** [gen[i]] for an index drawn from [range(len(gen))]. *)
Definition gen_at (gen : board) (i : Z) : Z := nth (Z.to_nat i) gen 0.

(** The test of line 63. *)
Definition attacks (gen : board) (i j : Z) : bool :=
  (gen_at gen i =? gen_at gen j) || (Z.abs (i - j) =? Z.abs (gen_at gen i - gen_at gen j)).

Definition evaluate_gen (gen : board) : Z :=
  let len := Z.of_nat (length gen) in
  foldl (fun conflict i =>
    foldl (fun conflict j =>
      if attacks gen i j then conflict + 1 else conflict)
      conflict (range (i + 1) len))
    0 (range 0 len).

(** *** fitness (lines 67-69) *)

Fixpoint fitness {G} (population_list : list ref) : M G (list Z) :=
  match population_list with
  | [] => mret []
  | individual :: rest =>
      gen ← load individual;
      scores ← fitness rest;
      mret (evaluate_gen gen :: scores)
  end.

(** *** eliminate (lines 71-78) *)

(** [sorted(..., key=lambda x: x[0])]: Python's sort is stable, which
    determines its result; a stable insertion sort computes it. *)
Fixpoint insert_by_key {A} (x : Z * A) (l : list (Z * A)) : list (Z * A) :=
  match l with
  | [] => [x]
  | y :: l' => if x.1 <=? y.1 then x :: y :: l' else y :: insert_by_key x l'
  end.

Definition sorted_by_key {A} (l : list (Z * A)) : list (Z * A) :=
  foldr insert_by_key [] l.

Definition eliminate {A} (population_list : list A) (evaluate_list : list Z)
    (population_size : Z) : result (list A * list Z) :=
  let combined := sorted_by_key (zip evaluate_list population_list) in
  match combined with
  | [] => Raise IndexError (* combined[0] *)
  | (e0, p0) :: _ =>
      if e0 =? 0 then Ok ([p0], [0])
      else
        let top := slice_to combined population_size in
        Ok (top.*2, top.*1)
  end.

(** *** The generation loop of start_algorithm (lines 157-170) *)

Section Loop.
Context {G : Type} `{RandomSource G}.

(** Lines 161-164: one generation. *)
Definition generation (population : list ref) (n pop_size : Z)
    (mut_rate : spec_float) : M G (list ref * list Z) :=
  population ← crossover population n;
  population ← mutation population mut_rate n;
  scores ← fitness population;
  lift (eliminate population scores pop_size).

(** The arguments of the call [draw_board(population[0], generation)]. *)
Definition emit (population : list ref) (generation : option Z)
    : M G (board * option Z) :=
  p ← lift (item population 0);
  answer ← load p;
  mret (answer, generation).

Fixpoint generation_loop (gens : list Z) (population : list ref)
    (n pop_size : Z) (mut_rate : spec_float) : M G (board * option Z) :=
  match gens with
  | [] => emit population None
  | gen :: rest =>
      '(population, scores) ← generation population n pop_size mut_rate;
      if bool_decide (0 ∈ scores) then emit population (Some (gen + 1))
      else generation_loop rest population n pop_size mut_rate
  end.

(** Lines 157-170, on validated inputs. *)
Definition run_engine (n pop_size : Z) (mut_rate : spec_float)
    : M G (board * option Z) :=
  let generations := n * 2 in
  population ← build_population pop_size n;
  generation_loop (range 0 generations) population n pop_size mut_rate.
End Loop.

(** ** The window (lines 80-124): canvas and result label *)

Inductive canvas_item :=
  | Rectangle (x1 y1 x2 y2 : Z) (fill : string)
  | CanvasText (x y : Z) (text : string) (font_size : Z) (fill : string).

(** The texts that [result_label] shows. *)
Inductive message :=
  | NoMessage                        (* the initial empty text *)
  | SolutionFound (generation : Z)   (* Solution found in generation: ... *)
  | NoPerfectSolution                (* No perfect solution found. Showing best attempt. *)
  | BoardSizeOutOfRange              (* Board size must be between 4 and 10 *)
  | PopulationSizeOutOfRange         (* Population size must be between 1 and 500 *)
  | MutationRateOutOfRange           (* Mutation rate must be between 0 and 1 *)
  | TooManyDecimalPlaces.            (* Mutation rate must have at most 2 decimal places *)

Record window := Window { canvas : list canvas_item; result_label : message }.

(** *** clear_board (lines 82-83) *)
Definition clear_board (win : window) : window :=
  Window [] (result_label win).

(** *** draw_board (lines 86-124) *)

Definition colors : list string := ["#f5f5f5"%string; "#100c08"%string].

(** Lines 105-118: the tile of [(row, col)], and the queen when
    [answer[row] == col]. *)
(** [colors[(row + col) % 2]] *)
Definition tile_color (row col : Z) : string :=
  nth (Z.to_nat ((row + col) mod 2)) colors ""%string.

Definition draw_tile (answer : board) (tile_size row col : Z) : list canvas_item :=
  let x1 := col * tile_size in
  let y1 := row * tile_size in
  let x2 := x1 + tile_size in
  let y2 := y1 + tile_size in
  let color := tile_color row col in
  Rectangle x1 y1 x2 y2 color ::
  (if gen_at answer row =? col
   then [CanvasText (x1 + tile_size / 2) (y1 + tile_size / 2) "♛"%string
           (tile_size / 2) "#c4aead"%string]
   else []).

Definition draw_board (answer : board) (generation : option Z) (win : window)
    : result window :=
  let win := clear_board win in
  let n := Z.of_nat (length answer) in
  if n =? 0 then Raise ZeroDivisionError (* 480 // n *)
  else
    let tile_size := 480 / n in
    let items :=
      row ← range 0 n; col ← range 0 n; draw_tile answer tile_size row col in
    Ok (Window (canvas win ++ items)
          (match generation with
           | Some g => SolutionFound g
           | None => NoPerfectSolution
           end)).

(** *** start_algorithm (lines 141-170), once the three entries are parsed

    [n] and [pop_size] are the results of [int(...)], [mut_rate] the result
    of [float(mut_rate_str)], and [mut_rate_str] the text of the entry as a
    list of code points. *)

(** [s.split('.')[-1]]: what follows the last ['.'] (code point 46), the
    whole text when there is none. *)
Fixpoint last_segment (s : list N) : list N :=
  match s with
  | [] => []
  | c :: rest =>
      if bool_decide (46%N ∈ rest) then last_segment rest
      else if (c =? 46)%N then rest
      else c :: rest
  end.

(** [0 <= mut_rate <= 1] *)
Definition in_unit_interval (mut_rate : spec_float) : bool :=
  SFleb float_zero mut_rate && SFleb mut_rate float_one.

Definition set_label (win : window) (text : message) : window :=
  Window (canvas win) text.

Section Handler.
Context {G : Type} `{RandomSource G}.

Definition start_algorithm (n pop_size : Z) (mut_rate_str : list N)
    (mut_rate : spec_float) (win : window) : M G window :=
  if (n <? 4) || (10 <? n) then mret (set_label win BoardSizeOutOfRange)
  else if (pop_size <=? 0) || (500 <? pop_size)
  then mret (set_label win PopulationSizeOutOfRange)
  else if negb (in_unit_interval mut_rate)
  then mret (set_label win MutationRateOutOfRange)
  else if (2 <? length (last_segment mut_rate_str))%nat
  then mret (set_label win TooManyDecimalPlaces)
  else
    '(answer, generation) ← run_engine n pop_size mut_rate;
    lift (draw_board answer generation win).
End Handler.

(** The engine as a state machine: [unsolved_run n P R g pop w pop' w'] when
    [g] consecutive generations lead from [(pop, w)] to [(pop', w')] and none
    of them retains a score 0. *)
Inductive unsolved_run {G} `{RandomSource G} (n pop_size : Z) (mut_rate : spec_float)
    : nat -> list ref -> world G -> list ref -> world G -> Prop :=
  | unsolved_zero population w :
      unsolved_run n pop_size mut_rate 0 population w population w
  | unsolved_step g population w population1 scores w1 population2 w2 :
      generation population n pop_size mut_rate w = Ok ((population1, scores), w1) ->
      0 ∉ scores ->
      unsolved_run n pop_size mut_rate g population1 w1 population2 w2 ->
      unsolved_run n pop_size mut_rate (S g) population w population2 w2.

(** SOLVED in generation [g + 1]: [g] unsolved generations, then one that
    retains a score 0; [answer] is the first board it retains. *)
Definition solved_in {G} `{RandomSource G} (n pop_size : Z) (mut_rate : spec_float)
    (population : list ref) (w : world G) (g : nat) (answer : board) (w' : world G)
    : Prop :=
  exists population1 w1 population2 scores p,
    unsolved_run n pop_size mut_rate g population w population1 w1 /\
    generation population1 n pop_size mut_rate w1 = Ok ((population2, scores), w') /\
    0 ∈ scores /\
    head population2 = Some p /\ heap w' !! p = Some answer.

(** EXHAUSTED: [g] unsolved generations; [answer] is the first board of the
    population [final] they leave. *)
Definition exhausted_after {G} `{RandomSource G} (n pop_size : Z)
    (mut_rate : spec_float) (population : list ref) (w : world G) (g : nat)
    (final : list ref) (answer : board) (w' : world G) : Prop :=
  exists p,
    unsolved_run n pop_size mut_rate g population w final w' /\
    head final = Some p /\ heap w' !! p = Some answer.

(** *** A concrete random source

    A linear congruential generator; [shuffle] rotates its argument by a
    drawn amount.  It serves to run the model on concrete inputs. *)

Definition lcg_next (g : Z) : Z := (1103515245 * g + 12345) mod 2147483648.

Definition lcg_randint (a b g : Z) : Z * Z :=
  (a + (lcg_next g / 65536) mod (b - a + 1), lcg_next g).

Definition lcg_shuffle (l : list Z) (g : Z) : list Z * Z :=
  let k := Z.to_nat ((lcg_next g / 65536) mod Z.of_nat (length l)) in
  (drop k l ++ take k l, lcg_next g).

Global Instance lcg : RandomSource Z :=
  {| randint := lcg_randint; shuffle := lcg_shuffle |}.

(** ** Notions used to state the properties *)

(** Two rows are in conflict: same column, or same diagonal. *)
Definition column_conflict (gen : board) (i j : Z) : Prop :=
  gen_at gen i = gen_at gen j.
Definition diagonal_conflict (gen : board) (i j : Z) : Prop :=
  Z.abs (i - j) = Z.abs (gen_at gen i - gen_at gen j).
Definition conflict (gen : board) (p : Z * Z) : Prop :=
  column_conflict gen p.1 p.2 \/ diagonal_conflict gen p.1 p.2.

Global Instance conflict_dec gen p : Decision (conflict gen p).
Proof. unfold conflict, column_conflict, diagonal_conflict. apply _. Defined.

(** The kinds of canvas items. *)
Definition is_rectangle (it : canvas_item) : Prop :=
  match it with Rectangle _ _ _ _ _ => True | CanvasText _ _ _ _ _ => False end.
Definition is_text (it : canvas_item) : Prop :=
  match it with Rectangle _ _ _ _ _ => False | CanvasText _ _ _ _ _ => True end.

Global Instance is_rectangle_dec it : Decision (is_rectangle it).
Proof. destruct it; apply _. Defined.
Global Instance is_text_dec it : Decision (is_text it).
Proof. destruct it; apply _. Defined.

(** The queen drawn for [row] on a board with tiles of size [tile_size]. *)
Definition queen_of (answer : board) (tile_size row : Z) : canvas_item :=
  CanvasText (gen_at answer row * tile_size + tile_size / 2)
    (row * tile_size + tile_size / 2) "♛"%string (tile_size / 2) "#c4aead"%string.

(** Every reference of the population designates a board of the heap. *)
Definition valid_refs {G} (w : world G) (population : list ref) : Prop :=
  Forall (fun r => is_Some (heap w !! r)) population.

(** The board invariant: length [n], every entry in [[0, n - 1]]. *)
Definition board_ok (n : Z) (b : board) : Prop :=
  Z.of_nat (length b) = n /\ Forall (fun v => 0 <= v < n) b.

(** Every board of the population satisfies the invariant. *)
Definition population_ok {G} (n : Z) (w : world G) (population : list ref) : Prop :=
  Forall (fun r => exists b, heap w !! r = Some b /\ board_ok n b) population.

(** The board behind [r] in the heap of [w] has fitness [s]. *)
Definition scored {G} (w : world G) (r : ref) (s : Z) : Prop :=
  exists gen, heap w !! r = Some gen /\ s = evaluate_gen gen.

(** The first board of the population has the lowest fitness of all. *)
Definition best_first {G} (w : world G) (population : list ref) : Prop :=
  forall p b r b',
    head population = Some p -> heap w !! p = Some b ->
    r ∈ population -> heap w !! r = Some b' ->
    evaluate_gen b <= evaluate_gen b'.

(** What the loop of [start_algorithm] maintains between generations. *)
Definition engine_inv {G} (n pop_size : Z) (w : world G) (population : list ref)
    : Prop :=
  NoDup population /\ population_ok n w population /\
  population <> [] /\ Z.of_nat (length population) <= pop_size.

(** [m] is the minimum of the scores [l]. *)
Definition is_minimum (m : Z) (l : list Z) : Prop :=
  m ∈ l /\ forall s, s ∈ l -> m <= s.

(** Ascending order of the scores of score-board pairs. *)
Definition key_le {A} (a b : Z * A) : Prop := a.1 <= b.1.

(** The draws of lines 53-54 for [count] chosen indices, from the state [g]
    of the random source: the pairs [(col, val)] in the order of the loop,
    and the state that the draws leave. *)
Fixpoint cell_draws {G} `{RandomSource G} (count : nat) (n : Z) (g : G)
    : list (Z * Z) * G :=
  match count with
  | O => ([], g)
  | S count' =>
      let '(col, g1) := randint 0 (n - 1) g in
      let '(val, g2) := randint 0 (n - 1) g1 in
      let '(rest, g3) := cell_draws count' n g2 in
      ((col, val) :: rest, g3)
  end.

(** The pairs of rows [(i, j)] with [i < j] of a board of length [len], in
    the order in which lines 61-62 visit them. *)
Definition row_pairs (len : Z) : list (Z * Z) :=
  i ← range 0 len; pair i <$> range (i + 1) len.

(* ===================================================================== *)
(** * Part II: properties                                                  *)
(* ===================================================================== *)

(** ** Ranges, slices and items *)

Lemma length_range a b : length (range a b) = Z.to_nat (b - a).
Proof. unfold range. by rewrite length_map, length_seq. Qed.

Lemma elem_of_range a b x : x ∈ range a b <-> a <= x < b.
Proof.
  unfold range. rewrite list_elem_of_fmap. split.
  - intros (k & -> & Hk). apply elem_of_seq in Hk. lia.
  - intros Hx. exists (Z.to_nat (x - a)). split; [lia|]. apply elem_of_seq. lia.
Qed.

Lemma NoDup_range a b : NoDup (range a b).
Proof.
  unfold range. apply NoDup_fmap_2; [|apply NoDup_seq].
  intros x y Hxy. lia.
Qed.

Lemma range_empty a b : b <= a -> range a b = [].
Proof. intros Hab. unfold range. by replace (Z.to_nat (b - a)) with 0%nat by lia. Qed.

Lemma range_cons a b : a < b -> range a b = a :: range (a + 1) b.
Proof.
  intros Hab. unfold range.
  replace (Z.to_nat (b - a)) with (S (Z.to_nat (b - (a + 1)))) by lia.
  cbn [seq map]. f_equal; [lia|].
  rewrite <- seq_shift, map_map. apply map_ext. intros k. lia.
Qed.

Lemma range_snoc a b : a <= b -> range a (b + 1) = range a b ++ [b].
Proof.
  intros Hab. unfold range.
  replace (Z.to_nat (b + 1 - a)) with (S (Z.to_nat (b - a))) by lia.
  rewrite seq_S, map_app. cbn [map]. do 2 f_equal. lia.
Qed.

Lemma lookup_range a b (k : nat) :
  (k < Z.to_nat (b - a))%nat -> range a b !! k = Some (a + Z.of_nat k).
Proof.
  intros Hk. unfold range. rewrite list_lookup_fmap, lookup_seq_lt by done. done.
Qed.

(** ** evaluate_gen *)

Lemma attacks_conflict gen i j : attacks gen i j = true <-> conflict gen (i, j).
Proof.
  unfold attacks, conflict, column_conflict, diagonal_conflict; simpl.
  rewrite orb_true_iff, !Z.eqb_eq. done.
Qed.

Lemma inner_loop_count gen i js c :
  foldl (fun conflict j => if attacks gen i j then conflict + 1 else conflict) c js
  = c + Z.of_nat (length (filter (conflict gen) (pair i <$> js))).
Proof.
  revert c. induction js as [|j js IH]; intros c; [simpl; lia|].
  cbn [foldl]. rewrite fmap_cons, IH, filter_cons.
  destruct (attacks gen i j) eqn:Ea.
  - apply attacks_conflict in Ea. rewrite decide_True by done. cbn [length]. lia.
  - rewrite decide_False; [lia|]. rewrite <- attacks_conflict. congruence.
Qed.

Lemma outer_loop_count gen len rows c :
  foldl (fun conflict i =>
    foldl (fun conflict j => if attacks gen i j then conflict + 1 else conflict)
      conflict (range (i + 1) len)) c rows
  = c + Z.of_nat (length (filter (conflict gen) (i ← rows; pair i <$> range (i + 1) len))).
Proof.
  revert c. induction rows as [|i rows IH]; intros c; [simpl; lia|].
  cbn [foldl]. rewrite bind_cons, IH, inner_loop_count, filter_app, length_app. lia.
Qed.

Lemma evaluate_gen_count gen :
  evaluate_gen gen
  = Z.of_nat (length (filter (conflict gen) (row_pairs (Z.of_nat (length gen))))).
Proof. unfold evaluate_gen, row_pairs. rewrite outer_loop_count. lia. Qed.

Lemma elem_of_row_pairs len i j : (i, j) ∈ row_pairs len <-> 0 <= i < j /\ j < len.
Proof.
  unfold row_pairs. rewrite list_elem_of_bind. split.
  - intros (i' & Hj & Hi). apply list_elem_of_fmap in Hj as (j' & [= -> ->] & Hj).
    apply elem_of_range in Hi, Hj. lia.
  - intros Hij. exists i. split.
    + apply list_elem_of_fmap. exists j. split; [done|]. apply elem_of_range. lia.
    + apply elem_of_range. lia.
Qed.

Lemma NoDup_row_pairs len : NoDup (row_pairs len).
Proof.
  unfold row_pairs. apply NoDup_bind.
  - intros i1 i2 [i j] _ _ H1 H2.
    apply list_elem_of_fmap in H1 as (? & [= -> ->] & _).
    apply list_elem_of_fmap in H2 as (? & [= -> ->] & _). done.
  - intros i _. apply NoDup_fmap_2; [|apply NoDup_range]. intros ?? [=]. done.
  - apply NoDup_range.
Qed.

Lemma length_row_pairs_prefix (len : Z) (n : nat) :
  Z.of_nat n <= len ->
  2 * Z.of_nat (length (i ← range 0 (Z.of_nat n); pair i <$> range (i + 1) len))
  = Z.of_nat n * (2 * len - Z.of_nat n - 1).
Proof.
  induction n as [|n IH]; intros Hn; [simpl; lia|].
  replace (Z.of_nat (S n)) with (Z.of_nat n + 1) by lia.
  rewrite range_snoc, bind_app, length_app by lia.
  simpl. rewrite app_nil_r, length_fmap, length_range.
  specialize (IH ltac:(lia)). nia.
Qed.

Lemma length_row_pairs (n : nat) :
  Z.of_nat (length (row_pairs (Z.of_nat n))) = Z.of_nat n * (Z.of_nat n - 1) / 2.
Proof.
  pose proof (length_row_pairs_prefix (Z.of_nat n) n ltac:(lia)) as Hl.
  fold (row_pairs (Z.of_nat n)) in Hl.
  apply Z.div_unique_exact; lia.
Qed.

Lemma gen_at_replicate (n : nat) c i :
  0 <= i < Z.of_nat n -> gen_at (replicate n c) i = c.
Proof.
  intros Hi. unfold gen_at. apply nth_lookup_Some, lookup_replicate_2. lia.
Qed.

Lemma filter_all {A} (P : A -> Prop) `{!forall x, Decision (P x)} (l : list A) :
  Forall P l -> filter P l = l.
Proof.
  induction 1 as [|x l Hx _ IH]; [done|]. by rewrite filter_cons_True, IH.
Qed.

Lemma conflicts_exclusive gen i j :
  i <> j -> ~ (column_conflict gen i j /\ diagonal_conflict gen i j).
Proof. unfold column_conflict, diagonal_conflict. lia. Qed.

(** C1: for every board, [evaluate_gen] returns the number of pairs of rows
    [(i, j)], [i < j], that are in conflict (same column, or same diagonal),
    each pair counted once: [row_pairs] lists every such pair exactly once.
    For a single pair the two conditions exclude each other.  The board
    [[1; 3; 0; 2]] has fitness 0. *)
Theorem evaluate_gen_counts_conflicting_pairs :
  (forall gen : board,
     let N := Z.of_nat (length gen) in
     NoDup (row_pairs N) /\
     (forall i j, (i, j) ∈ row_pairs N <-> 0 <= i < j /\ j < N) /\
     evaluate_gen gen = Z.of_nat (length (filter (conflict gen) (row_pairs N))) /\
     (forall i j, i < j ->
        ~ (column_conflict gen i j /\ diagonal_conflict gen i j))) /\
  evaluate_gen [1; 3; 0; 2] = 0.
Proof.
  split; [|reflexivity].
  intros gen N. split; [apply NoDup_row_pairs|].
  split; [apply elem_of_row_pairs|].
  split; [apply evaluate_gen_count|].
  intros i j Hij. apply conflicts_exclusive. lia.
Qed.

Lemma evaluate_gen_bounds gen :
  0 <= evaluate_gen gen
    <= Z.of_nat (length gen) * (Z.of_nat (length gen) - 1) / 2.
Proof.
  rewrite evaluate_gen_count, <- length_row_pairs.
  pose proof (length_filter (conflict gen) (row_pairs (Z.of_nat (length gen)))).
  lia.
Qed.

Lemma evaluate_gen_replicate (n : nat) (c : Z) :
  evaluate_gen (replicate n c) = Z.of_nat n * (Z.of_nat n - 1) / 2.
Proof.
  rewrite evaluate_gen_count, length_replicate, <- length_row_pairs.
  rewrite filter_all; [done|].
  apply Forall_forall. intros [i j] Hij. apply elem_of_row_pairs in Hij.
  left. unfold column_conflict. simpl. rewrite !gen_at_replicate by lia. done.
Qed.

(** C7: the fitness of a board of length N lies between 0 and N*(N-1)/2, and
    a board whose N entries are all equal has fitness exactly N*(N-1)/2. *)
Theorem evaluate_gen_range_and_maximum :
  (forall gen : board,
     0 <= evaluate_gen gen
       <= Z.of_nat (length gen) * (Z.of_nat (length gen) - 1) / 2) /\
  (forall (n : nat) (c : Z),
     length (replicate n c) = n /\
     evaluate_gen (replicate n c) = Z.of_nat n * (Z.of_nat n - 1) / 2).
Proof.
  split; [apply evaluate_gen_bounds|].
  intros n c. split; [apply length_replicate | apply evaluate_gen_replicate].
Qed.

(** ** Slices *)

Lemma slice_to_nonneg {A} (l : list A) k : 0 <= k -> slice_to l k = take (Z.to_nat k) l.
Proof.
  intros Hk. unfold slice_to, slice_index.
  destruct (Z.ltb_spec k 0); [lia|done].
Qed.

Lemma slice_from_nonneg {A} (l : list A) k : 0 <= k -> slice_from l k = drop (Z.to_nat k) l.
Proof.
  intros Hk. unfold slice_from, slice_index.
  destruct (Z.ltb_spec k 0); [lia|done].
Qed.

Lemma slice_to_from {A} (l : list A) k : slice_to l k ++ slice_from l k = l.
Proof. apply take_drop. Qed.

Lemma slice_to_prefix {A} (l : list A) k : exists n, slice_to l k = take n l.
Proof. eexists. reflexivity. Qed.

(** ** Sorting by score *)

Lemma insert_by_key_perm {A} (x : Z * A) l : insert_by_key x l ≡ₚ x :: l.
Proof.
  induction l as [|y l IH]; simpl; [done|].
  destruct (x.1 <=? y.1); [done|]. rewrite IH. apply Permutation_swap.
Qed.

Lemma sorted_by_key_perm {A} (l : list (Z * A)) : sorted_by_key l ≡ₚ l.
Proof.
  induction l as [|x l IH]; simpl; [done|].
  rewrite insert_by_key_perm. by constructor.
Qed.

Lemma insert_by_key_sorted {A} (x : Z * A) l :
  StronglySorted key_le l -> StronglySorted key_le (insert_by_key x l).
Proof.
  induction 1 as [|y l Hl IH Hy]; simpl.
  - repeat constructor.
  - destruct (Z.leb_spec x.1 y.1) as [Hxy|Hxy].
    + constructor; [by constructor|]. constructor; [done|].
      eapply Forall_impl; [exact Hy|]. unfold key_le. intros; lia.
    + constructor; [done|]. rewrite insert_by_key_perm. constructor; [|done].
      unfold key_le. lia.
Qed.

Lemma sorted_by_key_sorted {A} (l : list (Z * A)) : StronglySorted key_le (sorted_by_key l).
Proof.
  induction l as [|x l IH]; simpl; [constructor|]. by apply insert_by_key_sorted.
Qed.

Lemma StronglySorted_take {A} (R : A -> A -> Prop) l n :
  StronglySorted R l -> StronglySorted R (take n l).
Proof.
  intros Hl. revert n. induction Hl as [|x l Hl IH Hx]; intros [|n]; simpl; try constructor.
  - apply IH.
  - by apply Forall_take.
Qed.

Lemma StronglySorted_keys {A} (l : list (Z * A)) :
  StronglySorted key_le l -> StronglySorted Z.le (l.*1).
Proof.
  induction 1 as [|x l Hl IH Hx]; simpl; constructor; [done|].
  apply Forall_fmap. exact Hx.
Qed.

(** ** eliminate *)

Lemma eliminate_cases {A} (population_list : list A) evaluate_list population_size :
  let combined := sorted_by_key (zip evaluate_list population_list) in
  (combined = [] /\
   eliminate population_list evaluate_list population_size = Raise IndexError) \/
  (exists p0 rest, combined = (0, p0) :: rest /\
   eliminate population_list evaluate_list population_size = Ok ([p0], [0])) \/
  (exists e0 p0 rest, combined = (e0, p0) :: rest /\ e0 <> 0 /\
   eliminate population_list evaluate_list population_size
   = Ok ((slice_to combined population_size).*2, (slice_to combined population_size).*1)).
Proof.
  intros combined. unfold eliminate. fold combined.
  destruct combined as [|[e0 p0] rest]; [by left|]. right.
  destruct (Z.eqb_spec e0 0) as [->|Hne]; [left|right]; eauto 6.
Qed.

Lemma zip_nonempty {A B} (l : list A) (k : list B) :
  length l = length k -> k <> [] -> zip l k <> [].
Proof. destruct l, k; simpl; intros; congruence. Qed.

Lemma sorted_by_key_nonempty {A} (l : list (Z * A)) : l <> [] -> sorted_by_key l <> [].
Proof.
  intros Hl Hs. pose proof (sorted_by_key_perm l) as Hp. rewrite Hs in Hp.
  apply Permutation_nil_l in Hp. done.
Qed.

Lemma eliminate_empty {A} (evaluate_list : list Z) population_size :
  eliminate (@nil A) evaluate_list population_size = Raise IndexError.
Proof. unfold eliminate. by rewrite zip_with_nil_r. Qed.

(** C2: on a non-empty population with its parallel score list and a target
    size of at least 1, [eliminate] sorts the score-board pairs by ascending
    score.  If the minimum score is 0 it returns exactly one board, one whose
    score is 0, with the score list [[0]]; otherwise it returns the boards and
    the scores of the first [population_size] sorted pairs, at most
    [population_size] of them.  The two lists are parallel, and the returned
    scores are ascending, none below the first. *)
Theorem eliminate_keeps_lowest_scores {A} (population_list : list A)
    (evaluate_list : list Z) (population_size : Z) :
  1 <= population_size ->
  length population_list = length evaluate_list ->
  population_list <> [] ->
  exists combined population' scores',
    combined ≡ₚ zip evaluate_list population_list /\
    StronglySorted key_le combined /\
    eliminate population_list evaluate_list population_size = Ok (population', scores') /\
    length population' = length scores' /\
    (is_minimum 0 evaluate_list ->
       exists p0, population' = [p0] /\ scores' = [0] /\
                  (0, p0) ∈ zip evaluate_list population_list) /\
    (~ is_minimum 0 evaluate_list ->
       population' = (take (Z.to_nat population_size) combined).*2 /\
       scores' = (take (Z.to_nat population_size) combined).*1 /\
       Z.of_nat (length population') <= population_size) /\
    StronglySorted Z.le scores' /\
    (forall s0 s, head scores' = Some s0 -> s ∈ scores' -> s0 <= s).
Proof.
  intros HP Hlen Hne.
  set (combined := sorted_by_key (zip evaluate_list population_list)).
  assert (Hperm : combined ≡ₚ zip evaluate_list population_list)
    by apply sorted_by_key_perm.
  assert (Hsorted : StronglySorted key_le combined) by apply sorted_by_key_sorted.
  assert (Hkeys : combined.*1 ≡ₚ evaluate_list).
  { rewrite Hperm. rewrite fst_zip; [done|lia]. }
  assert (Hmin : forall e0 p0 rest, combined = (e0, p0) :: rest ->
            is_minimum e0 evaluate_list).
  { intros e0 p0 rest Hc. split.
    - rewrite <- Hkeys, Hc. simpl. left.
    - intros s Hs. rewrite <- Hkeys, Hc in Hs. simpl in Hs.
      rewrite Hc in Hsorted. apply StronglySorted_inv in Hsorted as [_ Hall].
      apply elem_of_cons in Hs as [->|Hs]; [lia|].
      apply list_elem_of_fmap in Hs as ([s' p'] & -> & Hin).
      rewrite Forall_forall in Hall. apply (Hall _ Hin). }
  exists combined.
  pose proof (eliminate_cases population_list evaluate_list population_size) as Hcases.
  cbv zeta in Hcases. fold combined in Hcases.
  destruct Hcases
    as [[Hnil _]|[(p0 & rest & Hc & ->)|(e0 & p0 & rest & Hc & He0 & ->)]].
  - exfalso. revert Hnil. apply sorted_by_key_nonempty, zip_nonempty; done.
  - exists [p0], [0].
    assert (Hm0 : is_minimum 0 evaluate_list) by (eapply Hmin; done).
    split; [done|]. split; [done|]. split; [done|]. split; [done|].
    split.
    { intros _. exists p0. split; [done|]. split; [done|].
      rewrite <- Hperm, Hc. left. }
    split; [done|]. split; [repeat constructor|].
    intros s0 s [= <-] ->%list_elem_of_singleton. done.
  - rewrite slice_to_nonneg by lia.
    eexists _, _. split; [done|]. split; [done|]. split; [done|].
    split; [by rewrite !length_fmap|].
    assert (Hno : ~ is_minimum 0 evaluate_list).
    { intros [H0 Hall]. destruct (Hmin _ _ _ Hc) as [He Hle].
      specialize (Hall _ He). specialize (Hle _ H0). lia. }
    split; [done|]. split.
    { intros _. split; [done|]. split; [done|].
      rewrite length_fmap, length_take. lia. }
    assert (Hs : StronglySorted Z.le ((take (Z.to_nat population_size) combined).*1)).
    { apply StronglySorted_keys, StronglySorted_take, Hsorted. }
    split; [done|].
    intros s0 s Hhd Hs'.
    destruct ((take (Z.to_nat population_size) combined).*1) as [|s1 l]; [done|].
    injection Hhd as ->. apply StronglySorted_inv in Hs as [_ Hall].
    apply elem_of_cons in Hs' as [->|Hs']; [lia|].
    rewrite Forall_forall in Hall. by apply Hall.
Qed.

Lemma eliminate_keeps_lowest_scores_witness :
  exists combined population' scores',
    combined ≡ₚ zip [2; 1; 3] [[0; 0; 0]; [0; 2; 0]; [0; 1; 2]] /\
    StronglySorted key_le combined /\
    eliminate [[0; 0; 0]; [0; 2; 0]; [0; 1; 2]] [2; 1; 3] 2 = Ok (population', scores') /\
    length population' = length scores' /\
    (is_minimum 0 [2; 1; 3] ->
       exists p0, population' = [p0] /\ scores' = [0] /\
                  (0, p0) ∈ zip [2; 1; 3] [[0; 0; 0]; [0; 2; 0]; [0; 1; 2]]) /\
    (~ is_minimum 0 [2; 1; 3] ->
       population' = (take (Z.to_nat 2) combined).*2 /\
       scores' = (take (Z.to_nat 2) combined).*1 /\
       Z.of_nat (length population') <= 2) /\
    StronglySorted Z.le scores' /\
    (forall s0 s, head scores' = Some s0 -> s ∈ scores' -> s0 <= s).
Proof.
  apply (eliminate_keeps_lowest_scores [[0; 0; 0]; [0; 2; 0]; [0; 1; 2]] [2; 1; 3] 2).
  - lia.
  - reflexivity.
  - discriminate.
Defined.

(** ** The monad *)

Lemma bind_run {G A B} (m : M G A) (f : A -> M G B) w a w' :
  m w = Ok (a, w') -> (m ≫= f) w = f a w'.
Proof. intros Hm. unfold mbind, M_bind. by rewrite Hm. Qed.

Lemma bind_raise {G A B} (m : M G A) (f : A -> M G B) w e :
  m w = Raise e -> (m ≫= f) w = Raise e.
Proof. intros Hm. unfold mbind, M_bind. by rewrite Hm. Qed.

Lemma bind_Ok {G A B} (m : M G A) (f : A -> M G B) w r :
  (m ≫= f) w = Ok r <-> exists a w', m w = Ok (a, w') /\ f a w' = Ok r.
Proof.
  unfold mbind, M_bind. destruct (m w) as [[a w']|e]; split.
  - eauto.
  - by intros (? & ? & [= <- <-] & ?).
  - done.
  - by intros (? & ? & ? & ?).
Qed.

Lemma lift_Ok {G A} (r : result A) (w : world G) a w' :
  lift r w = Ok (a, w') <-> r = Ok a /\ w' = w.
Proof.
  unfold lift. destruct r as [a0|e]; split.
  - by intros [= <- <-].
  - by intros [[= <-] ->].
  - done.
  - by intros [? _].
Qed.

Lemma load_Ok {G} (r : ref) (w : world G) b w' :
  load r w = Ok (b, w') <-> heap w !! r = Some b /\ w' = w.
Proof.
  unfold load. destruct (heap w !! r) as [b0|]; split.
  - by intros [= <- <-].
  - by intros [[= <-] ->].
  - done.
  - by intros [? _].
Qed.

Lemma load_run {G} (r : ref) (w : world G) b :
  heap w !! r = Some b -> load r w = Ok (b, w).
Proof. intros. by apply load_Ok. Qed.

(** ** fitness *)

Lemma fitness_Ok {G} (population_list : list ref) (w : world G) scores w' :
  fitness population_list w = Ok (scores, w') <->
  Forall2 (scored w) population_list scores /\ w' = w.
Proof.
  revert scores w'. induction population_list as [|r rs IH]; intros scores w'; simpl.
  - unfold mret, M_ret. split.
    + intros [= <- <-]. split; [constructor|done].
    + intros [Hf ->]. by inversion Hf.
  - rewrite bind_Ok. split.
    + intros (gen & w1 & [Hr ->]%load_Ok & Hrest).
      apply bind_Ok in Hrest as (ss & w2 & [Hf ->]%IH & [= <- <-]).
      split; [|done]. constructor; [by exists gen|done].
    + intros [Hf ->]. inversion Hf as [|? s ? ss (gen & Hr & ->) Hf']; subst.
      exists gen, w. split; [by apply load_run|].
      apply bind_Ok. exists ss, w. split; [by apply IH|done].
Qed.

Lemma fitness_run {G} (population_list : list ref) (w : world G) scores :
  Forall2 (scored w) population_list scores ->
  fitness population_list w = Ok (scores, w).
Proof. intros. by apply fitness_Ok. Qed.

Lemma scored_pairs {G} (w : world G) (pairs : list (Z * ref)) :
  Forall (fun sp => scored w sp.2 sp.1) pairs ->
  Forall2 (scored w) (pairs.*2) (pairs.*1).
Proof. induction 1; simpl; by constructor. Qed.

Lemma scored_zip {G} (w : world G) population_list scores :
  Forall2 (scored w) population_list scores ->
  Forall (fun sp => scored w sp.2 sp.1) (zip scores population_list).
Proof. induction 1; simpl; by constructor. Qed.

(** C10: when each input score is the fitness of the board at the same
    position, the two lists returned by [eliminate] have the same length and
    each returned score is the fitness of the returned board at the same
    position; this covers the [[0]] of the early return. *)
Theorem eliminate_keeps_scores_parallel {G} (w : world G)
    (population_list : list ref) (evaluate_list : list Z) (population_size : Z) :
  population_list <> [] ->
  fitness population_list w = Ok (evaluate_list, w) ->
  exists population' scores',
    eliminate population_list evaluate_list population_size = Ok (population', scores') /\
    length population' = length scores' /\
    fitness population' w = Ok (scores', w) /\
    Forall2 (fun r s => exists gen, heap w !! r = Some gen /\ s = evaluate_gen gen)
      population' scores'.
Proof.
  intros Hne [Hf _]%fitness_Ok.
  assert (Hlen : length population_list = length evaluate_list)
    by (eapply Forall2_length; done).
  assert (Hall : Forall (fun sp => scored w sp.2 sp.1)
                   (sorted_by_key (zip evaluate_list population_list))).
  { rewrite sorted_by_key_perm. by apply scored_zip. }
  pose proof (eliminate_cases population_list evaluate_list population_size) as Hcases.
  cbv zeta in Hcases.
  destruct Hcases
    as [[Hnil _]|[(p0 & rest & Hc & ->)|(e0 & p0 & rest & Hc & He0 & ->)]].
  - exfalso. revert Hnil. apply sorted_by_key_nonempty, zip_nonempty; done.
  - rewrite Hc in Hall. apply Forall_cons in Hall as [H0 _]. simpl in H0.
    assert (Forall2 (scored w) [p0] [0]) by (by repeat constructor).
    exists [p0], [0]. split; [done|]. split; [done|]. split; [by apply fitness_run|done].
  - destruct (slice_to_prefix (sorted_by_key (zip evaluate_list population_list))
                population_size) as [k ->].
    set (top := take k _).
    assert (Forall2 (scored w) (top.*2) (top.*1))
      by (apply scored_pairs, Forall_take, Hall).
    exists (top.*2), (top.*1). split; [done|]. split; [by rewrite !length_fmap|].
    split; [by apply fitness_run|done].
Qed.

Lemma eliminate_keeps_scores_parallel_witness :
  exists population' scores',
    eliminate [0%nat; 1%nat] [6; 0] 2 = Ok (population', scores') /\
    length population' = length scores' /\
    fitness population' (World [[0; 1; 2; 3]; [1; 3; 0; 2]] 0) =
      Ok (scores', World [[0; 1; 2; 3]; [1; 3; 0; 2]] 0) /\
    Forall2 (fun r s => exists gen,
               heap (World [[0; 1; 2; 3]; [1; 3; 0; 2]] 0) !! r = Some gen /\
               s = evaluate_gen gen)
      population' scores'.
Proof.
  apply (eliminate_keeps_scores_parallel (World [[0; 1; 2; 3]; [1; 3; 0; 2]] 0)
           [0%nat; 1%nat] [6; 0] 2).
  - discriminate.
  - reflexivity.
Defined.

(** ** Items *)

Lemma norm_index_of_nat (len k : nat) :
  (k < len)%nat -> norm_index len (Z.of_nat k) = Some k.
Proof.
  intros Hk. unfold norm_index.
  destruct (Z.leb_spec 0 (Z.of_nat k)); [|lia].
  destruct (Z.ltb_spec (Z.of_nat k) (Z.of_nat len)); [|lia].
  simpl. f_equal. lia.
Qed.

Lemma item_lookup {A} (l : list A) (k : nat) x :
  l !! k = Some x -> item l (Z.of_nat k) = Ok x.
Proof.
  intros Hk. unfold item.
  rewrite norm_index_of_nat by (by eapply lookup_lt_Some). by rewrite Hk.
Qed.

Lemma norm_index_Some len i k :
  norm_index len i = Some k -> (k < len)%nat.
Proof.
  unfold norm_index.
  destruct (Z.leb_spec 0 i), (Z.ltb_spec i (Z.of_nat len)); simpl;
    try (intros [= <-]; lia);
    destruct (Z.leb_spec (- Z.of_nat len) i), (Z.ltb_spec i 0); simpl;
    try (intros [= <-]; lia); done.
Qed.

Lemma norm_index_None len i :
  norm_index len i = None <-> i < - Z.of_nat len \/ Z.of_nat len <= i.
Proof.
  unfold norm_index.
  destruct (Z.leb_spec 0 i), (Z.ltb_spec i (Z.of_nat len)); simpl;
    try (split; [done|lia]);
    destruct (Z.leb_spec (- Z.of_nat len) i), (Z.ltb_spec i 0); simpl;
    try (split; [done|lia]); split; (done || lia).
Qed.

(** ** crossover *)

Lemma alloc_run {G} (b : board) (w : world G) :
  alloc b w = Ok (length (heap w), World (heap w ++ [b]) (rng w)).
Proof. done. Qed.

Lemma valid_refs_app {G} (w : world G) population h' (g' : G) :
  valid_refs w population -> valid_refs (World (heap w ++ h') g') population.
Proof.
  intros Hv. eapply Forall_impl; [exact Hv|].
  intros r [b Hb]. exists b. simpl. by apply lookup_app_l_Some.
Qed.

Lemma crossover_loop_run {G} (population_list : list ref) (div_index : Z) :
  forall (indices : list Z) (new_population : list ref) (w : world G),
    Forall (fun i => exists k : nat, i = Z.of_nat k /\
                       (k + 1 < length population_list)%nat) indices ->
    valid_refs w population_list ->
    exists w',
      crossover_loop indices population_list div_index new_population w
      = Ok (new_population ++ seq (length (heap w)) (2 * length indices), w') /\
      rng w' = rng w /\
      length (heap w') = (length (heap w) + 2 * length indices)%nat /\
      (forall r b, heap w !! r = Some b -> heap w' !! r = Some b) /\
      (forall (j k : nat) p1 p2 b1 b2,
         indices !! j = Some (Z.of_nat k) ->
         population_list !! k = Some p1 -> population_list !! S k = Some p2 ->
         heap w !! p1 = Some b1 -> heap w !! p2 = Some b2 ->
         heap w' !! (length (heap w) + 2 * j)%nat
           = Some (slice_to b1 div_index ++ slice_from b2 div_index) /\
         heap w' !! (length (heap w) + 2 * j + 1)%nat
           = Some (slice_to b2 div_index ++ slice_from b1 div_index)).
Proof.
  induction indices as [|i rest IH]; intros acc w Hidx Hvalid.
  - exists w. simpl. rewrite app_nil_r. repeat split; try done; lia.
  - apply Forall_cons in Hidx as [(k & -> & Hk) Hrest].
    destruct (lookup_lt_is_Some_2 population_list k ltac:(lia)) as [p1 Hp1].
    destruct (lookup_lt_is_Some_2 population_list (S k) ltac:(lia)) as [p2 Hp2].
    unfold valid_refs in Hvalid. rewrite Forall_forall in Hvalid.
    destruct (Hvalid p1) as [b1 Hb1]; [by eapply list_elem_of_lookup_2|].
    destruct (Hvalid p2) as [b2 Hb2]; [by eapply list_elem_of_lookup_2|].
    set (c1 := slice_to b1 div_index ++ slice_from b2 div_index).
    set (c2 := slice_to b2 div_index ++ slice_from b1 div_index).
    set (w2 := World ((heap w ++ [c1]) ++ [c2]) (rng w)).
    destruct (IH (acc ++ [length (heap w); length (heap w ++ [c1])]) w2 Hrest)
      as (w' & Hrun & Hrng & Hlen & Hpre & Hch).
    { subst w2. rewrite <- app_assoc. apply valid_refs_app.
      by apply Forall_forall. }
    exists w'. split; [|split; [|split; [|split]]].
    + cbn [crossover_loop].
      erewrite bind_run; [|apply lift_Ok; split; [by apply item_lookup|done]].
      erewrite bind_run;
        [|apply lift_Ok; split; [|done];
          replace (Z.of_nat k + 1) with (Z.of_nat (S k)) by lia; by apply item_lookup].
      erewrite bind_run; [|by apply load_run].
      erewrite bind_run; [|by apply load_run].
      erewrite bind_run; [|apply alloc_run].
      erewrite bind_run; [|apply alloc_run].
      change (crossover_loop rest population_list div_index
                (acc ++ [length (heap w); length (heap w ++ [c1])]) w2 = 
              Ok (acc ++ seq (length (heap w)) (2 * length (Z.of_nat k :: rest)), w')).
      rewrite Hrun. f_equal. f_equal.
      rewrite <- app_assoc. f_equal. subst w2. cbn [heap length].
      rewrite !length_app. cbn [length].
      replace (2 * S (length rest))%nat with (S (S (2 * length rest))) by lia.
      cbn [seq app]. do 2 f_equal; [lia|]. f_equal. lia.
    + by rewrite Hrng.
    + rewrite Hlen. subst w2. cbn [heap length]. rewrite !length_app. simpl. lia.
    + intros r b Hr. apply Hpre. subst w2. cbn [heap].
      by apply lookup_app_l_Some, lookup_app_l_Some.
    + intros j k' q1 q2 a1 a2 Hj Hq1 Hq2 Ha1 Ha2.
      destruct j as [|j].
      * injection Hj as Hj. apply Nat2Z.inj in Hj as <-.
        assert (q1 = p1) as -> by congruence. assert (q2 = p2) as -> by congruence.
        assert (a1 = b1) as -> by congruence. assert (a2 = b2) as -> by congruence.
        fold c1 c2.
        replace (length (heap w) + 2 * 0)%nat with (length (heap w)) by lia.
        split; apply Hpre; subst w2; cbn [heap].
        -- apply lookup_app_l_Some. by rewrite lookup_app_r, Nat.sub_diag.
        -- rewrite lookup_app_r by (rewrite length_app; simpl; lia).
           rewrite length_app. simpl.
           by replace (length (heap w) + 1 - (length (heap w) + 1))%nat with 0%nat by lia.
      * destruct (Hch j k' q1 q2 a1 a2) as [H1 H2]; try done.
        { subst w2. cbn [heap]. by apply lookup_app_l_Some, lookup_app_l_Some. }
        { subst w2. cbn [heap]. by apply lookup_app_l_Some, lookup_app_l_Some. }
        subst w2. cbn [heap] in H1, H2. rewrite !length_app in H1, H2. simpl in H1, H2.
        split; [rewrite <- H1 | rewrite <- H2]; f_equal; lia.
Qed.

Lemma range2_pairs (len : nat) :
  range2 0 (Z.of_nat len - 1) = map (fun k => Z.of_nat (2 * k)) (seq 0 (len / 2)).
Proof.
  unfold range2.
  replace (Z.to_nat ((Z.of_nat len - 1 - 0 + 1) / 2)) with (len / 2)%nat.
  - apply map_ext. intros k. lia.
  - replace (Z.of_nat len - 1 - 0 + 1) with (Z.of_nat len) by lia.
    change 2 with (Z.of_nat 2). rewrite <- Nat2Z.inj_div. lia.
Qed.

Lemma crossover_run {G} (population_list : list ref) (n : Z) (w : world G) :
  valid_refs w population_list ->
  let len := length population_list in
  exists w',
    crossover population_list n w
    = Ok (population_list ++ seq (length (heap w)) (2 * (len / 2)), w') /\
    rng w' = rng w /\
    length (heap w') = (length (heap w) + 2 * (len / 2))%nat /\
    (forall r b, heap w !! r = Some b -> heap w' !! r = Some b) /\
    (forall (k : nat) p1 p2 b1 b2,
       population_list !! (2 * k)%nat = Some p1 ->
       population_list !! (2 * k + 1)%nat = Some p2 ->
       heap w !! p1 = Some b1 -> heap w !! p2 = Some b2 ->
       heap w' !! (length (heap w) + 2 * k)%nat
         = Some (slice_to b1 (n / 2) ++ slice_from b2 (n / 2)) /\
       heap w' !! (length (heap w) + 2 * k + 1)%nat
         = Some (slice_to b2 (n / 2) ++ slice_from b1 (n / 2))).
Proof.
  intros Hvalid len. unfold crossover. rewrite range2_pairs. fold len.
  destruct (crossover_loop_run population_list (n / 2)
              (map (fun k => Z.of_nat (2 * k)) (seq 0 (len / 2))) population_list w)
    as (w' & Hrun & Hrng & Hlen & Hpre & Hch); [|done|].
  { apply Forall_forall. intros i Hi.
    apply list_elem_of_fmap in Hi as (k & -> & Hk). apply elem_of_seq in Hk.
    exists (2 * k)%nat. split; [done|].
    pose proof (Nat.div_mod_eq (length population_list) 2).
    pose proof (Nat.mod_upper_bound (length population_list) 2). subst len. lia. }
  rewrite length_map, length_seq in Hrun, Hlen.
  exists w'. split; [done|]. split; [done|]. split; [done|]. split; [done|].
  intros k p1 p2 b1 b2 Hp1 Hp2 Hb1 Hb2.
  apply (Hch k (2 * k)%nat p1 p2 b1 b2); try done.
  - rewrite list_lookup_fmap, lookup_seq_lt; [done|].
    apply lookup_lt_Some in Hp2.
    pose proof (Nat.div_mod_eq (length population_list) 2).
    pose proof (Nat.mod_upper_bound (length population_list) 2). subst len. lia.
  - by replace (S (2 * k)) with (2 * k + 1)%nat by lia.
Qed.

(** C3: on a population of [M] valid references and a board size [n >= 0],
    [crossover] returns [M + 2 * (M / 2)] references; the first [M] are the
    original ones, in order, and their boards are unchanged in the heap; for
    each pair [(2k, 2k+1)] the references at positions [M + 2k] and
    [M + 2k + 1] designate the two children: the first [n // 2] entries of one
    parent followed by the remaining entries of the other.  With [M < 2] the
    population is returned as it is. *)
Theorem crossover_appends_children {G} (w : world G)
    (population_list : list ref) (n : Z) :
  0 <= n ->
  valid_refs w population_list ->
  let M := length population_list in
  let d := Z.to_nat (n / 2) in
  exists population' w',
    crossover population_list n w = Ok (population', w') /\
    length population' = (M + 2 * (M / 2))%nat /\
    take M population' = population_list /\
    (forall r b, heap w !! r = Some b -> heap w' !! r = Some b) /\
    (forall (k : nat) p1 p2 b1 b2,
       population_list !! (2 * k)%nat = Some p1 ->
       population_list !! (2 * k + 1)%nat = Some p2 ->
       heap w !! p1 = Some b1 -> heap w !! p2 = Some b2 ->
       exists c1 c2,
         population' !! (M + 2 * k)%nat = Some c1 /\
         population' !! (M + 2 * k + 1)%nat = Some c2 /\
         heap w' !! c1 = Some (take d b1 ++ drop d b2) /\
         heap w' !! c2 = Some (take d b2 ++ drop d b1)) /\
    ((M < 2)%nat -> population' = population_list).
Proof.
  intros Hn Hvalid M d.
  assert (Hd : 0 <= n / 2) by (apply Z.div_pos; lia).
  destruct (crossover_run population_list n w Hvalid)
    as (w' & Hrun & _ & Hlen & Hpre & Hch). fold M in Hrun, Hlen.
  eexists _, w'. split; [exact Hrun|].
  split; [by rewrite length_app, length_seq|].
  split; [unfold M; by rewrite take_app_length|].
  split; [done|]. split.
  - intros k p1 p2 b1 b2 Hp1 Hp2 Hb1 Hb2.
    destruct (Hch k p1 p2 b1 b2 Hp1 Hp2 Hb1 Hb2) as [H1 H2].
    rewrite !slice_to_nonneg, !slice_from_nonneg in H1, H2 by done.
    assert (Hk : (2 * k + 1 < 2 * (M / 2))%nat).
    { apply lookup_lt_Some in Hp2. fold M in Hp2.
      pose proof (Nat.div_mod_eq M 2). pose proof (Nat.mod_upper_bound M 2). lia. }
    exists (length (heap w) + 2 * k)%nat, (length (heap w) + 2 * k + 1)%nat.
    split; [|split; [|done]].
    + rewrite lookup_app_r by (fold M; lia). fold M.
      replace (M + 2 * k - M)%nat with (2 * k)%nat by lia.
      rewrite lookup_seq_lt by lia. done.
    + rewrite lookup_app_r by (fold M; lia). fold M.
      replace (M + 2 * k + 1 - M)%nat with (2 * k + 1)%nat by lia.
      rewrite lookup_seq_lt by lia. f_equal. lia.
  - intros HM. replace (M / 2)%nat with 0%nat.
    + simpl. by rewrite app_nil_r.
    + symmetry. apply Nat.div_small. done.
Qed.

Lemma crossover_appends_children_witness :
  exists population' w',
    crossover [0%nat; 1%nat; 2%nat] 4
      (World [[0; 1; 2; 3]; [3; 2; 1; 0]; [1; 1; 1; 1]] 7) = Ok (population', w') /\
    length population' = 5%nat /\
    take 3 population' = [0%nat; 1%nat; 2%nat].
Proof.
  destruct (crossover_appends_children
              (World [[0; 1; 2; 3]; [3; 2; 1; 0]; [1; 1; 1; 1]] 7)
              [0%nat; 1%nat; 2%nat] 4)
    as (population' & w' & Hrun & Hlen & Htake & _).
  - lia.
  - repeat constructor; eexists; reflexivity.
  - exists population', w'. split; [exact Hrun|]. split; [exact Hlen|exact Htake].
Defined.

(** ** Binary64 arithmetic *)

Lemma digits2_pos_size p : digits2_pos p = Pos.size p.
Proof. induction p; simpl; congruence. Qed.

Lemma digits2_pos_log2 p : Z.pos (digits2_pos p) = Z.log2 (Z.pos p) + 1.
Proof.
  rewrite digits2_pos_size. destruct p; simpl; lia.
Qed.

Lemma Zdigits2_log2 z : 0 < z -> Zdigits2 z = Z.log2 z + 1.
Proof. destruct z; try lia. intros _. apply digits2_pos_log2. Qed.

Lemma iter_pos_iter {A} (f : A -> A) p x : SpecFloat.iter_pos f p x = Pos.iter f x p.
Proof.
  revert x. induction p; intros x; simpl.
  - rewrite !IHp. 
    assert (H: forall q y, Pos.iter f (f y) q = f (Pos.iter f y q)).
    { intros q y. rewrite <- Pos.iter_succ_r, Pos.iter_succ. done. }
    rewrite !H. done.
  - rewrite !IHp. done.
  - done.
Qed.

Definition inexact (mrs : shr_record) : bool := shr_r mrs || shr_s mrs.

Lemma shr_1_spec m r s :
  0 <= m ->
  shr_m (shr_1 (Build_shr_record m r s)) = m / 2 /\
  inexact (shr_1 (Build_shr_record m r s)) = Z.odd m || r || s.
Proof.
  intros Hm. destruct m as [|p|p]; try lia.
  - simpl. unfold inexact; simpl. done.
  - destruct p; unfold inexact; simpl.
    + split; [|done]. rewrite Pos2Z.inj_xI. 
      apply Z.div_unique with 1; lia.
    + split; [|done]. rewrite Pos2Z.inj_xO.
      apply Z.div_unique with 0; lia.
    + split; done.
Qed.

Lemma iter_shr_1_spec p : forall mrs,
  0 <= shr_m mrs ->
  shr_m (SpecFloat.iter_pos shr_1 p mrs) = shr_m mrs / 2 ^ Z.pos p /\
  (inexact (SpecFloat.iter_pos shr_1 p mrs) = false <->
     shr_m mrs mod 2 ^ Z.pos p = 0 /\ inexact mrs = false).
Proof.
  setoid_rewrite iter_pos_iter.
  induction p using Pos.peano_ind; intros [m r s] Hm; simpl in Hm.
  - change (Pos.iter shr_1 ?x 1) with (shr_1 x).
    destruct (shr_1_spec m r s Hm) as [-> ->].
    split; [done|]. cbn [shr_m]. unfold inexact at 1; simpl.
    rewrite Z.pow_1_r, Zmod_odd.
    destruct (Z.odd m), r, s; simpl; split; intros; try done; try lia; naive_solver.
  - rewrite Pos.iter_succ_r.
    destruct (shr_1_spec m r s Hm) as [H1 H2].
    destruct (shr_1 _) as [m' r' s'] eqn:E. simpl in H1.
    assert (Hm' : 0 <= m') by (subst m'; apply Z.div_pos; lia).
    destruct (IHp (Build_shr_record m' r' s') Hm') as [IH1 IH2].
    cbn [shr_m] in *. rewrite IH1, IH2, H2. subst m'.
    rewrite Pos2Z.inj_succ, Z.pow_succ_r by lia.
    split.
    + rewrite Z.div_div by lia. done.
    + unfold inexact; simpl.
      assert (Hp : 0 < 2 ^ Z.pos p) by (apply Z.pow_pos_nonneg; lia).
      rewrite Z.rem_mul_r by lia.
      rewrite Zmod_odd.
      pose proof (Z.mod_pos_bound (m / 2) (2 ^ Z.pos p) Hp).
      destruct (Z.odd m), r, s; simpl; split; intros [? ?]; split; try done; try lia.
Qed.

Lemma fexp64_eq e : fexp64 e = Z.max (e - 53) (-1074).
Proof. reflexivity. Qed.

Lemma shr_fexp_spec m e mrs e' :
  0 <= m ->
  shr_fexp prec emax m e loc_Exact = (mrs, e') ->
  let n := Z.max 0 (fexp64 (Zdigits2 m + e) - e) in
  shr_m mrs = m / 2 ^ n /\ e' = e + n /\
  (inexact mrs = false <-> m mod 2 ^ n = 0).
Proof.
  intros Hm. unfold shr_fexp, shr. cbn [shr_record_of_loc].
  destruct (fexp64 (Zdigits2 m + e) - e) as [|p|p] eqn:En; intros [= <- <-]; cbn zeta.
  - rewrite Z.max_l by lia. cbn [shr_m]. rewrite Z.pow_0_r, Z.div_1_r, Z.mod_1_r.
    split; [done|]. split; [lia|]. done.
  - rewrite Z.max_r by lia.
    destruct (iter_shr_1_spec p (Build_shr_record m false false) Hm) as [H1 H2].
    cbn [shr_m] in *. split; [done|]. split; [done|]. rewrite H2. unfold inexact; simpl. tauto.
  - rewrite Z.max_l by lia. cbn [shr_m]. rewrite Z.pow_0_r, Z.div_1_r, Z.mod_1_r.
    split; [done|]. split; [lia|]. done.
Qed.

Lemma round_nearest_even_bounds mrs :
  let q := round_nearest_even (shr_m mrs) (loc_of_shr_record mrs) in
  shr_m mrs <= q <= shr_m mrs + 1 /\ (inexact mrs = false -> q = shr_m mrs).
Proof.
  destruct mrs as [m [] []]; unfold inexact; simpl; try destruct (Z.even m); split; (lia || done).
Qed.

(* rounding of a positive mantissa *)
Lemma binary_round_aux_spec (M : positive) (e : Z) :
  let n1 := Z.max 0 (fexp64 (Zdigits2 (Z.pos M) + e) - e) in
  exists q n2,
    Z.pos M / 2 ^ n1 <= q <= Z.pos M / 2 ^ n1 + 1 /\
    (Z.pos M mod 2 ^ n1 = 0 -> q = Z.pos M / 2 ^ n1) /\
    n2 = Z.max 0 (fexp64 (Zdigits2 q + (e + n1)) - (e + n1)) /\
    binary_round_aux prec emax false (Z.pos M) e loc_Exact =
      match q / 2 ^ n2 with
      | Z0 => S754_zero false
      | Z.pos m => if e + n1 + n2 <=? emax - prec then S754_finite false m (e + n1 + n2)
                   else S754_infinity false
      | Z.neg _ => S754_nan
      end.
Proof.
  intros n1. unfold binary_round_aux.
  destruct (shr_fexp prec emax (Z.pos M) e loc_Exact) as [mrs e1] eqn:E1.
  apply shr_fexp_spec in E1 as (H1 & -> & H3); [|lia]. fold n1 in H1, H3 |- *.
  pose proof (round_nearest_even_bounds mrs) as [Hq Hqe]. cbn zeta in *.
  set (q := round_nearest_even _ _) in *.
  assert (0 <= Z.pos M / 2 ^ n1) by (apply Z.div_pos; [lia | apply Z.pow_pos_nonneg; lia]).
  destruct (shr_fexp prec emax q (e + n1) loc_Exact) as [mrs2 e2] eqn:E2.
  apply shr_fexp_spec in E2 as (H4 & -> & _); [|lia].
  exists q, (Z.max 0 (fexp64 (Zdigits2 q + (e + n1)) - (e + n1))).
  split; [lia|]. split; [intros Hz; rewrite <- H1; apply Hqe, H3, Hz|]. split; [done|].
  rewrite H4. done.
Qed.

Lemma pow2_pos n : 0 < 2 ^ n \/ n < 0.
Proof. destruct (Z_lt_le_dec n 0); [right; lia | left; apply Z.pow_pos_nonneg; lia]. Qed.

Lemma Zdigits2_nonneg z : 0 <= Zdigits2 z.
Proof. destruct z; simpl; lia. Qed.

Lemma Zdigits2_le a b : 0 <= a <= b -> Zdigits2 a <= Zdigits2 b.
Proof.
  intros H. destruct (Z.eq_dec a 0) as [->|Ha].
  - apply Zdigits2_nonneg.
  - rewrite !Zdigits2_log2 by lia. pose proof (Z.log2_le_mono a b). lia.
Qed.

Lemma Zdigits2_mul_pow2 a k : 0 < a -> 0 <= k -> Zdigits2 (a * 2 ^ k) = Zdigits2 a + k.
Proof.
  intros Ha Hk. assert (0 < 2 ^ k) by (apply Z.pow_pos_nonneg; lia).
  rewrite !Zdigits2_log2 by nia. rewrite Z.log2_mul_pow2 by lia. lia.
Qed.

Lemma Zdigits2_lt_pow2 a k : 0 <= a -> 0 <= k -> a < 2 ^ k -> Zdigits2 a <= k.
Proof.
  intros Ha Hk H. destruct (Z.eq_dec a 0) as [->|Hne]; [simpl; lia|].
  rewrite Zdigits2_log2 by lia. apply Z.log2_lt_pow2 in H; lia.
Qed.

Lemma Zdigits2_bound a : 0 < a -> 2 ^ (Zdigits2 a - 1) <= a < 2 ^ Zdigits2 a.
Proof.
  intros Ha. rewrite Zdigits2_log2 by lia. pose proof (Z.log2_spec a Ha).
  replace (Z.log2 a + 1 - 1) with (Z.log2 a) by lia. unfold Z.succ in *. lia.
Qed.

(* A mantissa that needs no rounding is kept as it is. *)
Lemma binary_round_aux_exact (M : positive) (e : Z) :
  let n := Z.max 0 (fexp64 (Zdigits2 (Z.pos M) + e) - e) in
  Z.pos M mod 2 ^ n = 0 -> e + n <= emax - prec ->
  exists q : positive, Z.pos q = Z.pos M / 2 ^ n /\
    binary_round_aux prec emax false (Z.pos M) e loc_Exact = S754_finite false q (e + n).
Proof.
  intros n Hmod He.
  destruct (binary_round_aux_spec M e) as (q & n2 & Hq & Hex & Hn2 & ->). fold n in Hq, Hex, Hn2 |- *.
  specialize (Hex Hmod).
  assert (Hn : 0 <= n) by lia.
  assert (Hp : 0 < 2 ^ n) by (apply Z.pow_pos_nonneg; lia).
  assert (HM : Z.pos M = q * 2 ^ n).
  { rewrite Hex. pose proof (Z.div_mod (Z.pos M) (2 ^ n)). lia. }
  assert (Hq0 : 0 < q) by nia.
  assert (Hn20 : n2 = 0).
  { rewrite Hn2. apply Z.max_l.
    assert (Zdigits2 q + n = Zdigits2 (Z.pos M)) by (rewrite HM, Zdigits2_mul_pow2; lia).
    replace (Zdigits2 q + (e + n)) with (Zdigits2 (Z.pos M) + e) by lia. lia. }
  clear Hn2. subst n2. rewrite Z.pow_0_r, Z.div_1_r, Z.add_0_r.
  destruct q as [|q|q]; try lia.
  exists q. split; [lia|].
  destruct (Z.leb_spec (e + n) (emax - prec)); [done|lia].
Qed.

Lemma pos_iter_xO (m : positive) (k : positive) :
  Z.pos (Pos.iter xO m k) = Z.pos m * 2 ^ Z.pos k.
Proof.
  induction k using Pos.peano_ind.
  - simpl. lia.
  - rewrite Pos.iter_succ, Pos2Z.inj_xO, IHk, Pos2Z.inj_succ, Z.pow_succ_r; lia.
Qed.

(* float(L) for an integer below 2^53 is exact: the mantissa is L shifted to
   53 digits. *)
Lemma binary_normalize_small (L : Z) :
  0 < L < 2 ^ 53 ->
  exists (m : positive) (e : Z),
    binary_normalize prec emax L 0 false = S754_finite false m e /\
    -52 <= e <= 0 /\ Zdigits2 (Z.pos m) = 53 /\ Z.pos m = L * 2 ^ (- e).
Proof.
  intros HL. destruct L as [|p|p]; try lia.
  unfold binary_normalize, binary_round.
  assert (Hd : 1 <= Zdigits2 (Z.pos p) <= 53).
  { split; [simpl; lia|]. apply Zdigits2_lt_pow2; lia. }
  change (Z.pos (digits2_pos p)) with (Zdigits2 (Z.pos p)).
  rewrite Z.add_0_r, fexp64_eq, Z.max_l by lia.
  unfold shl_align.
  destruct (Zdigits2 (Z.pos p) - 53 - 0) as [|k|k] eqn:Ek; try lia.
  - destruct (binary_round_aux_exact p 0) as (q & Hq & ->).
    + rewrite fexp64_eq. rewrite Z.max_l by lia. apply Z.mod_1_r.
    + unfold emax, prec; rewrite fexp64_eq; lia.
    + rewrite fexp64_eq, (Z.max_l 0) in * by lia. rewrite Z.pow_0_r, Z.div_1_r in Hq.
      exists q, 0. rewrite Hq. split; [done|]. split; [lia|]. split; [lia|]. simpl; lia.
  - assert (Hm : Z.pos (Pos.iter xO p k) = Z.pos p * 2 ^ Z.pos k) by apply pos_iter_xO.
    assert (Hdm : Zdigits2 (Z.pos (Pos.iter xO p k)) = 53).
    { rewrite Hm, Zdigits2_mul_pow2; lia. }
    destruct (binary_round_aux_exact (Pos.iter xO p k) (Zdigits2 (Z.pos p) - 53)) as (q & Hq & ->).
    + rewrite Hdm, fexp64_eq. rewrite Z.max_l by lia. apply Z.mod_1_r.
    + rewrite Hdm, fexp64_eq. unfold emax, prec. lia.
    + rewrite Hdm, fexp64_eq, (Z.max_l 0) in * by lia. rewrite Z.pow_0_r, Z.div_1_r in Hq.
      exists q, (Zdigits2 (Z.pos p) - 53). rewrite Z.add_0_r, Hq. split; [done|].
      split; [lia|]. split; [done|]. rewrite Hm. f_equal. f_equal. lia.
Qed.


Lemma bounded_digits m e : bounded prec emax m e = true -> Zdigits2 (Z.pos m) <= 53.
Proof.
  unfold bounded, canonical_mantissa. intros Hb.
  apply andb_true_iff in Hb as [Hc _]. apply Z.eqb_eq in Hc.
  rewrite fexp64_eq in Hc.
  change (Z.pos (digits2_pos m)) with (Zdigits2 (Z.pos m)) in Hc. lia.
Qed.

Lemma compare_cont_not_Gt (m c : positive) :
  match Pos.compare_cont Eq m c with Gt => false | _ => true end = true ->
  Z.pos m <= Z.pos c.
Proof.
  change (Pos.compare_cont Eq m c) with (m ?= c)%positive.
  destruct (Pos.compare_spec m c); intros Hb; try discriminate; lia.
Qed.

Lemma SFleb_one_cases m e :
  SFleb (S754_finite false m e) float_one = true ->
  e < -52 \/ (e = -52 /\ Z.pos m <= 4503599627370496).
Proof.
  unfold SFleb, SFcompare, float_one.
  destruct (Z.compare_spec e (-52)) as [->|He|He]; intros H1.
  - right. split; [reflexivity|]. apply compare_cont_not_Gt, H1.
  - left. exact He.
  - inversion H1.
Qed.

Lemma pow2_52 : 2 ^ 52 = 4503599627370496.
Proof. reflexivity. Qed.

Lemma unit_rate_cases rate :
  unit_rate rate = true ->
  (exists s, rate = S754_zero s) \/
  (exists m e, rate = S754_finite false m e /\ e <= -52 /\ Z.pos m <= 2 ^ (- e)).
Proof.
  unfold unit_rate. rewrite !andb_true_iff. intros [[Hv H0] H1].
  destruct rate as [s|s| |s m e].
  - left; eauto.
  - destruct s; discriminate.
  - discriminate.
  - right. destruct s; [discriminate|]. exists m, e. split; [done|].
    apply bounded_digits in Hv.
    pose proof (Zdigits2_bound (Z.pos m) ltac:(lia)) as [_ Hm].
    destruct (SFleb_one_cases m e H1) as [He|[-> Hle]].
    + split; [lia|].
      assert (2 ^ Zdigits2 (Z.pos m) <= 2 ^ 53) by (apply Z.pow_le_mono_r; lia).
      assert (2 ^ 53 <= 2 ^ (- e)) by (apply Z.pow_le_mono_r; lia).
      lia.
    + split; [lia|]. change (- -52) with 52. rewrite pow2_52. exact Hle.
Qed.

(** The product of a non-negative double [x] of integer magnitude with a
    rate in [[0, 1]] is finite and non-negative, and its truncation does not
    exceed the truncation of [x]. *)
Lemma mul_unit_bound (mx : positive) (ex : Z) (my : positive) (ey : Z) :
  -1074 <= ex <= 0 -> Zdigits2 (Z.pos mx) <= 53 ->
  ey <= -52 -> Z.pos my <= 2 ^ (- ey) ->
  exists k,
    int_of_float (SFmul prec emax (S754_finite false mx ex) (S754_finite false my ey))
    = Ok k /\ 0 <= k <= Z.pos mx / 2 ^ (- ex).
Proof.
  intros Hex Hdx Hey Hmy. cbn [SFmul xorb].
  destruct (binary_round_aux_spec (mx * my) (ex + ey)) as (q & n2 & Hq & Hexact & Hn2 & ->).
  rewrite Pos2Z.inj_mul in *.
  set (M := Z.pos mx * Z.pos my) in *.
  set (n1 := Z.max 0 (fexp64 (Zdigits2 M + (ex + ey)) - (ex + ey))) in *.
  set (T := Z.pos mx * 2 ^ (- ey)).
  assert (Hpy : 0 < 2 ^ (- ey)) by (apply Z.pow_pos_nonneg; lia).
  assert (HMT : 0 < M <= T) by (subst M T; nia).
  assert (HdT : Zdigits2 T = Zdigits2 (Z.pos mx) + - ey)
    by (apply Zdigits2_mul_pow2; lia).
  assert (HdM : Zdigits2 M <= Zdigits2 T) by (apply Zdigits2_le; lia).
  assert (Hn1 : 0 <= n1 <= - ey) by (subst n1; rewrite fexp64_eq; lia).
  assert (Hp1 : 0 < 2 ^ n1) by (apply Z.pow_pos_nonneg; lia).
  set (t := Z.pos mx * 2 ^ (- ey - n1)).
  assert (Hpt : 0 < 2 ^ (- ey - n1)) by (apply Z.pow_pos_nonneg; lia).
  assert (HTt : T = t * 2 ^ n1).
  { subst T t. rewrite <- Z.mul_assoc, <- Z.pow_add_r by lia. do 2 f_equal. lia. }
  assert (Hq0 : 0 <= M / 2 ^ n1) by (apply Z.div_pos; lia).
  assert (Hqt : q <= t).
  { destruct (Z.eq_dec (M mod 2 ^ n1) 0) as [Hz|Hnz].
    - rewrite (Hexact Hz). apply Z.div_le_upper_bound; lia.
    - assert (M / 2 ^ n1 < t); [|lia].
      apply Z.div_lt_upper_bound; [lia|].
      assert (M <> t * 2 ^ n1); [|lia].
      intros HMeq. apply Hnz. rewrite HMeq. apply Z.mod_mul. lia. }
  assert (Hdt : Zdigits2 t = Zdigits2 (Z.pos mx) + (- ey - n1))
    by (apply Zdigits2_mul_pow2; lia).
  assert (Hdq : Zdigits2 q <= Zdigits2 t) by (apply Zdigits2_le; lia).
  assert (Hn2b : 0 <= n2 <= - ey - n1) by (rewrite Hn2, fexp64_eq; lia).
  assert (Hp2 : 0 < 2 ^ n2) by (apply Z.pow_pos_nonneg; lia).
  assert (Hm2 : 0 <= q / 2 ^ n2) by (apply Z.div_pos; lia).
  assert (Hb : 0 <= Z.pos mx / 2 ^ (- ex))
    by (apply Z.div_pos; [lia|apply Z.pow_pos_nonneg; lia]).
  destruct (q / 2 ^ n2) as [|m|m] eqn:Em; [| |lia].
  - exists 0. split; [done|lia].
  - destruct (Z.leb_spec (ex + ey + n1 + n2) (emax - prec)) as [_|Hbad];
      [|unfold emax, prec in Hbad; lia].
    eexists. split; [reflexivity|]. cbn [cond_Zopp].
    rewrite Z.shiftl_div_pow2 by lia.
    assert (Hpe : 0 < 2 ^ (- (ex + ey + n1 + n2))) by (apply Z.pow_pos_nonneg; lia).
    split; [apply Z.div_pos; lia|].
    set (a := - ey - n1 - n2).
    assert (Hpa : 0 < 2 ^ a) by (apply Z.pow_pos_nonneg; lia).
    assert (Hpb : 0 < 2 ^ (- ex)) by (apply Z.pow_pos_nonneg; lia).
    assert (Hma : Z.pos m <= Z.pos mx * 2 ^ a).
    { rewrite <- Em. apply Z.div_le_upper_bound; [lia|].
      assert (Ht2 : t = Z.pos mx * 2 ^ a * 2 ^ n2).
      { subst t a. rewrite <- Z.mul_assoc, <- Z.pow_add_r by lia. do 2 f_equal. lia. }
      lia. }
    replace (- (ex + ey + n1 + n2)) with (- ex + a) by lia.
    rewrite Z.pow_add_r by lia.
    etransitivity; [apply Z.div_le_mono; [lia|exact Hma]|].
    rewrite Z.div_mul_cancel_r by lia. lia.
Qed.

Lemma float_of_int_zero : float_of_int 0 = Ok (S754_zero false).
Proof. reflexivity. Qed.

Lemma float_of_int_small (len : Z) :
  0 < len < 2 ^ 53 ->
  exists (m : positive) (e : Z),
    float_of_int len = Ok (S754_finite false m e) /\
    -52 <= e <= 0 /\ Zdigits2 (Z.pos m) = 53 /\ Z.pos m / 2 ^ (- e) = len.
Proof.
  intros Hlen. destruct (binary_normalize_small len Hlen) as (m & e & Hn & He & Hd & Hm).
  exists m, e. unfold float_of_int. rewrite Hn. split; [done|]. split; [done|].
  split; [done|]. rewrite Hm. apply Z.div_mul.
  assert (0 < 2 ^ (- e)) by (apply Z.pow_pos_nonneg; lia). lia.
Qed.

Lemma scaled_count_unit (len : Z) (rate : spec_float) :
  0 <= len < 2 ^ 53 -> unit_rate rate = true ->
  exists k, scaled_count len rate = Ok k /\ 0 <= k <= len.
Proof.
  intros Hlen Hrate. unfold scaled_count.
  destruct (Z.eq_dec len 0) as [->|Hpos].
  - rewrite float_of_int_zero. exists 0. split; [|lia].
    destruct (unit_rate_cases rate Hrate) as [[s ->]|(m & e & -> & _)]; reflexivity.
  - destruct (float_of_int_small len ltac:(lia)) as (mx & ex & -> & Hex & Hdx & Hval).
    destruct (unit_rate_cases rate Hrate) as [[s ->]|(my & ey & -> & Hey & Hmy)].
    + exists 0. split; [reflexivity|lia].
    + destruct (mul_unit_bound mx ex my ey) as (k & Hk & Hb); try done; try lia.
      exists k. split; [done|lia].
Qed.

Lemma scaled_count_zero (len : Z) :
  0 <= len < 2 ^ 53 -> scaled_count len float_zero = Ok 0.
Proof.
  intros Hlen. unfold scaled_count.
  destruct (Z.eq_dec len 0) as [->|Hpos]; [reflexivity|].
  destruct (float_of_int_small len ltac:(lia)) as (mx & ex & -> & _). reflexivity.
Qed.

Lemma scaled_count_one (len : Z) :
  0 <= len < 2 ^ 53 -> scaled_count len float_one = Ok len.
Proof.
  intros Hlen. unfold scaled_count.
  destruct (Z.eq_dec len 0) as [->|Hpos]; [reflexivity|].
  destruct (float_of_int_small len ltac:(lia)) as (mx & ex & -> & Hex & Hdx & Hval).
  unfold float_one. cbn [SFmul xorb].
  assert (HM : Z.pos (mx * 4503599627370496) = Z.pos mx * 2 ^ 52)
    by (rewrite Pos2Z.inj_mul, pow2_52; reflexivity).
  assert (HdM : Zdigits2 (Z.pos (mx * 4503599627370496)) = 105)
    by (rewrite HM, Zdigits2_mul_pow2; lia).
  destruct (binary_round_aux_exact (mx * 4503599627370496) (ex + -52))
    as (q & Hq & ->); rewrite HdM, fexp64_eq.
  - rewrite HM. replace (Z.max 0 _) with 52 by lia. apply Z.mod_mul. lia.
  - unfold emax, prec. lia.
  - rewrite HdM, fexp64_eq in Hq. replace (Z.max 0 _) with 52 in Hq |- * by lia.
    rewrite HM, Z.div_mul in Hq by lia.
    cbn [int_of_float cond_Zopp]. f_equal.
    rewrite Z.shiftl_div_pow2 by lia.
    replace (- (ex + -52 + 52)) with (- ex) by lia. by rewrite Hq.
Qed.

(** ** The random source *)

Section RandomLemmas.
Context {G : Type} `{RandomSourceSpec G}.

Lemma py_randint_run (a b : Z) (w : world G) :
  a <= b ->
  exists v g', py_randint a b w = Ok (v, World (heap w) g') /\ a <= v <= b.
Proof.
  intros Hab. unfold py_randint.
  destruct (Z.ltb_spec b a); [lia|].
  pose proof (randint_range a b (rng w) Hab) as Hr.
  destruct (randint a b (rng w)) as [v g']. eauto.
Qed.

Lemma py_shuffle_run (l : list Z) (w : world G) :
  exists l' g', py_shuffle l w = Ok (l', World (heap w) g') /\ l' ≡ₚ l.
Proof.
  unfold py_shuffle. pose proof (shuffle_perm l (rng w)) as Hp.
  destruct (shuffle l (rng w)) as [l' g']. eauto.
Qed.

End RandomLemmas.

(** ** mutation *)

Lemma population_ok_valid {G} n (w : world G) population :
  population_ok n w population -> valid_refs w population.
Proof.
  intros Hok. eapply Forall_impl; [exact Hok|]. intros r (b & -> & _). eauto.
Qed.

Lemma setitem_in_range {A} (l : list A) (i : Z) (v : A) :
  0 <= i < Z.of_nat (length l) -> setitem l i v = Ok (<[Z.to_nat i := v]> l).
Proof.
  intros Hi. unfold setitem.
  replace i with (Z.of_nat (Z.to_nat i)) at 1 by lia.
  rewrite norm_index_of_nat by lia. done.
Qed.

Lemma board_ok_insert n b (col val : Z) :
  board_ok n b -> 0 <= val < n -> board_ok n (<[Z.to_nat col := val]> b).
Proof.
  intros [Hlen Hall] Hval. split; [by rewrite length_insert|].
  by apply Forall_insert.
Qed.

Lemma store_run {G} (r : ref) (b b' : board) (w : world G) :
  heap w !! r = Some b ->
  store r b' w = Ok (tt, World (<[r := b']> (heap w)) (rng w)).
Proof. intros Hr. unfold store. by rewrite Hr. Qed.

Lemma population_ok_store {G} n (w : world G) population p b' (g' : G) :
  population_ok n w population -> board_ok n b' ->
  population_ok n (World (<[p := b']> (heap w)) g') population.
Proof.
  intros Hok Hb'. eapply Forall_impl; [exact Hok|].
  intros r (b & Hr & Hb). cbn [heap].
  destruct (decide (r = p)) as [->|Hne].
  - exists b'. split; [|done]. apply list_lookup_insert_eq. by eapply lookup_lt_Some.
  - exists b. split; [|done]. by rewrite list_lookup_insert_ne.
Qed.

Section MutationLemmas.
Context {G : Type} `{RandomSourceSpec G}.

Lemma mutation_loop_run (population_list : list ref) (n : Z) :
  1 <= n -> NoDup population_list ->
  forall (chosen : list Z) (w : world G),
    population_ok n w population_list ->
    NoDup chosen ->
    Forall (fun i => 0 <= i < Z.of_nat (length population_list)) chosen ->
    exists w',
      mutation_loop chosen population_list n w = Ok (tt, w') /\
      length (heap w') = length (heap w) /\
      population_ok n w' population_list /\
      (forall r,
         (forall k : nat, Z.of_nat k ∈ chosen -> population_list !! k <> Some r) ->
         heap w' !! r = heap w !! r) /\
      (forall (k : nat) p b,
         Z.of_nat k ∈ chosen -> population_list !! k = Some p ->
         heap w !! p = Some b ->
         exists col val, 0 <= col < n /\ 0 <= val < n /\
           heap w' !! p = Some (<[Z.to_nat col := val]> b)).
Proof.
  intros Hn Hnodup. induction chosen as [|i rest IH]; intros w Hok Hnd Hidx.
  - exists w. split; [done|]. split; [done|]. split; [done|]. split; [done|].
    intros k p b Hk. by apply elem_of_nil in Hk.
  - apply NoDup_cons in Hnd as [Hi Hnd]. apply Forall_cons in Hidx as [Hir Hidx].
    set (k := Z.to_nat i). assert (Hik : i = Z.of_nat k) by lia.
    destruct (lookup_lt_is_Some_2 population_list k ltac:(lia)) as [p Hp].
    pose proof Hok as Hok'. unfold population_ok in Hok'. rewrite Forall_forall in Hok'.
    destruct (Hok' p) as (b & Hb & Hbok); [by eapply list_elem_of_lookup_2|].
    destruct (py_randint_run 0 (n - 1) w ltac:(lia)) as (col & g1 & Hcol & Hcr).
    destruct (py_randint_run 0 (n - 1) (World (heap w) g1) ltac:(lia))
      as (val & g2 & Hval & Hvr). cbn [heap] in Hval.
    set (b' := <[Z.to_nat col := val]> b).
    set (w1 := World (<[p := b']> (heap w)) g2).
    assert (Hbok' : board_ok n b') by (apply board_ok_insert; [done|lia]).
    destruct (IH w1) as (w' & Hrun & Hlen & Hok2 & Hsame & Hmut); [|done|done|].
    { by apply population_ok_store. }
    assert (Hstep : mutation_loop (i :: rest) population_list n w
                    = mutation_loop rest population_list n w1).
    { cbn [mutation_loop].
      erewrite bind_run; [|exact Hcol].
      erewrite bind_run; [|exact Hval].
      erewrite bind_run; [|apply lift_Ok; split; [rewrite Hik; by apply item_lookup|done]].
      erewrite bind_run; [|by apply load_run].
      erewrite bind_run;
        [|apply lift_Ok; split; [apply setitem_in_range; destruct Hbok; lia|done]].
      erewrite bind_run; [|eapply store_run; exact Hb]. done. }
    assert (Hp_rest : forall k' : nat, Z.of_nat k' ∈ rest -> population_list !! k' <> Some p).
    { intros k' Hk' Hpk'. assert (k' = k) by (exact (NoDup_lookup population_list k' k p Hnodup Hpk' Hp)). subst k'.
      apply Hi. by rewrite Hik. }
    exists w'. split; [by rewrite Hstep|]. split.
    { rewrite Hlen. subst w1. cbn [heap]. by rewrite length_insert. }
    split; [done|]. split.
    + intros r Hr. rewrite Hsame.
      * subst w1. cbn [heap]. apply list_lookup_insert_ne.
        intros ->. apply (Hr k); [rewrite <- Hik; left|done].
      * intros k' Hk'. apply Hr. by right.
    + intros k' p' b0 Hk' Hp' Hb0. apply elem_of_cons in Hk' as [Hk'|Hk'].
      * assert (k' = k) as -> by lia. assert (p' = p) as -> by congruence.
        assert (b0 = b) as -> by congruence.
        exists col, val. split; [lia|]. split; [lia|].
        rewrite Hsame by done. subst w1. cbn [heap].
        apply list_lookup_insert_eq. by eapply lookup_lt_Some.
      * apply (Hmut k' p' b0 Hk' Hp'). subst w1. cbn [heap].
        rewrite list_lookup_insert_ne; [done|].
        intros ->. by apply (Hp_rest k').
Qed.

End MutationLemmas.

Lemma length_mutation_pool (len : nat) :
  Z.of_nat (length (mutation_pool len)) = Z.of_nat len - Z.of_nat len / 2.
Proof.
  unfold mutation_pool. rewrite length_range.
  pose proof (Z.div_pos (Z.of_nat len) 2). 
  assert (Z.of_nat len / 2 <= Z.of_nat len) by (apply Z.div_le_upper_bound; lia).
  lia.
Qed.

Lemma elem_of_mutation_pool (len : nat) i :
  i ∈ mutation_pool len <-> Z.of_nat len / 2 <= i < Z.of_nat len.
Proof. apply elem_of_range. Qed.

Section ChosenLemmas.
Context {G : Type} `{RandomSourceSpec G}.

Lemma chosen_ones_run (len : nat) (rate : spec_float) (w : world G) :
  Z.of_nat len < 2 ^ 53 -> unit_rate rate = true ->
  exists shuffled g' k,
    shuffled ≡ₚ mutation_pool len /\
    scaled_count (Z.of_nat (length (mutation_pool len))) rate = Ok k /\
    0 <= k <= Z.of_nat (length (mutation_pool len)) /\
    chosen_ones len rate w = Ok (take (Z.to_nat k) shuffled, World (heap w) g').
Proof.
  intros Hlen Hrate.
  destruct (py_shuffle_run (mutation_pool len) w) as (shuffled & g' & Hsh & Hperm).
  pose proof (length_mutation_pool len) as Hpl.
  assert (Hdiv : 0 <= Z.of_nat len / 2) by (apply Z.div_pos; lia).
  destruct (scaled_count_unit (Z.of_nat (length (mutation_pool len))) rate)
    as (k & Hk & Hkb); [lia|done|].
  exists shuffled, g', k. split; [done|]. split; [done|]. split; [done|].
  unfold chosen_ones. erewrite bind_run; [|exact Hsh].
  erewrite bind_run;
    [|apply lift_Ok; split; [rewrite (Permutation_length Hperm); exact Hk|done]].
  unfold mret, M_ret. by rewrite slice_to_nonneg by lia.
Qed.

(** The effect of [mutation] on a population without aliasing whose boards
    satisfy the invariant. *)
Lemma mutation_run (population_list : list ref) (rate : spec_float) (n : Z)
    (w : world G) :
  1 <= n -> unit_rate rate = true ->
  NoDup population_list -> population_ok n w population_list ->
  Z.of_nat (length population_list) < 2 ^ 53 ->
  let pool := mutation_pool (length population_list) in
  exists chosen k w',
    mutation population_list rate n w = Ok (population_list, w') /\
    scaled_count (Z.of_nat (length pool)) rate = Ok k /\
    0 <= k <= Z.of_nat (length pool) /\
    Z.of_nat (length chosen) = k /\
    NoDup chosen /\ chosen ⊆ pool /\
    (k = Z.of_nat (length pool) -> chosen ≡ₚ pool) /\
    length (heap w') = length (heap w) /\
    population_ok n w' population_list /\
    (forall r, r ∉ population_list -> heap w' !! r = heap w !! r) /\
    (forall (i : nat) p b,
       population_list !! i = Some p -> heap w !! p = Some b ->
       (Z.of_nat i ∈ chosen ->
          exists col val, 0 <= col < n /\ 0 <= val < n /\
            heap w' !! p = Some (<[Z.to_nat col := val]> b)) /\
       (Z.of_nat i ∉ chosen -> heap w' !! p = Some b)).
Proof.
  intros Hn Hrate Hnodup Hok Hlen pool.
  destruct (chosen_ones_run (length population_list) rate w Hlen Hrate)
    as (shuffled & g' & k & Hperm & Hk & Hkb & Hch). fold pool in Hperm, Hk, Hkb.
  set (chosen := take (Z.to_nat k) shuffled) in *.
  assert (Hnd : NoDup chosen).
  { eapply sublist_NoDup; [|apply sublist_take]. rewrite Hperm. apply NoDup_range. }
  assert (Hsub : chosen ⊆ pool).
  { intros i Hi. rewrite <- Hperm. eapply elem_of_sublist; [exact Hi|apply sublist_take]. }
  assert (Hclen : Z.of_nat (length chosen) = k).
  { unfold chosen. rewrite length_take, (Permutation_length Hperm). lia. }
  destruct (mutation_loop_run population_list n Hn Hnodup chosen (World (heap w) g'))
    as (w' & Hrun & Hhl & Hok' & Hsame & Hmut); [done|done| |].
  { apply Forall_forall. intros i Hi. apply Hsub, elem_of_mutation_pool in Hi.
    assert (0 <= Z.of_nat (length population_list) / 2) by (apply Z.div_pos; lia). lia. }
  exists chosen, k, w'. split.
  { unfold mutation. erewrite bind_run; [|exact Hch].
    erewrite bind_run; [|exact Hrun]. done. }
  split; [done|]. split; [done|]. split; [done|]. split; [done|]. split; [done|].
  split.
  { intros Hfull. unfold chosen. rewrite take_ge; [done|].
    rewrite (Permutation_length Hperm). lia. }
  split; [done|]. split; [done|]. split.
  - intros r Hr. apply Hsame. intros i _ Hi. apply Hr. by eapply list_elem_of_lookup_2.
  - intros i p b Hp Hb. split.
    + intros Hi. by apply (Hmut i p b).
    + intros Hi. rewrite Hsame; [done|].
      intros i' Hi' Hp'.
      assert (i' = i) as -> by (exact (NoDup_lookup population_list i' i p Hnodup Hp' Hp)).
      done.
Qed.

End ChosenLemmas.

(** *** The draws behind a mutation *)

Section MutationTrace.
Context {G : Type} `{RandomSourceSpec G}.

Lemma py_randint_eq (a b : Z) (w : world G) :
  a <= b ->
  py_randint a b w
  = Ok ((randint a b (rng w)).1, World (heap w) (randint a b (rng w)).2).
Proof.
  intros Hab. unfold py_randint. destruct (Z.ltb_spec b a); [lia|].
  by destruct (randint a b (rng w)).
Qed.

Lemma py_shuffle_eq (l : list Z) (w : world G) :
  py_shuffle l w = Ok ((shuffle l (rng w)).1, World (heap w) (shuffle l (rng w)).2).
Proof. unfold py_shuffle. by destruct (shuffle l (rng w)). Qed.

Lemma cell_draws_S (count : nat) (n : Z) (g : G) :
  let g1 := (randint 0 (n - 1) g).2 in
  let g2 := (randint 0 (n - 1) g1).2 in
  cell_draws (S count) n g
  = (((randint 0 (n - 1) g).1, (randint 0 (n - 1) g1).1) :: (cell_draws count n g2).1,
     (cell_draws count n g2).2).
Proof.
  cbn [cell_draws]. destruct (randint 0 (n - 1) g) as [col g1]. cbn [fst snd].
  destruct (randint 0 (n - 1) g1) as [val g2]. cbn [fst snd].
  by destruct (cell_draws count n g2).
Qed.

Lemma length_cell_draws (count : nat) (n : Z) (g : G) :
  length (cell_draws count n g).1 = count.
Proof.
  revert g. induction count as [|count IH]; intros g; [done|].
  rewrite cell_draws_S. cbn [fst length]. by rewrite IH.
Qed.

Lemma chosen_ones_shuffle (len : nat) (rate : spec_float) (w : world G) :
  Z.of_nat len < 2 ^ 53 -> unit_rate rate = true ->
  exists k,
    scaled_count (Z.of_nat (length (mutation_pool len))) rate = Ok k /\
    0 <= k <= Z.of_nat (length (mutation_pool len)) /\
    chosen_ones len rate w
    = Ok (take (Z.to_nat k) (shuffle (mutation_pool len) (rng w)).1,
          World (heap w) (shuffle (mutation_pool len) (rng w)).2).
Proof.
  intros Hlen Hrate.
  pose proof (shuffle_perm (mutation_pool len) (rng w)) as Hperm.
  pose proof (length_mutation_pool len) as Hpl.
  assert (Hdiv : 0 <= Z.of_nat len / 2) by (apply Z.div_pos; lia).
  destruct (scaled_count_unit (Z.of_nat (length (mutation_pool len))) rate)
    as (k & Hk & Hkb); [lia|done|].
  exists k. split; [done|]. split; [done|].
  unfold chosen_ones.
  erewrite bind_run; [|apply py_shuffle_eq]. cbn [heap rng].
  erewrite bind_run;
    [|apply lift_Ok; split; [rewrite (Permutation_length Hperm); exact Hk|done]].
  unfold mret, M_ret. by rewrite slice_to_nonneg by lia.
Qed.

Lemma mutation_loop_draws (population_list : list ref) (n : Z) :
  1 <= n -> NoDup population_list ->
  forall (chosen : list Z) (w : world G),
    population_ok n w population_list ->
    NoDup chosen ->
    Forall (fun i => 0 <= i < Z.of_nat (length population_list)) chosen ->
    exists w',
      mutation_loop chosen population_list n w = Ok (tt, w') /\
      rng w' = (cell_draws (length chosen) n (rng w)).2 /\
      (forall (j k : nat) p b,
         chosen !! j = Some (Z.of_nat k) -> population_list !! k = Some p ->
         heap w !! p = Some b ->
         exists col val,
           (cell_draws (length chosen) n (rng w)).1 !! j = Some (col, val) /\
           0 <= col < n /\ 0 <= val < n /\
           heap w' !! p = Some (<[Z.to_nat col := val]> b)).
Proof.
  intros Hn Hnodup. induction chosen as [|i rest IH]; intros w Hok Hnd Hidx.
  - exists w. split; [done|]. split; [done|]. intros j k p b Hj. done.
  - apply NoDup_cons in Hnd as [Hi Hnd]. apply Forall_cons in Hidx as [Hir Hidx].
    set (k := Z.to_nat i). assert (Hik : i = Z.of_nat k) by lia.
    destruct (lookup_lt_is_Some_2 population_list k ltac:(lia)) as [p Hp].
    pose proof Hok as Hok'. unfold population_ok in Hok'. rewrite Forall_forall in Hok'.
    destruct (Hok' p) as (b & Hb & Hbok); [by eapply list_elem_of_lookup_2|].
    set (col := (randint 0 (n - 1) (rng w)).1).
    set (g1 := (randint 0 (n - 1) (rng w)).2).
    set (val := (randint 0 (n - 1) g1).1).
    set (g2 := (randint 0 (n - 1) g1).2).
    assert (Hcr : 0 <= col <= n - 1) by (apply randint_range; lia).
    assert (Hvr : 0 <= val <= n - 1) by (apply randint_range; lia).
    set (b' := <[Z.to_nat col := val]> b).
    set (w1 := World (<[p := b']> (heap w)) g2).
    assert (Hbok' : board_ok n b') by (apply board_ok_insert; [done|lia]).
    assert (Hok1 : population_ok n w1 population_list) by (by apply population_ok_store).
    destruct (IH w1 Hok1 Hnd Hidx) as (w' & Hrun & Hrng & Hmut).
    destruct (mutation_loop_run population_list n Hn Hnodup rest w1 Hok1 Hnd Hidx)
      as (w'' & Hrun' & _ & _ & Hsame & _).
    rewrite Hrun in Hrun'. injection Hrun' as <-.
    assert (Hstep : mutation_loop (i :: rest) population_list n w
                    = mutation_loop rest population_list n w1).
    { cbn [mutation_loop].
      erewrite bind_run; [|apply py_randint_eq; lia].
      erewrite bind_run; [|apply py_randint_eq; lia]. cbn [heap rng].
      erewrite bind_run; [|apply lift_Ok; split; [rewrite Hik; by apply item_lookup|done]].
      erewrite bind_run; [|by apply load_run].
      erewrite bind_run;
        [|apply lift_Ok; split; [apply setitem_in_range; destruct Hbok; lia|done]].
      erewrite bind_run; [|eapply store_run; exact Hb]. done. }
    assert (Hp_rest : forall k' : nat, Z.of_nat k' ∈ rest -> population_list !! k' <> Some p).
    { intros k' Hk' Hpk'.
      assert (k' = k) by (exact (NoDup_lookup population_list k' k p Hnodup Hpk' Hp)).
      subst k'. apply Hi. by rewrite Hik. }
    cbn [length]. rewrite cell_draws_S. cbv zeta. fold g1 g2 col val. cbn [fst snd].
    exists w'. split; [by rewrite Hstep|]. split; [done|].
    intros j k' p' b0 Hj Hp' Hb0. destruct j as [|j].
    + injection Hj as Hj. assert (k' = k) as -> by lia.
      assert (p' = p) as -> by congruence. assert (b0 = b) as -> by congruence.
      exists col, val. split; [done|]. split; [lia|]. split; [lia|].
      rewrite Hsame by done. subst w1. cbn [heap].
      apply list_lookup_insert_eq. by eapply lookup_lt_Some.
    + cbn [lookup list_lookup] in Hj |- *.
      apply (Hmut j k' p' b0 Hj Hp'). subst w1. cbn [heap].
      rewrite list_lookup_insert_ne; [done|].
      intros ->. apply (Hp_rest k'); [|done]. by eapply list_elem_of_lookup_2.
Qed.

(** The effect of [mutation] in terms of what the random source returns:
    the chosen indices are the first [k] entries of the shuffled pool, and
    the cell written at the [j]-th of them is the [j]-th pair of draws. *)
Lemma mutation_trace (population_list : list ref) (rate : spec_float) (n : Z)
    (w : world G) :
  1 <= n -> unit_rate rate = true ->
  NoDup population_list -> population_ok n w population_list ->
  Z.of_nat (length population_list) < 2 ^ 53 ->
  let pool := mutation_pool (length population_list) in
  exists k chosen draws w',
    scaled_count (Z.of_nat (length pool)) rate = Ok k /\
    0 <= k <= Z.of_nat (length pool) /\
    chosen = take (Z.to_nat k) (shuffle pool (rng w)).1 /\
    (draws, rng w') = cell_draws (length chosen) n (shuffle pool (rng w)).2 /\
    mutation population_list rate n w = Ok (population_list, w') /\
    Z.of_nat (length chosen) = k /\
    NoDup chosen /\ chosen ⊆ pool /\
    (k = Z.of_nat (length pool) -> chosen = (shuffle pool (rng w)).1) /\
    length (heap w') = length (heap w) /\
    (forall r, r ∉ population_list -> heap w' !! r = heap w !! r) /\
    (forall (i : nat) p b,
       population_list !! i = Some p -> heap w !! p = Some b ->
       (forall j : nat, chosen !! j = Some (Z.of_nat i) ->
          exists col val, draws !! j = Some (col, val) /\
            0 <= col < n /\ 0 <= val < n /\
            heap w' !! p = Some (<[Z.to_nat col := val]> b)) /\
       (Z.of_nat i ∉ chosen -> heap w' !! p = Some b)).
Proof.
  intros Hn Hrate Hnodup Hok Hlen pool.
  destruct (chosen_ones_shuffle (length population_list) rate w Hlen Hrate)
    as (k & Hk & Hkb & Hch). fold pool in Hk, Hkb, Hch.
  pose proof (shuffle_perm pool (rng w)) as Hperm.
  set (shuffled := (shuffle pool (rng w)).1) in *.
  set (g0 := (shuffle pool (rng w)).2) in *.
  set (chosen := take (Z.to_nat k) shuffled) in *.
  assert (Hnd : NoDup chosen).
  { eapply sublist_NoDup; [|apply sublist_take]. rewrite Hperm. apply NoDup_range. }
  assert (Hsub : chosen ⊆ pool).
  { intros i Hi. rewrite <- Hperm. eapply elem_of_sublist; [exact Hi|apply sublist_take]. }
  assert (Hclen : Z.of_nat (length chosen) = k).
  { unfold chosen. rewrite length_take, (Permutation_length Hperm). lia. }
  assert (Hidx : Forall (fun i => 0 <= i < Z.of_nat (length population_list)) chosen).
  { apply Forall_forall. intros i Hi. apply Hsub, elem_of_mutation_pool in Hi.
    assert (0 <= Z.of_nat (length population_list) / 2) by (apply Z.div_pos; lia). lia. }
  destruct (mutation_loop_draws population_list n Hn Hnodup chosen (World (heap w) g0))
    as (w' & Hrun & Hrng & Hmut); [done|done|done|].
  destruct (mutation_loop_run population_list n Hn Hnodup chosen (World (heap w) g0))
    as (w'' & Hrun' & Hhl & _ & Hsame & _); [done|done|done|].
  rewrite Hrun in Hrun'. injection Hrun' as <-. cbn [heap rng] in *.
  exists k, chosen, (cell_draws (length chosen) n g0).1, w'.
  split; [done|]. split; [done|]. split; [done|]. split.
  { rewrite Hrng. by destruct (cell_draws (length chosen) n g0). }
  split.
  { unfold mutation. erewrite bind_run; [|exact Hch].
    erewrite bind_run; [|exact Hrun]. done. }
  split; [done|]. split; [done|]. split; [done|]. split.
  { intros Hfull. unfold chosen. rewrite take_ge; [done|].
    rewrite (Permutation_length Hperm). lia. }
  split; [done|]. split.
  - intros r Hr. apply Hsame. intros i _ Hi. apply Hr. by eapply list_elem_of_lookup_2.
  - intros i p b Hp Hb. split.
    + intros j Hj. by apply (Hmut j i p b).
    + intros Hi. rewrite Hsame; [done|].
      intros i' Hi' Hp'.
      assert (i' = i) as -> by (exact (NoDup_lookup population_list i' i p Hnodup Hp' Hp)).
      done.
Qed.

End MutationTrace.

(** The linear congruential source satisfies the contract of the library. *)
Global Instance lcg_spec : RandomSourceSpec Z.
Proof.
  split.
  - intros a b g Hab. cbn [randint lcg lcg_randint fst].
    pose proof (Z.mod_pos_bound (lcg_next g / 65536) (b - a + 1) ltac:(lia)). lia.
  - intros l g. cbn [shuffle lcg lcg_shuffle fst].
    rewrite Permutation_app_comm. by rewrite take_drop.
Qed.

Section MutationClaim.
Context {G : Type} `{RandomSourceSpec G}.

(** C4 (amended): on a population of length [L < 2^53] without aliasing whose
    boards satisfy the invariant, with [n >= 1] and a rate in [[0, 1]],
    [mutation] returns the same list; the candidate pool is
    [L // 2, ..., L - 1]; the mutated indices [chosen] are the first
    [k = int(len(pool) * mutation_rate)] entries of the pool as [shuffle]
    returns it, the product being the rounded double product, with
    [0 <= k <= len(pool)]; they are distinct and belong to the pool; the
    board at the [j]-th chosen index is overwritten in place at the position
    [col] that the [(2j+1)]-th call of [randint(0, n - 1)] returns, with the
    value [val] that the [(2j+2)]-th call returns, both in [[0, n - 1]];
    every other board is unchanged, and the random source is left in the
    state after these draws; with rate 0 the heap is unchanged, with rate 1
    every index of the pool is chosen. *)
Theorem mutation_overwrites_chosen_boards (population_list : list ref)
    (rate : spec_float) (n : Z) (w : world G) :
  1 <= n -> unit_rate rate = true ->
  NoDup population_list -> population_ok n w population_list ->
  Z.of_nat (length population_list) < 2 ^ 53 ->
  let L := Z.of_nat (length population_list) in
  let pool := mutation_pool (length population_list) in
  (forall i, i ∈ pool <-> L / 2 <= i < L) /\
  exists k chosen draws w',
    scaled_count (Z.of_nat (length pool)) rate = Ok k /\
    0 <= k <= Z.of_nat (length pool) /\
    chosen = take (Z.to_nat k) (shuffle pool (rng w)).1 /\
    (draws, rng w') = cell_draws (length chosen) n (shuffle pool (rng w)).2 /\
    mutation population_list rate n w = Ok (population_list, w') /\
    Z.of_nat (length chosen) = k /\
    NoDup chosen /\ chosen ⊆ pool /\
    length (heap w') = length (heap w) /\
    (forall r, r ∉ population_list -> heap w' !! r = heap w !! r) /\
    (forall (i : nat) p b,
       population_list !! i = Some p -> heap w !! p = Some b ->
       (forall j : nat, chosen !! j = Some (Z.of_nat i) ->
          exists col val, draws !! j = Some (col, val) /\
            0 <= col < n /\ 0 <= val < n /\
            heap w' !! p = Some (<[Z.to_nat col := val]> b)) /\
       (Z.of_nat i ∉ chosen -> heap w' !! p = Some b)) /\
    (rate = float_zero -> chosen = [] /\ heap w' = heap w) /\
    (rate = float_one -> chosen = (shuffle pool (rng w)).1 /\ chosen ≡ₚ pool).
Proof.
  intros Hn Hrate Hnodup Hok Hlen L pool.
  split; [apply elem_of_mutation_pool|].
  destruct (mutation_trace population_list rate n w Hn Hrate Hnodup Hok Hlen)
    as (k & chosen & draws & w' & Hk & Hkb & Hchosen & Hdraws & Hrun & Hclen & Hnd &
        Hsub & Hfull & Hhl & Hout & Hin). fold pool in Hk, Hkb, Hchosen, Hdraws, Hsub, Hfull.
  exists k, chosen, draws, w'.
  split; [done|]. split; [done|]. split; [done|]. split; [done|]. split; [done|].
  split; [done|]. split; [done|]. split; [done|]. split; [done|]. split; [done|].
  split; [done|].
  pose proof (length_mutation_pool (length population_list)) as Hpl. fold pool in Hpl.
  assert (Hdiv : 0 <= Z.of_nat (length population_list) / 2) by (apply Z.div_pos; lia).
  split.
  - intros ->. rewrite scaled_count_zero in Hk by lia. injection Hk as <-.
    assert (Hc : chosen = []) by (apply length_zero_iff_nil; lia).
    split; [done|]. apply list_eq. intros r.
    destruct (decide (r ∈ population_list)) as [Hr|Hr]; [|by apply Hout].
    apply list_elem_of_lookup in Hr as [i Hi].
    apply population_ok_valid in Hok. unfold valid_refs in Hok.
    rewrite Forall_forall in Hok. destruct (Hok r) as [b Hb];
      [by eapply list_elem_of_lookup_2|].
    rewrite Hb. apply (Hin i r b Hi Hb). rewrite Hc. apply not_elem_of_nil.
  - intros ->. rewrite scaled_count_one in Hk by lia. injection Hk as <-.
    specialize (Hfull eq_refl). split; [done|].
    rewrite Hfull. apply shuffle_perm.
Qed.

End MutationClaim.

Lemma mutation_overwrites_chosen_boards_witness :
  exists w',
    mutation [0%nat; 1%nat; 2%nat; 3%nat]
      (S754_finite false 4503599627370496 (-53)) 4
      (World [[0; 1; 2; 3]; [3; 2; 1; 0]; [0; 1; 1; 0]; [3; 2; 2; 3]] 42)
    = Ok ([0%nat; 1%nat; 2%nat; 3%nat], w') /\
    heap w' !! 2%nat = Some [0; 1; 1; 0] /\
    heap w' !! 3%nat = Some [3; 1; 2; 3] /\
    rng w' = 1000676753.
Proof.
  destruct (mutation_overwrites_chosen_boards [0%nat; 1%nat; 2%nat; 3%nat]
              (S754_finite false 4503599627370496 (-53)) 4
              (World [[0; 1; 2; 3]; [3; 2; 1; 0]; [0; 1; 1; 0]; [3; 2; 2; 3]] 42))
    as [_ (k & chosen & draws & w' & Hk & _ & Hchosen & Hdraws & Hrun & _ & _ & _ & _ &
           _ & Hin & _)].
  - lia.
  - vm_compute. reflexivity.
  - repeat constructor; rewrite ?elem_of_cons, ?elem_of_nil; lia.
  - repeat constructor; eexists; (split; [reflexivity|]);
      (split; [reflexivity|]); repeat constructor; lia.
  - vm_compute. reflexivity.
  - vm_compute in Hk. injection Hk as <-. vm_compute in Hchosen. subst chosen.
    pose proof (f_equal fst Hdraws) as Hd. pose proof (f_equal snd Hdraws) as Hg.
    cbn [fst snd] in Hd, Hg. vm_compute in Hd. subst draws.
    exists w'. split; [exact Hrun|]. split; [|split].
    + apply (Hin 2%nat 2%nat [0; 1; 1; 0] eq_refl eq_refl).
      rewrite elem_of_cons, elem_of_nil. simpl. lia.
    + destruct (Hin 3%nat 3%nat [3; 2; 2; 3] eq_refl eq_refl) as [Hmut _].
      destruct (Hmut 0%nat eq_refl) as (col & val & Hcv & _ & _ & Hheap).
      injection Hcv as <- <-. exact Hheap.
    + rewrite Hg. vm_compute. reflexivity.
Defined.

(** C4, counterexample: with the double nearest to 1/3 and a pool of three
    indices (a population of six boards), line 51 keeps
    [int(3 * 0.3333333333333333) = int(1.0) = 1] index, whereas the floor of
    the product over the reals is 0, the double being below 1/3. *)
Lemma mutation_count_differs_from_real_floor :
  ~ (forall (rate : spec_float) (len : nat) (w : world Z) chosen w',
       unit_rate rate = true ->
       chosen_ones len rate w = Ok (chosen, w') ->
       Z.of_nat (length chosen)
       = real_floor_mul (Z.of_nat (length (mutation_pool len))) rate).
Proof.
  intros Hclaim.
  specialize (Hclaim (S754_finite false 6004799503160661 (-54)) 6%nat (World [] 0)).
  assert (Hrun : exists chosen w',
            chosen_ones 6 (S754_finite false 6004799503160661 (-54)) (World [] 0)
            = Ok (chosen, w') /\ length chosen = 1%nat).
  { eexists _, _. split; [vm_compute; reflexivity|reflexivity]. }
  destruct Hrun as (chosen & w' & Hrun & Hlen).
  specialize (Hclaim chosen w' ltac:(vm_compute; reflexivity) Hrun).
  rewrite Hlen in Hclaim. vm_compute in Hclaim. discriminate Hclaim.
Qed.

(** ** The board invariant through the stages *)

Section BuildLemmas.
Context {G : Type} `{RandomSourceSpec G}.

Lemma random_board_run (count : nat) (n : Z) (w : world G) :
  1 <= n ->
  exists b g',
    random_board count n w = Ok (b, World (heap w) g') /\
    length b = count /\ Forall (fun v => 0 <= v < n) b.
Proof.
  intros Hn. revert w. induction count as [|count IH]; intros w.
  - exists [], (rng w). destruct w. by repeat split.
  - destruct (py_randint_run 0 (n - 1) w ltac:(lia)) as (v & g1 & Hv & Hvr).
    destruct (IH (World (heap w) g1)) as (b & g2 & Hb & Hlen & Hall).
    exists (v :: b), g2. split; [|split].
    + cbn [random_board]. erewrite bind_run; [|exact Hv].
      erewrite bind_run; [|exact Hb]. done.
    + simpl. by rewrite Hlen.
    + constructor; [lia|done].
Qed.

Lemma build_population_loop_run (count : nat) (n : Z) (w : world G) :
  1 <= n ->
  exists boards g',
    build_population_loop count n w
    = Ok (seq (length (heap w)) count, World (heap w ++ boards) g') /\
    length boards = count /\ Forall (board_ok n) boards.
Proof.
  intros Hn. revert w. induction count as [|count IH]; intros w.
  - exists [], (rng w). rewrite app_nil_r. destruct w. by repeat split.
  - destruct (random_board_run (Z.to_nat n) n w Hn) as (b & g1 & Hb & Hlen & Hall).
    destruct (IH (World (heap w ++ [b]) g1)) as (boards & g2 & Hrun & Hbl & Hok).
    exists (b :: boards), g2. split; [|split].
    + cbn [build_population_loop]. erewrite bind_run; [|exact Hb].
      erewrite bind_run; [|apply alloc_run].
      cbn [heap rng]. erewrite bind_run; [|exact Hrun].
      cbn [heap]. unfold mret, M_ret. rewrite length_app, <- app_assoc. cbn [length app seq].
      do 4 f_equal. lia.
    + simpl. by rewrite Hbl.
    + constructor; [|done]. split; [lia|done].
Qed.

Lemma build_population_run (population_size n : Z) (w : world G) :
  1 <= n ->
  exists population w',
    build_population population_size n w = Ok (population, w') /\
    length population = Z.to_nat population_size /\
    NoDup population /\ population_ok n w' population /\
    (forall r b, heap w !! r = Some b -> heap w' !! r = Some b).
Proof.
  intros Hn. unfold build_population.
  destruct (build_population_loop_run (Z.to_nat population_size) n w Hn)
    as (boards & g' & Hrun & Hlen & Hok).
  eexists _, _. split; [exact Hrun|]. split; [by rewrite length_seq|].
  split; [apply NoDup_seq|]. split.
  - apply Forall_forall. intros r Hr. apply elem_of_seq in Hr. cbn [heap].
    destruct (lookup_lt_is_Some_2 boards (r - length (heap w)) ltac:(lia)) as [b Hb].
    exists b. split.
    + rewrite lookup_app_r by lia. done.
    + rewrite Forall_forall in Hok. apply Hok. by eapply list_elem_of_lookup_2.
  - intros r b Hr. cbn [heap]. by apply lookup_app_l_Some.
Qed.

End BuildLemmas.

Lemma board_ok_child n (b1 b2 : board) :
  0 <= n -> board_ok n b1 -> board_ok n b2 ->
  board_ok n (slice_to b1 (n / 2) ++ slice_from b2 (n / 2)).
Proof.
  intros Hn [Hl1 Ha1] [Hl2 Ha2].
  assert (0 <= n / 2 <= n) by (split; [apply Z.div_pos|apply Z.div_le_upper_bound]; lia).
  rewrite slice_to_nonneg, slice_from_nonneg by lia. split.
  - rewrite length_app, length_take, length_drop. lia.
  - apply Forall_app. split; [by apply Forall_take|by apply Forall_drop].
Qed.

Lemma crossover_preserves {G} (population_list : list ref) (n : Z) (w : world G) :
  0 <= n -> population_ok n w population_list ->
  exists population' w',
    crossover population_list n w = Ok (population', w') /\
    length population'
      = (length population_list + 2 * (length population_list / 2))%nat /\
    (NoDup population_list -> NoDup population') /\
    population_ok n w' population' /\
    rng w' = rng w /\
    take (length population_list) population' = population_list /\
    (forall r b, heap w !! r = Some b -> heap w' !! r = Some b).
Proof.
  intros Hn Hok.
  destruct (crossover_run population_list n w (population_ok_valid _ _ _ Hok))
    as (w' & Hrun & Hrng & Hlen & Hpre & Hch).
  pose proof Hok as Hok'. unfold population_ok in Hok'. rewrite Forall_forall in Hok'.
  eexists _, w'. split; [exact Hrun|]. split; [by rewrite length_app, length_seq|].
  split; [|split; [|split; [done|split; [by rewrite take_app_length|done]]]].
  - intros Hnodup. apply NoDup_app. split; [done|]. split; [|apply NoDup_seq].
    intros r Hr Hr'. apply elem_of_seq in Hr'.
    destruct (Hok' r Hr) as (b & Hb & _). apply lookup_lt_Some in Hb. lia.
  - apply Forall_app. split.
    + apply Forall_forall. intros r Hr. destruct (Hok' r Hr) as (b & Hb & Hbok).
      exists b. split; [by apply Hpre|done].
    + apply Forall_forall. intros r Hr. apply elem_of_seq in Hr.
      set (j := (r - length (heap w))%nat).
      set (k := (j / 2)%nat).
      pose proof (Nat.div_mod_eq j 2) as Hj. pose proof (Nat.mod_upper_bound j 2) as Hj2.
      pose proof (Nat.div_mod_eq (length population_list) 2) as HM.
      pose proof (Nat.mod_upper_bound (length population_list) 2) as HM2.
      fold k in Hj.
      destruct (lookup_lt_is_Some_2 population_list (2 * k) ltac:(lia)) as [p1 Hp1].
      destruct (lookup_lt_is_Some_2 population_list (2 * k + 1) ltac:(lia)) as [p2 Hp2].
      destruct (Hok' p1) as (b1 & Hb1 & Hbok1); [by eapply list_elem_of_lookup_2|].
      destruct (Hok' p2) as (b2 & Hb2 & Hbok2); [by eapply list_elem_of_lookup_2|].
      destruct (Hch k p1 p2 b1 b2 Hp1 Hp2 Hb1 Hb2) as [H1 H2].
      destruct (decide (j mod 2 = 0)%nat) as [He|Ho].
      * eexists. split; [|by apply (board_ok_child n b1 b2)].
        rewrite <- H1. f_equal. lia.
      * eexists. split; [|by apply (board_ok_child n b2 b1)].
        rewrite <- H2. f_equal. lia.
Qed.

Lemma fitness_total {G} n (w : world G) (population_list : list ref) :
  population_ok n w population_list ->
  exists scores,
    fitness population_list w = Ok (scores, w) /\
    Forall2 (scored w) population_list scores /\
    Forall (fun s => 0 <= s) scores.
Proof.
  intros Hok.
  assert (Hex : exists scores, Forall2 (scored w) population_list scores /\
                               Forall (fun s => 0 <= s) scores).
  { induction Hok as [|r rs (b & Hb & _) _ (scores & Hf & Hpos)].
    - exists []. split; constructor.
    - exists (evaluate_gen b :: scores). split; constructor; try done.
      + by exists b.
      + apply evaluate_gen_bounds. }
  destruct Hex as (scores & Hf & Hpos). exists scores.
  split; [by apply fitness_run|done].
Qed.

Lemma eliminate_prefix {A} (population_list : list A) (evaluate_list : list Z)
    (population_size : Z) :
  population_list <> [] -> length population_list = length evaluate_list ->
  1 <= population_size ->
  let combined := sorted_by_key (zip evaluate_list population_list) in
  exists k : nat,
    eliminate population_list evaluate_list population_size
    = Ok ((take k combined).*2, (take k combined).*1) /\
    (1 <= k)%nat /\ Z.of_nat k <= population_size /\ combined <> [].
Proof.
  intros Hne Hlen HP combined.
  assert (Hc : combined <> []) by (apply sorted_by_key_nonempty, zip_nonempty; done).
  pose proof (eliminate_cases population_list evaluate_list population_size) as Hcases.
  cbv zeta in Hcases. fold combined in Hcases.
  destruct Hcases
    as [[Hnil _]|[(p0 & rest & Hcomb & ->)|(e0 & p0 & rest & Hcomb & He0 & ->)]].
  - done.
  - exists 1%nat. rewrite Hcomb. split; [done|]. split; [lia|]. split; [lia|done].
  - exists (Z.to_nat population_size). rewrite slice_to_nonneg by lia.
    split; [done|]. split; [lia|]. split; [lia|done].
Qed.

Lemma evaluate_gen_unique {G} (w : world G) r s b :
  scored w r s -> heap w !! r = Some b -> s = evaluate_gen b.
Proof. intros (b' & Hb' & ->) Hb. congruence. Qed.

Section GenerationLemmas.
Context {G : Type} `{RandomSourceSpec G}.

Lemma generation_run (population : list ref) (n pop_size : Z)
    (mut_rate : spec_float) (w : world G) :
  1 <= n -> 1 <= pop_size -> 2 * pop_size < 2 ^ 53 -> unit_rate mut_rate = true ->
  engine_inv n pop_size w population ->
  exists population' scores' w',
    generation population n pop_size mut_rate w = Ok ((population', scores'), w') /\
    engine_inv n pop_size w' population' /\
    Forall2 (scored w') population' scores' /\
    StronglySorted Z.le scores' /\
    Forall (fun s => 0 <= s) scores'.
Proof.
  intros Hn HP Hbound Hrate (Hnd & Hok & Hne & Hlen).
  destruct (crossover_preserves population n w ltac:(lia) Hok)
    as (pop1 & w1 & Hcross & Hlen1 & Hnd1 & Hok1 & _).
  specialize (Hnd1 Hnd).
  assert (Hl1 : Z.of_nat (length pop1) < 2 ^ 53).
  { rewrite Hlen1. pose proof (Nat.div_mod_eq (length population) 2). lia. }
  destruct (mutation_run pop1 mut_rate n w1 Hn Hrate Hnd1 Hok1 Hl1)
    as (chosen & k & w2 & Hmut & _ & _ & _ & _ & _ & _ & _ & Hok2 & _).
  destruct (fitness_total n w2 pop1 Hok2) as (scores & Hfit & Hsc & Hpos).
  assert (Hne1 : pop1 <> []).
  { intros ->. destruct population; [done|]. simpl in Hlen1. lia. }
  assert (Hls : length pop1 = length scores) by (by eapply Forall2_length).
  destruct (eliminate_prefix pop1 scores pop_size Hne1 Hls HP)
    as (j & Helim & Hj1 & HjP & Hcne).
  set (combined := sorted_by_key (zip scores pop1)) in *.
  assert (Hperm : combined ≡ₚ zip scores pop1) by apply sorted_by_key_perm.
  assert (Hp2 : combined.*2 ≡ₚ pop1).
  { rewrite Hperm, snd_zip; [done|lia]. }
  assert (Hp1 : combined.*1 ≡ₚ scores).
  { rewrite Hperm, fst_zip; [done|lia]. }
  exists ((take j combined).*2), ((take j combined).*1), w2.
  split.
  { unfold generation. erewrite bind_run; [|exact Hcross].
    erewrite bind_run; [|exact Hmut]. erewrite bind_run; [|exact Hfit].
    apply lift_Ok. done. }
  split; [|split; [|split]].
  - split; [|split; [|split]].
    + rewrite fmap_take. eapply sublist_NoDup; [|apply sublist_take]. by rewrite Hp2.
    + unfold population_ok. rewrite fmap_take. apply Forall_take. by rewrite Hp2.
    + destruct combined; [done|]. destruct j; [lia|]. done.
    + rewrite length_fmap, length_take. lia.
  - apply scored_pairs, Forall_take. rewrite Hperm. by apply scored_zip.
  - apply StronglySorted_keys, StronglySorted_take, sorted_by_key_sorted.
  - rewrite fmap_take. apply Forall_take. by rewrite Hp1.
Qed.

End GenerationLemmas.

(** ** The generation loop *)

Lemma sorted_best_first {G} (w : world G) population scores :
  Forall2 (scored w) population scores -> StronglySorted Z.le scores ->
  best_first w population.
Proof.
  intros Hsc Hsorted p b r b' Hhd Hb Hr Hb'.
  destruct Hsc as [|p0 s rest ss Hps Hrest]; [done|].
  injection Hhd as ->. apply StronglySorted_inv in Hsorted as [_ Hall].
  rewrite (evaluate_gen_unique w p s b Hps Hb) in *.
  apply elem_of_cons in Hr as [->|Hr].
  - assert (b' = b) as -> by congruence. lia.
  - apply list_elem_of_lookup in Hr as [i Hi].
    destruct (Forall2_lookup_l _ _ _ _ _ Hrest Hi) as (s' & Hs' & Hrs').
    rewrite <- (evaluate_gen_unique w r s' b' Hrs' Hb').
    rewrite Forall_forall in Hall. apply Hall. by eapply list_elem_of_lookup_2.
Qed.

Lemma emit_run {G} (population : list ref) (out : option Z) (w : world G) p b :
  head population = Some p -> heap w !! p = Some b ->
  emit population out w = Ok ((b, out), w).
Proof.
  intros Hhd Hb. unfold emit.
  erewrite bind_run;
    [|apply lift_Ok; split; [apply (item_lookup population 0%nat); by rewrite <- head_lookup|done]].
  erewrite bind_run; [|by apply load_run]. done.
Qed.

Lemma engine_inv_head {G} n pop_size (w : world G) population :
  engine_inv n pop_size w population ->
  exists p b, head population = Some p /\ heap w !! p = Some b /\ board_ok n b.
Proof.
  intros (_ & Hok & Hne & _). destruct population as [|p rest]; [done|].
  apply Forall_cons in Hok as [(b & Hb & Hbok) _]. eauto.
Qed.

Section LoopLemmas.
Context {G : Type} `{RandomSourceSpec G}.

Lemma generation_loop_run (n pop_size : Z) (mut_rate : spec_float) :
  1 <= n -> 1 <= pop_size -> 2 * pop_size < 2 ^ 53 -> unit_rate mut_rate = true ->
  forall (count : nat) (a : Z) (population : list ref) (w : world G),
    engine_inv n pop_size w population ->
    (count = 0%nat ->
       best_first w population /\
       forall p b, head population = Some p -> heap w !! p = Some b ->
                   0 < evaluate_gen b) ->
    exists answer out w',
      generation_loop (range a (a + Z.of_nat count)) population n pop_size mut_rate w
      = Ok ((answer, out), w') /\
      board_ok n answer /\
      ((exists g : nat,
          out = Some (a + Z.of_nat g + 1) /\ (g < count)%nat /\
          solved_in n pop_size mut_rate population w g answer w' /\
          evaluate_gen answer = 0) \/
       (out = None /\
        exists final,
          exhausted_after n pop_size mut_rate population w count final answer w' /\
          best_first w' final /\ 0 < evaluate_gen answer /\
          engine_inv n pop_size w' final)).
Proof.
  intros Hn HP Hbound Hrate. induction count as [|count IH]; intros a population w Hinv Hbest.
  - replace (a + Z.of_nat 0) with a by lia. rewrite range_empty by lia.
    destruct (engine_inv_head _ _ _ _ Hinv) as (p & b & Hhd & Hb & Hbok).
    exists b, None, w. split; [by eapply emit_run|]. split; [done|]. right.
    split; [done|]. exists population. destruct (Hbest eq_refl) as [Hbf Hpos].
    split; [|split; [done|split; [by eapply Hpos|done]]].
    exists p. split; [constructor|done].
  - rewrite range_cons by lia.
    destruct (generation_run population n pop_size mut_rate w Hn HP Hbound Hrate Hinv)
      as (pop1 & scores & w1 & Hgen & Hinv1 & Hsc & Hsorted & Hpos).
    destruct (engine_inv_head _ _ _ _ Hinv1) as (p & b & Hhd & Hb & Hbok).
    cbn [generation_loop]. erewrite bind_run; [|exact Hgen].
    destruct (decide (0 ∈ scores)) as [Hz|Hz].
    + rewrite bool_decide_eq_true_2 by done.
      exists b, (Some (a + 1)), w1. split; [by eapply emit_run|]. split; [done|]. left.
      exists 0%nat. split; [f_equal; lia|]. split; [lia|]. split.
      * exists population, w, pop1, scores, p. split; [constructor|done].
      * destruct Hsc as [|p0 s rest ss Hps Hrest]; [done|].
        injection Hhd as ->. rewrite <- (evaluate_gen_unique w1 p s b Hps Hb).
        apply StronglySorted_inv in Hsorted as [_ Hall].
        apply Forall_cons in Hpos as [Hs _].
        apply elem_of_cons in Hz as [->|Hz]; [done|].
        rewrite Forall_forall in Hall. specialize (Hall 0 Hz). lia.
    + rewrite bool_decide_eq_false_2 by done.
      destruct (IH (a + 1) pop1 w1 Hinv1) as (answer & out & w' & Hrun & Hans & Hout).
      { intros _. split; [by eapply sorted_best_first|].
        intros p' b' Hhd' Hb'. assert (p' = p) as -> by congruence.
        assert (b' = b) as -> by congruence.
        destruct Hsc as [|p0 s rest ss Hps Hrest]; [done|].
        injection Hhd as ->. rewrite <- (evaluate_gen_unique w1 p s b Hps Hb).
        apply Forall_cons in Hpos as [Hs _].
        assert (s <> 0) by (intros ->; apply Hz; left). lia. }
      exists answer, out, w'. split.
      { rewrite <- Hrun. f_equal. f_equal. lia. }
      split; [done|].
      destruct Hout as [(g & -> & Hg & Hsolved & Hzero)|(-> & final & Hex & Hbf & Hinv')].
      * left. exists (S g). split; [f_equal; lia|]. split; [lia|]. split; [|done].
        destruct Hsolved as (pa & wa & pb & sb & q & Hur & Hg2 & Hin & Hq & Hqb).
        exists pa, wa, pb, sb, q. split; [|done]. econstructor; done.
      * right. split; [done|]. exists final. split; [|done].
        destruct Hex as (q & Hur & Hq & Hqb). exists q. split; [|done].
        econstructor; done.
Qed.

End LoopLemmas.

Section EngineTheorems.
Context {G : Type} `{RandomSourceSpec G}.

Lemma build_population_inv (pop_size n : Z) (w : world G) :
  1 <= n -> 1 <= pop_size ->
  exists population w0,
    build_population pop_size n w = Ok (population, w0) /\
    engine_inv n pop_size w0 population.
Proof.
  intros Hn HP.
  destruct (build_population_run pop_size n w Hn)
    as (population & w0 & Hrun & Hlen & Hnd & Hok & _).
  exists population, w0. split; [done|]. split; [done|]. split; [done|]. split; [|lia].
  intros ->. simpl in Hlen. lia.
Qed.

(** The two outcomes of the engine on valid inputs. *)
Lemma run_engine_outcome (n pop_size : Z) (mut_rate : spec_float) (w : world G) :
  1 <= n -> 1 <= pop_size -> 2 * pop_size < 2 ^ 53 -> unit_rate mut_rate = true ->
  exists population w0 answer out w',
    build_population pop_size n w = Ok (population, w0) /\
    engine_inv n pop_size w0 population /\
    run_engine n pop_size mut_rate w = Ok ((answer, out), w') /\
    board_ok n answer /\
    ((exists g : nat,
        out = Some (Z.of_nat g + 1) /\ Z.of_nat g < 2 * n /\
        solved_in n pop_size mut_rate population w0 g answer w' /\
        evaluate_gen answer = 0) \/
     (out = None /\
      exists final,
        exhausted_after n pop_size mut_rate population w0 (Z.to_nat (2 * n))
          final answer w' /\
        best_first w' final /\ 0 < evaluate_gen answer /\
        engine_inv n pop_size w' final)).
Proof.
  intros Hn HP Hbound Hrate.
  destruct (build_population_inv pop_size n w Hn HP) as (population & w0 & Hbuild & Hinv).
  destruct (generation_loop_run n pop_size mut_rate Hn HP Hbound Hrate
              (Z.to_nat (2 * n)) 0 population w0 Hinv)
    as (answer & out & w' & Hrun & Hans & Hout); [lia|].
  exists population, w0, answer, out, w'. split; [done|]. split; [done|]. split.
  { unfold run_engine. erewrite bind_run; [|exact Hbuild].
    rewrite <- Hrun. f_equal. f_equal. lia. }
  split; [done|].
  destruct Hout as [(g & -> & Hg & Hsolved & Hzero)|(-> & Hex)].
  - left. exists g. split; [f_equal; lia|]. split; [lia|done].
  - by right.
Qed.

(** C5: on valid inputs the engine returns one of two outcomes.  SOLVED: a
    generation index [g + 1] (1-based), reached after [g] generations that
    retained no score 0 and one that did, with the first board retained by
    that generation, whose fitness is 0.  EXHAUSTED: no generation index,
    after [2 * n] generations none of which retained a score 0, with the
    first board of the final retained population, whose fitness is the lowest
    of that population and is not 0. *)
Theorem run_engine_solved_or_exhausted (n pop_size : Z) (mut_rate : spec_float)
    (w : world G) :
  1 <= n -> 1 <= pop_size -> 2 * pop_size < 2 ^ 53 -> unit_rate mut_rate = true ->
  exists population w0 answer out w',
    build_population pop_size n w = Ok (population, w0) /\
    run_engine n pop_size mut_rate w = Ok ((answer, out), w') /\
    ((exists g : nat,
        out = Some (Z.of_nat g + 1) /\
        solved_in n pop_size mut_rate population w0 g answer w' /\
        evaluate_gen answer = 0) \/
     (out = None /\
      exists final,
        exhausted_after n pop_size mut_rate population w0 (Z.to_nat (2 * n))
          final answer w' /\
        0 < evaluate_gen answer /\
        forall r b, r ∈ final -> heap w' !! r = Some b ->
                    evaluate_gen answer <= evaluate_gen b)).
Proof.
  intros Hn HP Hbound Hrate.
  destruct (run_engine_outcome n pop_size mut_rate w Hn HP Hbound Hrate)
    as (population & w0 & answer & out & w' & Hbuild & _ & Hrun & _ & Hout).
  exists population, w0, answer, out, w'. split; [done|]. split; [done|].
  destruct Hout as [(g & -> & _ & Hsolved & Hzero)|(-> & final & Hex & Hbf & Hpos & _)].
  - left. eauto.
  - right. split; [done|]. exists final. split; [done|]. split; [done|].
    intros r b Hr Hb. destruct Hex as (p & _ & Hp & Hpb). by eapply Hbf.
Qed.

(** C6: on valid inputs the engine terminates with a result (no exception),
    after [c <= 2 * n] generations: [c = g + 1] when it reports SOLVED in
    generation [g + 1], [c = 2 * n] when it reports EXHAUSTED; a reported
    generation index lies in [[1, 2 * n]]. *)
Theorem run_engine_terminates_within_budget (n pop_size : Z)
    (mut_rate : spec_float) (w : world G) :
  1 <= n -> 1 <= pop_size -> 2 * pop_size < 2 ^ 53 -> unit_rate mut_rate = true ->
  exists population w0 answer out w' (c : nat),
    build_population pop_size n w = Ok (population, w0) /\
    run_engine n pop_size mut_rate w = Ok ((answer, out), w') /\
    Z.of_nat c <= 2 * n /\
    ((exists g : nat, c = S g /\ out = Some (Z.of_nat c) /\
        solved_in n pop_size mut_rate population w0 g answer w') \/
     (Z.of_nat c = 2 * n /\ out = None /\
      exists final,
        exhausted_after n pop_size mut_rate population w0 c final answer w')) /\
    (forall k, out = Some k -> 1 <= k <= 2 * n).
Proof.
  intros Hn HP Hbound Hrate.
  destruct (run_engine_outcome n pop_size mut_rate w Hn HP Hbound Hrate)
    as (population & w0 & answer & out & w' & Hbuild & _ & Hrun & _ & Hout).
  destruct Hout as [(g & -> & Hg & Hsolved & _)|(-> & final & Hex & _)].
  - exists population, w0, answer, (Some (Z.of_nat g + 1)), w', (S g).
    split; [done|]. split; [done|]. split; [lia|]. split.
    + left. exists g. split; [done|]. split; [f_equal; lia|done].
    + intros k [= <-]. lia.
  - exists population, w0, answer, None, w', (Z.to_nat (2 * n)).
    split; [done|]. split; [done|]. split; [lia|]. split; [|done].
    right. split; [lia|]. split; [done|]. by exists final.
Qed.

Lemma board_ok_one (b : board) : board_ok 1 b -> b = [0].
Proof.
  intros [Hlen Hall]. destruct b as [|v [|v' b]]; simpl in Hlen; try lia.
  apply Forall_cons in Hall as [Hv _]. f_equal. lia.
Qed.

Lemma generation_one_solves (population : list ref) (pop_size : Z)
    (mut_rate : spec_float) (w : world G) population' scores w' :
  1 <= pop_size -> 2 * pop_size < 2 ^ 53 -> unit_rate mut_rate = true ->
  engine_inv 1 pop_size w population ->
  generation population 1 pop_size mut_rate w = Ok ((population', scores), w') ->
  0 ∈ scores.
Proof.
  intros HP Hbound Hrate Hinv Hgen.
  destruct (generation_run population 1 pop_size mut_rate w ltac:(lia) HP Hbound Hrate Hinv)
    as (pop1 & scores1 & w1 & Hgen1 & (_ & Hok & Hne & _) & Hsc & _).
  rewrite Hgen in Hgen1. injection Hgen1 as -> -> ->.
  destruct Hsc as [|p s rest ss (b & Hb & ->) _]; [done|].
  apply Forall_cons in Hok as [(b' & Hb' & Hbok) _].
  assert (b' = b) as -> by congruence.
  rewrite (board_ok_one b Hbok). left.
Qed.

(** C9: with [n = 1], whatever the random source draws, every board of
    length 1 has fitness 0 and the engine reaches SOLVED in the first
    generation: the population that [build_population] returns consists of
    [pop_size] boards [[0]]; the first generation runs on it (no unsolved
    generation before it) and retains a score 0, namely the one board [[0]]
    with the score list [[0]]; the engine returns this board with the
    generation index 1, in the world that this generation leaves. *)
Theorem run_engine_board_size_one (pop_size : Z) (mut_rate : spec_float)
    (w : world G) :
  1 <= pop_size -> 2 * pop_size < 2 ^ 53 -> unit_rate mut_rate = true ->
  (forall v : Z, evaluate_gen [v] = 0) /\
  exists population w0 p w',
    build_population pop_size 1 w = Ok (population, w0) /\
    Z.of_nat (length population) = pop_size /\
    (forall r, r ∈ population -> heap w0 !! r = Some [0]) /\
    generation population 1 pop_size mut_rate w0 = Ok (([p], [0]), w') /\
    heap w' !! p = Some [0] /\
    solved_in 1 pop_size mut_rate population w0 0 [0] w' /\
    run_engine 1 pop_size mut_rate w = Ok (([0], Some 1), w').
Proof.
  intros HP Hbound Hrate. split; [done|].
  destruct (run_engine_outcome 1 pop_size mut_rate w ltac:(lia) HP Hbound Hrate)
    as (population & w0 & answer & out & w' & Hbuild & Hinv & Hrun & Hans & Hout).
  apply board_ok_one in Hans as ->.
  assert (Hsolved : out = Some 1 /\
            solved_in 1 pop_size mut_rate population w0 0 [0] w').
  { destruct Hout as [(g & -> & Hg & Hsolved & _)|(-> & final & Hex & _)].
    - destruct g as [|g]; [done|]. exfalso.
      destruct Hsolved as (pa & wa & pb & sb & q & Hur & _).
      inversion Hur as [|? ? ? ? scores ? ? ? Hgen Hno _]; subst.
      apply Hno. by eapply generation_one_solves.
    - exfalso. destruct Hex as (p & Hur & _).
      change (Z.to_nat (2 * 1)) with 2%nat in Hur.
      inversion Hur as [|? ? ? ? scores ? ? ? Hgen Hno _]; subst.
      apply Hno. by eapply generation_one_solves. }
  destruct Hsolved as [-> Hsolved].
  destruct (build_population_run pop_size 1 w ltac:(lia))
    as (population' & w0' & Hbuild' & Hlen & _ & Hok & _).
  rewrite Hbuild in Hbuild'. injection Hbuild' as <- <-.
  pose proof Hsolved as (pa & wa & pb & sb & q & Hur & Hgen & Hzero & Hq & Hqb).
  inversion Hur; subst.
  assert (Hall : Forall (fun s => s = 0) sb).
  { destruct (generation_run pa 1 pop_size mut_rate wa ltac:(lia) HP Hbound Hrate Hinv)
      as (pop1 & scores1 & w1 & Hgen1 & (_ & Hok1 & _) & Hsc & _).
    rewrite Hgen in Hgen1. injection Hgen1 as <- <- <-.
    unfold population_ok in Hok1. rewrite Forall_forall in Hok1.
    apply Forall_forall. intros s Hs.
    apply list_elem_of_lookup in Hs as [i Hi].
    destruct (Forall2_lookup_r _ _ _ _ _ Hsc Hi) as (r & Hr & b & Hb & ->).
    destruct (Hok1 r) as (b' & Hb' & Hbok); [by eapply list_elem_of_lookup_2|].
    assert (b' = b) as -> by congruence. by rewrite (board_ok_one b Hbok). }
  assert (Hret : pb = [q] /\ sb = [0]).
  { unfold generation in Hgen.
    apply bind_Ok in Hgen as (pop1 & w1 & _ & Hgen).
    apply bind_Ok in Hgen as (pop2 & w2 & _ & Hgen).
    apply bind_Ok in Hgen as (scores & w3 & _ & Hgen).
    apply lift_Ok in Hgen as [Hel _].
    pose proof (eliminate_cases pop2 scores pop_size) as Hcases. cbv zeta in Hcases.
    destruct Hcases as [[_ He]|[(p0 & rest & _ & He)|(e0 & p0 & rest & Hc & He0 & He)]];
      rewrite He in Hel; [done| |].
    - injection Hel as <- <-. simpl in Hq. by injection Hq as ->.
    - exfalso. injection Hel as <- <-.
      rewrite slice_to_nonneg, Hc in Hall by lia.
      destruct (Z.to_nat pop_size) as [|c] eqn:Ec; [lia|].
      cbn [take] in Hall. rewrite fmap_cons in Hall.
      apply Forall_cons in Hall as [He0' _]. by apply He0. }
  destruct Hret as [-> ->].
  exists pa, wa, q, w'. split; [done|]. split; [lia|]. split.
  { intros r Hr. unfold population_ok in Hok. rewrite Forall_forall in Hok.
    destruct (Hok r Hr) as (b & Hb & Hbok). by rewrite (board_ok_one b Hbok) in Hb. }
  split; [done|]. split; [done|]. split; [done|done].
Qed.

End EngineTheorems.

(** ** The board invariant *)

Section InvariantLemmas.
Context {G : Type} `{RandomSourceSpec G}.

Lemma mutation_loop_ok (population_list : list ref) (n : Z) :
  1 <= n ->
  forall (chosen : list Z) (w : world G),
    population_ok n w population_list ->
    Forall (fun i => 0 <= i < Z.of_nat (length population_list)) chosen ->
    exists w',
      mutation_loop chosen population_list n w = Ok (tt, w') /\
      population_ok n w' population_list.
Proof.
  intros Hn. induction chosen as [|i rest IH]; intros w Hok Hidx.
  - by exists w.
  - apply Forall_cons in Hidx as [Hir Hidx].
    set (k := Z.to_nat i). assert (Hik : i = Z.of_nat k) by lia.
    destruct (lookup_lt_is_Some_2 population_list k ltac:(lia)) as [p Hp].
    pose proof Hok as Hok'. unfold population_ok in Hok'. rewrite Forall_forall in Hok'.
    destruct (Hok' p) as (b & Hb & Hbok); [by eapply list_elem_of_lookup_2|].
    destruct (py_randint_run 0 (n - 1) w ltac:(lia)) as (col & g1 & Hcol & Hcr).
    destruct (py_randint_run 0 (n - 1) (World (heap w) g1) ltac:(lia))
      as (val & g2 & Hval & Hvr). cbn [heap] in Hval.
    destruct (IH (World (<[p := <[Z.to_nat col := val]> b]> (heap w)) g2))
      as (w' & Hrun & Hok2); [|done|].
    { apply population_ok_store; [done|]. apply board_ok_insert; [done|lia]. }
    exists w'. split; [|done]. rewrite <- Hrun. cbn [mutation_loop].
    erewrite bind_run; [|exact Hcol].
    erewrite bind_run; [|exact Hval].
    erewrite bind_run; [|apply lift_Ok; split; [rewrite Hik; by apply item_lookup|done]].
    erewrite bind_run; [|by apply load_run].
    erewrite bind_run;
      [|apply lift_Ok; split; [apply setitem_in_range; destruct Hbok; lia|done]].
    erewrite bind_run; [|eapply store_run; exact Hb]. done.
Qed.

Lemma mutation_preserves (population_list : list ref) (rate : spec_float) (n : Z)
    (w : world G) :
  1 <= n -> unit_rate rate = true ->
  population_ok n w population_list ->
  Z.of_nat (length population_list) < 2 ^ 53 ->
  exists w',
    mutation population_list rate n w = Ok (population_list, w') /\
    population_ok n w' population_list.
Proof.
  intros Hn Hrate Hok Hlen.
  destruct (chosen_ones_run (length population_list) rate w Hlen Hrate)
    as (shuffled & g' & k & Hperm & _ & _ & Hch).
  destruct (mutation_loop_ok population_list n Hn (take (Z.to_nat k) shuffled)
              (World (heap w) g')) as (w' & Hrun & Hok'); [done| |].
  { apply Forall_take. rewrite Hperm. apply Forall_forall. intros i Hi.
    apply elem_of_mutation_pool in Hi.
    assert (0 <= Z.of_nat (length population_list) / 2) by (apply Z.div_pos; lia). lia. }
  exists w'. split; [|done]. unfold mutation.
  erewrite bind_run; [|exact Hch]. erewrite bind_run; [|exact Hrun]. done.
Qed.

End InvariantLemmas.

Lemma eliminate_preserves {G} (n : Z) (w : world G) (population_list : list ref)
    (evaluate_list : list Z) (population_size : Z) :
  population_list <> [] -> length population_list = length evaluate_list ->
  population_ok n w population_list ->
  exists population' scores',
    eliminate population_list evaluate_list population_size = Ok (population', scores') /\
    population' ⊆ population_list /\
    population_ok n w population'.
Proof.
  intros Hne Hlen Hok.
  set (combined := sorted_by_key (zip evaluate_list population_list)).
  assert (Hp2 : combined.*2 ≡ₚ population_list).
  { unfold combined. rewrite sorted_by_key_perm, snd_zip; [done|lia]. }
  assert (Hpre : forall k, (take k combined).*2 ⊆ population_list /\
                           population_ok n w ((take k combined).*2)).
  { intros k. rewrite fmap_take. split.
    - intros r Hr. rewrite <- Hp2. eapply elem_of_sublist; [exact Hr|apply sublist_take].
    - unfold population_ok. apply Forall_take. by rewrite Hp2. }
  pose proof (eliminate_cases population_list evaluate_list population_size) as Hcases.
  cbv zeta in Hcases. fold combined in Hcases.
  destruct Hcases
    as [[Hnil _]|[(p0 & rest & Hc & ->)|(e0 & p0 & rest & Hc & He0 & ->)]].
  - exfalso. revert Hnil. apply sorted_by_key_nonempty, zip_nonempty; done.
  - exists [p0], [0]. split; [done|]. specialize (Hpre 1%nat). by rewrite Hc in Hpre.
  - destruct (slice_to_prefix combined population_size) as [k ->].
    eexists _, _. split; [done|]. apply Hpre.
Qed.

(** C8: the board invariant (length [n], entries in [[0, n - 1]]) holds of
    every board built by [build_population] and is preserved by [crossover],
    by [mutation] and by [eliminate].  It does not include distinct entries:
    construction and mutation can produce a repeated entry, crossover
    produces one from two parents without any, and elimination keeps a board
    that has one. *)
Theorem board_invariant_established_and_preserved :
  (forall (G : Type) (RS : RandomSource G), RandomSourceSpec G ->
   forall (pop_size n : Z) (w : world G),
     1 <= n -> 1 <= pop_size ->
     exists population w',
       build_population pop_size n w = Ok (population, w') /\
       Z.of_nat (length population) = pop_size /\
       population_ok n w' population) /\
  (forall (G : Type) (population_list : list ref) (n : Z) (w : world G),
     1 <= n -> population_ok n w population_list ->
     exists population' w',
       crossover population_list n w = Ok (population', w') /\
       population_ok n w' population') /\
  (forall (G : Type) (RS : RandomSource G), RandomSourceSpec G ->
   forall (population_list : list ref) (rate : spec_float) (n : Z) (w : world G),
     1 <= n -> unit_rate rate = true ->
     population_ok n w population_list ->
     Z.of_nat (length population_list) < 2 ^ 53 ->
     exists w',
       mutation population_list rate n w = Ok (population_list, w') /\
       population_ok n w' population_list) /\
  (forall (G : Type) (n : Z) (w : world G) (population_list : list ref)
          (evaluate_list : list Z) (population_size : Z),
     population_list <> [] -> length population_list = length evaluate_list ->
     population_ok n w population_list ->
     exists population' scores',
       eliminate population_list evaluate_list population_size
       = Ok (population', scores') /\
       population_ok n w population') /\
  (exists w', build_population 1 4 (World [] 1) = Ok ([0%nat], w') /\
              heap w' = [[2; 2; 1; 3]] /\ ~ NoDup [2; 2; 1; 3]) /\
  (exists w', crossover [0%nat; 1%nat] 4 (World [[0; 1; 2; 3]; [2; 3; 0; 1]] 1)
              = Ok ([0%nat; 1%nat; 2%nat; 3%nat], w') /\
              heap w' = [[0; 1; 2; 3]; [2; 3; 0; 1]; [0; 1; 0; 1]; [2; 3; 2; 3]] /\
              NoDup [0; 1; 2; 3] /\ NoDup [2; 3; 0; 1] /\ ~ NoDup [0; 1; 0; 1]) /\
  (exists w', mutation [0%nat; 1%nat] float_one 4 (World [[0; 1; 2; 3]; [2; 3; 0; 1]] 1)
              = Ok ([0%nat; 1%nat], w') /\
              heap w' = [[0; 1; 2; 3]; [2; 3; 1; 1]] /\ ~ NoDup [2; 3; 1; 1]) /\
  (eliminate [[2; 2; 1; 3]; [2; 3; 1; 1]] [2; 3] 2
   = Ok ([[2; 2; 1; 3]; [2; 3; 1; 1]], [2; 3]) /\ ~ NoDup [2; 2; 1; 3]).
Proof.
  split; [|split; [|split; [|split]]].
  - intros G RS RSS pop_size n w Hn HP.
    destruct (build_population_run pop_size n w Hn) as (population & w' & Hrun & Hlen & _ & Hok & _).
    exists population, w'. split; [done|]. split; [lia|done].
  - intros G population_list n w Hn Hok.
    destruct (crossover_preserves population_list n w ltac:(lia) Hok)
      as (population' & w' & Hrun & _ & _ & Hok' & _). eauto.
  - intros G RS RSS population_list rate n w Hn Hrate Hok Hlen.
    by apply mutation_preserves.
  - intros G n w population_list evaluate_list population_size Hne Hlen Hok.
    destruct (eliminate_preserves n w population_list evaluate_list population_size
                Hne Hlen Hok) as (population' & scores' & Hrun & _ & Hok'). eauto.
  - assert (Hdup : forall l : list Z, bool_decide (~ NoDup l) = true -> ~ NoDup l)
      by (intros l Hl; by apply bool_decide_eq_true in Hl).
    assert (Hnd : forall l : list Z, bool_decide (NoDup l) = true -> NoDup l)
      by (intros l Hl; by apply bool_decide_eq_true in Hl).
    split; [|split; [|split]].
    + eexists. split; [vm_compute; reflexivity|]. split; [vm_compute; reflexivity|].
      apply Hdup. vm_compute. reflexivity.
    + eexists. split; [vm_compute; reflexivity|]. split; [vm_compute; reflexivity|].
      split; [apply Hnd; vm_compute; reflexivity|].
      split; [apply Hnd; vm_compute; reflexivity|].
      apply Hdup. vm_compute. reflexivity.
    + eexists. split; [vm_compute; reflexivity|]. split; [vm_compute; reflexivity|].
      apply Hdup. vm_compute. reflexivity.
    + split; [vm_compute; reflexivity|]. apply Hdup. vm_compute. reflexivity.
Qed.

Lemma board_invariant_established_and_preserved_witness :
  exists population w',
    build_population 3 4 (World [] 1) = Ok (population, w') /\
    Z.of_nat (length population) = 3 /\
    population_ok 4 w' population.
Proof.
  destruct board_invariant_established_and_preserved as [Hbuild _].
  apply (Hbuild Z lcg lcg_spec 3 4 (World [] 1)); lia.
Defined.

Lemma run_engine_solved_or_exhausted_witness :
  exists answer out w',
    run_engine 4 10 (S754_finite false 7205759403792794 (-54)) (World [] 7)
    = Ok ((answer, out), w') /\
    (out = None \/ evaluate_gen answer = 0).
Proof.
  destruct (run_engine_solved_or_exhausted 4 10
              (S754_finite false 7205759403792794 (-54)) (World [] 7))
    as (population & w0 & answer & out & w' & _ & Hrun & Hout).
  - lia.
  - lia.
  - vm_compute. reflexivity.
  - vm_compute. reflexivity.
  - exists answer, out, w'. split; [exact Hrun|].
    destruct Hout as [(g & _ & _ & Hzero)|(Hnone & _)]; [right; exact Hzero|left; exact Hnone].
Defined.

Lemma run_engine_terminates_within_budget_witness :
  exists answer out w',
    run_engine 4 10 (S754_finite false 7205759403792794 (-54)) (World [] 7)
    = Ok ((answer, out), w') /\
    (forall k, out = Some k -> 1 <= k <= 2 * 4).
Proof.
  destruct (run_engine_terminates_within_budget 4 10
              (S754_finite false 7205759403792794 (-54)) (World [] 7))
    as (population & w0 & answer & out & w' & c & _ & Hrun & _ & _ & Hk).
  - lia.
  - lia.
  - vm_compute. reflexivity.
  - vm_compute. reflexivity.
  - exists answer, out, w'. split; [exact Hrun|exact Hk].
Defined.

Lemma run_engine_board_size_one_witness :
  exists population w0 p w',
    build_population 3 1 (World [] 5) = Ok (population, w0) /\
    generation population 1 3 (S754_finite false 7205759403792794 (-54)) w0
    = Ok (([p], [0]), w') /\
    run_engine 1 3 (S754_finite false 7205759403792794 (-54)) (World [] 5)
    = Ok (([0], Some 1), w').
Proof.
  destruct (run_engine_board_size_one 3 (S754_finite false 7205759403792794 (-54))
              (World [] 5))
    as [_ (population & w0 & p & w' & Hbuild & _ & _ & Hgen & _ & _ & Hrun)].
  - lia.
  - vm_compute. reflexivity.
  - vm_compute. reflexivity.
  - exists population, w0, p, w'. split; [exact Hbuild|]. split; [exact Hgen|exact Hrun].
Defined.

(* ===================================================================== *)
(** * Part III: further properties of the code                             *)
(* ===================================================================== *)

(** ** eliminate: errors, ties and sizes *)

(** X1: [eliminate] raises only IndexError, and exactly when one of the two
    lists is empty ([zip] stops at the shorter one, so that [combined[0]]
    does not exist). *)
Theorem eliminate_raises_iff_empty {A} (population_list : list A)
    (evaluate_list : list Z) (population_size : Z) (e : exn) :
  eliminate population_list evaluate_list population_size = Raise e <->
  e = IndexError /\ (population_list = [] \/ evaluate_list = []).
Proof.
  pose proof (eliminate_cases population_list evaluate_list population_size) as Hcases.
  cbv zeta in Hcases.
  assert (Hnil : sorted_by_key (zip evaluate_list population_list) = [] <->
                 population_list = [] \/ evaluate_list = []).
  { split.
    - intros Hs. pose proof (sorted_by_key_perm (zip evaluate_list population_list)) as Hp.
      rewrite Hs in Hp. apply Permutation_nil_l in Hp.
      destruct evaluate_list, population_list; auto. discriminate.
    - intros [-> | ->]; [by rewrite zip_with_nil_r|done]. }
  destruct Hcases as [[Hc ->]|[(p0 & rest & Hc & ->)|(e0 & p0 & rest & Hc & He0 & ->)]].
  - split; [intros [= <-]; split; [done|by apply Hnil]|by intros [-> _]].
  - split; [done|]. intros [_ Hempty]. apply Hnil in Hempty. congruence.
  - split; [done|]. intros [_ Hempty]. apply Hnil in Hempty. congruence.
Qed.

Lemma sorted_by_key_head {A} (before : list (Z * A)) (x : Z * A) (after : list (Z * A)) :
  Forall (fun y => x.1 < y.1) before -> Forall (fun y => x.1 <= y.1) after ->
  exists rest, sorted_by_key (before ++ x :: after) = x :: rest.
Proof.
  intros Hbefore Hafter. induction Hbefore as [|y before Hy _ IH]; simpl.
  - destruct (sorted_by_key after) as [|z rest] eqn:Es; simpl; [eauto|].
    assert (Hz : z ∈ after).
    { rewrite <- (sorted_by_key_perm after), Es. left. }
    rewrite Forall_forall in Hafter. specialize (Hafter z Hz).
    destruct (Z.leb_spec x.1 z.1); [eauto|lia].
  - destruct IH as [rest ->]. simpl.
    destruct (Z.leb_spec y.1 x.1); [lia|eauto].
Qed.

(** X2: Ties are broken by position: when several boards have score 0 (and no
    score is negative), [eliminate] returns the first of them in the order
    of the population. *)
Theorem eliminate_returns_first_zero {A} (before : list A) (p : A) (after : list A)
    (scores_before scores_after : list Z) (population_size : Z) :
  length before = length scores_before ->
  Forall (fun s => 0 < s) scores_before ->
  Forall (fun s => 0 <= s) scores_after ->
  eliminate (before ++ p :: after) (scores_before ++ 0 :: scores_after) population_size
  = Ok ([p], [0]).
Proof.
  intros Hlen Hbefore Hafter. unfold eliminate.
  rewrite zip_with_app by done. cbn [zip_with].
  destruct (sorted_by_key_head (zip scores_before before) (0, p) (zip scores_after after))
    as [rest ->]; [| |done].
  - apply Forall_forall. intros [s q] Hin. simpl.
    apply elem_of_zip_l in Hin. rewrite Forall_forall in Hbefore. by apply Hbefore.
  - apply Forall_forall. intros [s q] Hin. simpl.
    apply elem_of_zip_l in Hin. rewrite Forall_forall in Hafter. by apply Hafter.
Qed.

Lemma eliminate_returns_first_zero_witness :
  eliminate ([[0; 0]] ++ [1; 3] :: [[3; 1]]) ([1] ++ 0 :: [0]) 5 = Ok ([[1; 3]], [0]).
Proof.
  apply (eliminate_returns_first_zero [[0; 0]] [1; 3] [[3; 1]] [1] [0] 5).
  - reflexivity.
  - repeat constructor; lia.
  - repeat constructor; lia.
Defined.

(** X3: Without a score 0 among non-negative scores, [eliminate] returns exactly
    [min(population_size, M)] boards for a non-negative target size; with a
    target size 0 it returns two empty lists. *)
Theorem eliminate_truncates_to_target {A} (population_list : list A)
    (evaluate_list : list Z) (population_size : Z) :
  population_list <> [] ->
  length population_list = length evaluate_list ->
  Forall (fun s => 0 < s) evaluate_list ->
  0 <= population_size ->
  exists population' scores',
    eliminate population_list evaluate_list population_size = Ok (population', scores') /\
    Z.of_nat (length population')
      = Z.min population_size (Z.of_nat (length population_list)) /\
    length scores' = length population' /\
    Forall (fun s => 0 < s) scores'.
Proof.
  intros Hne Hlen Hpos HP.
  set (combined := sorted_by_key (zip evaluate_list population_list)).
  assert (Hperm : combined ≡ₚ zip evaluate_list population_list)
    by apply sorted_by_key_perm.
  assert (Hkeys : combined.*1 ≡ₚ evaluate_list) by (rewrite Hperm, fst_zip; [done|lia]).
  assert (Hclen : length combined = length population_list).
  { rewrite (Permutation_length Hperm), length_zip_with. lia. }
  pose proof (eliminate_cases population_list evaluate_list population_size) as Hcases.
  cbv zeta in Hcases. fold combined in Hcases.
  destruct Hcases
    as [[Hnil _]|[(p0 & rest & Hc & _)|(e0 & p0 & rest & Hc & He0 & ->)]].
  - exfalso. revert Hnil. apply sorted_by_key_nonempty, zip_nonempty; done.
  - exfalso. assert (H0 : 0 ∈ evaluate_list) by (rewrite <- Hkeys, Hc; left).
    rewrite Forall_forall in Hpos. specialize (Hpos 0 H0). lia.
  - rewrite slice_to_nonneg by lia. eexists _, _. split; [done|].
    split; [rewrite length_fmap, length_take; lia|].
    split; [by rewrite !length_fmap|].
    rewrite fmap_take. apply Forall_take. by rewrite Hkeys.
Qed.

Lemma eliminate_truncates_to_target_witness :
  exists population' scores',
    eliminate [[0; 0]; [1; 1]; [0; 1]] [1; 1; 2] 2 = Ok (population', scores') /\
    Z.of_nat (length population') = Z.min 2 (Z.of_nat 3) /\
    length scores' = length population' /\
    Forall (fun s => 0 < s) scores'.
Proof.
  apply (eliminate_truncates_to_target [[0; 0]; [1; 1]; [0; 1]] [1; 1; 2] 2).
  - discriminate.
  - reflexivity.
  - repeat constructor; lia.
  - lia.
Defined.

(** ** evaluate_gen: solutions and symmetries *)

Lemma filter_ext_in {A} (P Q : A -> Prop) `{!forall x, Decision (P x)}
    `{!forall x, Decision (Q x)} (l : list A) :
  (forall x, x ∈ l -> (P x <-> Q x)) -> filter P l = filter Q l.
Proof.
  induction l as [|x l IH]; intros Hext; [done|].
  rewrite !filter_cons.
  assert (Hx : P x <-> Q x) by (apply Hext; left).
  rewrite IH by (intros y Hy; apply Hext; by right).
  destruct (decide (P x)), (decide (Q x)); tauto.
Qed.

Lemma filter_length_fmap {A B} (f : A -> B) (P : B -> Prop)
    `{!forall y, Decision (P y)} (l : list A) :
  length (filter P (f <$> l)) = length (filter (fun x => P (f x)) l).
Proof.
  induction l as [|x l IH]; [done|].
  rewrite fmap_cons, !filter_cons. destruct (decide (P (f x))); simpl; by rewrite IH.
Qed.

Lemma filter_length_zero {A} (P : A -> Prop) `{!forall x, Decision (P x)} (l : list A) :
  length (filter P l) = 0%nat <-> forall x, x ∈ l -> ~ P x.
Proof.
  induction l as [|x l IH]; [split; [intros _ y Hy; by apply elem_of_nil in Hy|done]|].
  rewrite filter_cons. destruct (decide (P x)) as [HP|HP]; simpl.
  - split; [done|]. intros Hall. exfalso. apply (Hall x); [left|done].
  - rewrite IH. split.
    + intros Hall y [->|Hy]%elem_of_cons; [done|by apply Hall].
    + intros Hall y Hy. apply Hall. by right.
Qed.

(** X4: A board has fitness 0 exactly when no two of its rows are in conflict:
    no two queens share a column or a diagonal. *)
Theorem evaluate_gen_zero_iff_no_conflict (gen : board) :
  evaluate_gen gen = 0 <->
  forall i j, 0 <= i < j -> j < Z.of_nat (length gen) ->
    gen_at gen i <> gen_at gen j /\
    Z.abs (i - j) <> Z.abs (gen_at gen i - gen_at gen j).
Proof.
  rewrite evaluate_gen_count.
  assert (Hz : forall k : nat, Z.of_nat k = 0 <-> k = 0%nat) by lia.
  rewrite Hz, filter_length_zero. split.
  - intros Hall i j Hij Hj.
    assert (Hin : (i, j) ∈ row_pairs (Z.of_nat (length gen)))
      by (by apply elem_of_row_pairs).
    specialize (Hall _ Hin). unfold conflict, column_conflict, diagonal_conflict in Hall.
    simpl in Hall. tauto.
  - intros Hall [i j] Hin. apply elem_of_row_pairs in Hin as [Hij Hj].
    specialize (Hall i j Hij Hj).
    unfold conflict, column_conflict, diagonal_conflict. simpl. tauto.
Qed.

Lemma gen_at_map (f : Z -> Z) (gen : board) (i : Z) :
  0 <= i < Z.of_nat (length gen) -> gen_at (map f gen) i = f (gen_at gen i).
Proof.
  intros Hi. unfold gen_at. rewrite !nth_lookup.
  change (map f gen) with (f <$> gen). rewrite list_lookup_fmap.
  destruct (lookup_lt_is_Some_2 gen (Z.to_nat i) ltac:(lia)) as [v ->]. done.
Qed.

Lemma evaluate_gen_map (f : Z -> Z) (gen : board) :
  (forall a b, f a = f b <-> a = b) ->
  (forall a b, Z.abs (f a - f b) = Z.abs (a - b)) ->
  evaluate_gen (map f gen) = evaluate_gen gen.
Proof.
  intros Hinj Habs. rewrite !evaluate_gen_count, length_map. do 2 f_equal.
  apply filter_ext_in. intros [i j] Hij. apply elem_of_row_pairs in Hij.
  unfold conflict, column_conflict, diagonal_conflict. simpl.
  rewrite !gen_at_map by lia. by rewrite Hinj, Habs.
Qed.

(** X5: The fitness does not change when every queen is moved by the same number
    [c] of columns, nor when the board is mirrored left-right (column [v]
    becomes [c - v]). *)
Theorem evaluate_gen_shift_and_mirror (gen : board) (c : Z) :
  evaluate_gen (map (fun v => v + c) gen) = evaluate_gen gen /\
  evaluate_gen (map (fun v => c - v) gen) = evaluate_gen gen.
Proof.
  split; apply evaluate_gen_map; intros; lia.
Qed.

Lemma gen_at_rev (gen : board) (i : Z) :
  0 <= i < Z.of_nat (length gen) ->
  gen_at (rev gen) (Z.of_nat (length gen) - 1 - i) = gen_at gen i.
Proof.
  intros Hi. unfold gen_at. rewrite rev_nth by lia. f_equal. lia.
Qed.

(** X6: The fitness does not change when the rows are taken in reverse order
    (the board is mirrored top-bottom). *)
Theorem evaluate_gen_rev (gen : board) :
  evaluate_gen (rev gen) = evaluate_gen gen.
Proof.
  rewrite !evaluate_gen_count, length_rev. f_equal.
  set (N := Z.of_nat (length gen)).
  set (flip := fun p : Z * Z => (N - 1 - p.2, N - 1 - p.1)).
  assert (Hperm : flip <$> row_pairs N ≡ₚ row_pairs N).
  { apply NoDup_Permutation.
    - apply NoDup_fmap_2; [|apply NoDup_row_pairs].
      intros [a b] [a' b'] [=]. f_equal; lia.
    - apply NoDup_row_pairs.
    - intros [i j]. rewrite list_elem_of_fmap, elem_of_row_pairs. split.
      + intros ([a b] & [= -> ->] & Hab). apply elem_of_row_pairs in Hab. simpl. lia.
      + intros Hij. exists (N - 1 - j, N - 1 - i). split.
        * unfold flip. simpl. f_equal; lia.
        * apply elem_of_row_pairs. lia. }
  rewrite <- Hperm at 1. rewrite filter_length_fmap. f_equal.
  apply filter_ext_in. intros [i j] Hij. apply elem_of_row_pairs in Hij.
  unfold conflict, column_conflict, diagonal_conflict, flip. simpl.
  fold N. unfold N. rewrite !gen_at_rev by (fold N; lia). fold N. lia.
Qed.

(** X7: A board of fitness 0 that satisfies the invariant has exactly one queen
    in every column: it is a permutation of [0, ..., n - 1]. *)
Theorem solved_board_is_permutation (n : Z) (gen : board) :
  board_ok n gen -> evaluate_gen gen = 0 -> gen ≡ₚ range 0 n.
Proof.
  intros [Hlen Hall] Hzero. rewrite evaluate_gen_count in Hzero.
  assert (Hnone : length (filter (conflict gen)
                            (row_pairs (Z.of_nat (length gen)))) = 0%nat) by lia.
  rewrite filter_length_zero in Hnone.
  assert (Hlt : forall (i j : nat) x,
            (i < j)%nat -> gen !! i = Some x -> gen !! j = Some x -> False).
  { intros i j x Hij Hi Hj. pose proof (lookup_lt_Some _ _ _ Hj) as Hjl.
    apply (Hnone (Z.of_nat i, Z.of_nat j)).
    - apply elem_of_row_pairs. lia.
    - left. unfold column_conflict, gen_at. simpl.
      rewrite !Nat2Z.id, !nth_lookup, Hi, Hj. done. }
  assert (Hnd : NoDup gen).
  { apply NoDup_alt. intros i j x Hi Hj.
    destruct (Nat.lt_total i j) as [Hij|[Hij|Hij]]; [|done|].
    - destruct (Hlt i j x Hij Hi Hj).
    - destruct (Hlt j i x Hij Hj Hi). }
  apply submseteq_length_Permutation.
  - apply NoDup_submseteq; [done|]. intros x Hx. apply elem_of_range.
    rewrite Forall_forall in Hall. specialize (Hall x Hx). lia.
  - rewrite length_range. lia.
Qed.

Lemma solved_board_is_permutation_witness : [1; 3; 0; 2] ≡ₚ range 0 4.
Proof.
  apply (solved_board_is_permutation 4 [1; 3; 0; 2]).
  - split; [reflexivity|]. repeat constructor; lia.
  - reflexivity.
Defined.

(** ** crossover: what it leaves alone *)

(** X8: [crossover] draws no random number, and its children are new list
    objects: the references it appends are distinct from one another, from
    the parents and from every object that existed before the call. *)
Theorem crossover_children_are_fresh {G} (population_list : list ref) (n : Z)
    (w : world G) :
  valid_refs w population_list ->
  exists population' w',
    crossover population_list n w = Ok (population', w') /\
    rng w' = rng w /\
    NoDup (drop (length population_list) population') /\
    forall c, c ∈ drop (length population_list) population' ->
      heap w !! c = None /\ (c ∉ population_list) /\ is_Some (heap w' !! c).
Proof.
  intros Hvalid.
  destruct (crossover_run population_list n w Hvalid)
    as (w' & Hrun & Hrng & Hlen & _ & _).
  eexists _, w'. split; [exact Hrun|]. split; [done|].
  rewrite drop_app_length. split; [apply NoDup_seq|].
  intros c Hc. apply elem_of_seq in Hc. split; [|split].
  - apply lookup_ge_None. lia.
  - intros Hin. unfold valid_refs in Hvalid. rewrite Forall_forall in Hvalid.
    destruct (Hvalid c Hin) as [b Hb]. apply lookup_lt_Some in Hb. lia.
  - apply lookup_lt_is_Some. lia.
Qed.

Lemma crossover_children_are_fresh_witness :
  exists population' w',
    crossover [0%nat; 1%nat] 4 (World [[0; 1; 2; 3]; [3; 2; 1; 0]] 42)
    = Ok (population', w') /\
    rng w' = 42 /\
    NoDup (drop 2 population').
Proof.
  destruct (crossover_children_are_fresh [0%nat; 1%nat] 4
              (World [[0; 1; 2; 3]; [3; 2; 1; 0]] 42))
    as (population' & w' & Hrun & Hrng & Hnd & _).
  - repeat constructor; eexists; reflexivity.
  - exists population', w'. split; [exact Hrun|]. split; [exact Hrng|exact Hnd].
Defined.

(** ** crossover and mutation together: which boards can change *)

Section ElitismTheorems.
Context {G : Type} `{RandomSourceSpec G}.

(** X9: [mutation] never touches the first half of the list: the boards at the
    indices below [len // 2] are the same before and after. *)
Theorem mutation_spares_first_half (population_list : list ref)
    (rate : spec_float) (n : Z) (w : world G) :
  1 <= n -> unit_rate rate = true ->
  NoDup population_list -> population_ok n w population_list ->
  Z.of_nat (length population_list) < 2 ^ 53 ->
  exists w',
    mutation population_list rate n w = Ok (population_list, w') /\
    forall (i : nat) p b,
      Z.of_nat i < Z.of_nat (length population_list) / 2 ->
      population_list !! i = Some p -> heap w !! p = Some b ->
      heap w' !! p = Some b.
Proof.
  intros Hn Hrate Hnodup Hok Hlen.
  destruct (mutation_run population_list rate n w Hn Hrate Hnodup Hok Hlen)
    as (chosen & k & w' & Hrun & _ & _ & _ & _ & Hsub & _ & _ & _ & _ & Hin).
  exists w'. split; [done|]. intros i p b Hi Hp Hb.
  apply (Hin i p b Hp Hb). intros Hc.
  apply Hsub, elem_of_mutation_pool in Hc. lia.
Qed.

(** X10: With an even number [M] of parents, a crossover followed by a mutation
    leaves every parent as it was: only children are mutated. *)
Theorem even_population_keeps_parents (population_list : list ref)
    (rate : spec_float) (n : Z) (w : world G) :
  1 <= n -> unit_rate rate = true ->
  NoDup population_list -> population_ok n w population_list ->
  2 * Z.of_nat (length population_list) < 2 ^ 53 ->
  Nat.even (length population_list) = true ->
  exists population1 w1 w2,
    crossover population_list n w = Ok (population1, w1) /\
    mutation population1 rate n w1 = Ok (population1, w2) /\
    take (length population_list) population1 = population_list /\
    forall r b, r ∈ population_list -> heap w !! r = Some b -> heap w2 !! r = Some b.
Proof.
  intros Hn Hrate Hnodup Hok Hlen Heven.
  set (M := length population_list) in *.
  assert (HM : (M = 2 * (M / 2))%nat).
  { apply Nat.even_spec in Heven as [k Hk].
    pose proof (Nat.div_mod_eq M 2) as Hdm.
    assert (Hmod : (M mod 2 = 0)%nat)
      by (rewrite Hk, Nat.mul_comm; apply Nat.Div0.mod_mul).
    lia. }
  destruct (crossover_preserves population_list n w ltac:(lia) Hok)
    as (pop1 & w1 & Hcross & Hlen1 & Hnd1 & Hok1 & _ & Htake & Hpre).
  fold M in Hlen1, Htake.
  destruct (mutation_run pop1 rate n w1 Hn Hrate (Hnd1 Hnodup) Hok1)
    as (chosen & k & w2 & Hmut & _ & _ & _ & _ & Hsub & _ & _ & _ & _ & Hin); [lia|].
  exists pop1, w1, w2. split; [done|]. split; [done|]. split; [done|].
  intros r b Hr Hb. apply list_elem_of_lookup in Hr as [i Hi].
  pose proof (lookup_lt_Some _ _ _ Hi) as HiM. fold M in HiM.
  apply (Hin i r b).
  - rewrite <- Htake in Hi. by rewrite lookup_take_lt in Hi by lia.
  - by apply Hpre.
  - intros Hc. apply Hsub, elem_of_mutation_pool in Hc. rewrite Hlen1 in Hc.
    replace (Z.of_nat (M + 2 * (M / 2))) with (Z.of_nat M * 2) in Hc by lia.
    rewrite Z.div_mul in Hc by lia. lia.
Qed.

(** X11: With an odd number [M] of parents the last parent has no partner
    and is the parent of no child: [crossover] appends [M - 1] children, each
    built from two parents at indices below [M - 1].  Its index [M - 1]
    belongs to the candidate pool of the mutation, and with rate 1 its board
    is overwritten in place: [M - 1] being the [j]-th entry of the pool as
    [shuffle] returns it, at the position and with the value of the [j]-th
    pair of [randint(0, n - 1)] draws. *)
Theorem odd_population_mutates_last_parent (population_list : list ref)
    (n : Z) (w : world G) p b :
  1 <= n ->
  NoDup population_list -> population_ok n w population_list ->
  2 * Z.of_nat (length population_list) < 2 ^ 53 ->
  Nat.odd (length population_list) = true ->
  last population_list = Some p -> heap w !! p = Some b ->
  let M := length population_list in
  exists population1 w1 w2 shuffled draws,
    crossover population_list n w = Ok (population1, w1) /\
    length population1 = (M + (M - 1))%nat /\
    (forall c : nat, (M <= c < M + (M - 1))%nat ->
       exists r (i1 i2 : nat) p1 p2 b1 b2,
         population1 !! c = Some r /\ (i1 < M - 1)%nat /\ (i2 < M - 1)%nat /\
         population_list !! i1 = Some p1 /\ population_list !! i2 = Some p2 /\
         heap w !! p1 = Some b1 /\ heap w !! p2 = Some b2 /\
         heap w1 !! r = Some (slice_to b1 (n / 2) ++ slice_from b2 (n / 2))) /\
    Z.of_nat M - 1 ∈ mutation_pool (length population1) /\
    shuffled = (shuffle (mutation_pool (length population1)) (rng w)).1 /\
    (draws, rng w2)
      = cell_draws (length shuffled) n
          (shuffle (mutation_pool (length population1)) (rng w)).2 /\
    mutation population1 float_one n w1 = Ok (population1, w2) /\
    exists (j : nat) col val,
      shuffled !! j = Some (Z.of_nat M - 1) /\
      draws !! j = Some (col, val) /\
      0 <= col < n /\ 0 <= val < n /\
      heap w2 !! p = Some (<[Z.to_nat col := val]> b).
Proof.
  intros Hn Hnodup Hok Hlen Hodd Hlast Hb M.
  assert (HM : (M = 2 * (M / 2) + 1)%nat).
  { apply Nat.odd_spec in Hodd as [k Hk].
    pose proof (Nat.div_mod_eq M 2) as Hdm.
    assert (Hmod : (M mod 2 = 1)%nat).
    { unfold M. rewrite Hk, Nat.add_comm, Nat.mul_comm, Nat.Div0.mod_add. done. }
    lia. }
  destruct (crossover_run population_list n w (population_ok_valid _ _ _ Hok))
    as (w1 & Hcross & Hrng & Hlen1 & Hpre & Hch). fold M in Hcross, Hlen1.
  set (pop1 := population_list ++ seq (length (heap w)) (2 * (M / 2))) in *.
  destruct (crossover_preserves population_list n w ltac:(lia) Hok)
    as (pop1' & w1' & Hcross' & _ & Hnd1 & Hok1 & _).
  rewrite Hcross in Hcross'. injection Hcross' as <- <-.
  assert (Hlp : length pop1 = (M + (M - 1))%nat).
  { unfold pop1. rewrite length_app, length_seq. fold M. lia. }
  assert (Hl1 : Z.of_nat (length pop1) < 2 ^ 53) by (unfold M in Hlp; lia).
  assert (Hpool : Z.of_nat M - 1 ∈ mutation_pool (length pop1)).
  { apply elem_of_mutation_pool. rewrite Hlp.
    replace (Z.of_nat (M + (M - 1))) with (Z.of_nat (M - 1) * 2 + 1) by lia.
    rewrite Z.div_add_l by lia. change (1 / 2) with 0. lia. }
  destruct (mutation_trace pop1 float_one n w1 Hn ltac:(reflexivity) (Hnd1 Hnodup) Hok1 Hl1)
    as (k & chosen & draws & w2 & Hk & _ & Hchosen & Hdraws & Hmut & _ & _ & _ & Hfull &
        _ & _ & Hin).
  rewrite scaled_count_one in Hk.
  2:{ pose proof (length_mutation_pool (length pop1)).
      assert (0 <= Z.of_nat (length pop1) / 2) by (apply Z.div_pos; lia). lia. }
  injection Hk as <-. specialize (Hfull eq_refl). rewrite Hrng in Hfull, Hdraws.
  pose proof Hok as Hok'. unfold population_ok in Hok'. rewrite Forall_forall in Hok'.
  exists pop1, w1, w2, chosen, draws.
  split; [done|]. split; [done|]. split.
  { intros c Hc. set (j := (c - M)%nat). set (k := (j / 2)%nat).
    pose proof (Nat.div_mod_eq j 2) as Hj. pose proof (Nat.mod_upper_bound j 2) as Hj2.
    fold k in Hj.
    destruct (lookup_lt_is_Some_2 population_list (2 * k) ltac:(fold M; lia)) as [p1 Hp1].
    destruct (lookup_lt_is_Some_2 population_list (2 * k + 1) ltac:(fold M; lia))
      as [p2 Hp2].
    destruct (Hok' p1) as (b1 & Hb1 & _); [by eapply list_elem_of_lookup_2|].
    destruct (Hok' p2) as (b2 & Hb2 & _); [by eapply list_elem_of_lookup_2|].
    destruct (Hch k p1 p2 b1 b2 Hp1 Hp2 Hb1 Hb2) as [H1 H2].
    assert (Hr : pop1 !! c = Some (length (heap w) + j)%nat).
    { unfold pop1. rewrite lookup_app_r by (fold M; lia). fold M j.
      rewrite lookup_seq_lt by lia. done. }
    destruct (decide (j mod 2 = 0)%nat) as [He|Ho].
    - exists (length (heap w) + j)%nat, (2 * k)%nat, (2 * k + 1)%nat, p1, p2, b1, b2.
      split; [done|]. split; [lia|]. split; [lia|]. split; [done|]. split; [done|].
      split; [done|]. split; [done|]. rewrite <- H1. f_equal. lia.
    - exists (length (heap w) + j)%nat, (2 * k + 1)%nat, (2 * k)%nat, p2, p1, b2, b1.
      split; [done|]. split; [lia|]. split; [lia|]. split; [done|]. split; [done|].
      split; [done|]. split; [done|]. rewrite <- H2. f_equal. lia. }
  split; [done|]. split; [done|]. split; [done|]. split; [done|].
  assert (Hp : pop1 !! (M - 1)%nat = Some p).
  { rewrite last_lookup in Hlast. unfold pop1.
    rewrite lookup_app_l by (fold M; lia). rewrite <- Hlast. f_equal. fold M. lia. }
  assert (Hj : Z.of_nat M - 1 ∈ chosen).
  { rewrite Hfull. by rewrite shuffle_perm. }
  apply list_elem_of_lookup in Hj as [j Hj].
  destruct (Hin (M - 1)%nat p b Hp (Hpre _ _ Hb)) as [Hmutated _].
  destruct (Hmutated j) as (col & val & Hcv & Hcol & Hval & Hnew).
  { rewrite Hj. f_equal. lia. }
  exists j, col, val. split; [done|]. split; [done|]. split; [done|]. split; done.
Qed.

(** X12: One generation keeps the loop invariant and returns the scores of the
    retained boards in ascending order: between 1 and [pop_size] boards, no
    board object twice, every board of length [n] with entries in
    [[0, n - 1]], and each score the fitness of the board at its position. *)
Theorem generation_retains_sorted_population (population : list ref)
    (n pop_size : Z) (mut_rate : spec_float) (w : world G) :
  1 <= n -> 1 <= pop_size -> 2 * pop_size < 2 ^ 53 -> unit_rate mut_rate = true ->
  NoDup population -> population_ok n w population ->
  population <> [] -> Z.of_nat (length population) <= pop_size ->
  exists population' scores' w',
    generation population n pop_size mut_rate w = Ok ((population', scores'), w') /\
    NoDup population' /\ population_ok n w' population' /\
    1 <= Z.of_nat (length population') <= pop_size /\
    fitness population' w' = Ok (scores', w') /\
    StronglySorted Z.le scores' /\
    Forall (fun s => 0 <= s) scores'.
Proof.
  intros Hn HP Hbound Hrate Hnd Hok Hne Hlen.
  destruct (generation_run population n pop_size mut_rate w Hn HP Hbound Hrate)
    as (population' & scores' & w' & Hgen & (Hnd' & Hok' & Hne' & Hlen') & Hsc & Hs & Hpos).
  { by repeat split. }
  exists population', scores', w'. split; [done|]. split; [done|]. split; [done|].
  split.
  { assert (length population' <> 0%nat) by (by destruct population'). lia. }
  split; [by apply fitness_run|done].
Qed.

End ElitismTheorems.

(** ** The engine on degenerate inputs *)

Section DegenerateInputs.
Context {G : Type} `{RandomSourceSpec G}.

Lemma empty_generation_raises (n pop_size : Z) (mut_rate : spec_float) (w : world G) :
  unit_rate mut_rate = true ->
  generation [] n pop_size mut_rate w = Raise IndexError.
Proof.
  intros Hrate. unfold generation.
  erewrite bind_run; [|reflexivity].
  destruct (chosen_ones_run 0 mut_rate w ltac:(reflexivity) Hrate)
    as (shuffled & g' & k & Hperm & _ & Hk & Hch).
  apply Permutation_nil_r in Hperm as ->. rewrite take_nil in Hch.
  erewrite bind_run.
  2:{ unfold mutation. cbn [length]. erewrite bind_run; [|exact Hch]. reflexivity. }
  reflexivity.
Qed.

(** X13: With a population size of 0 or less the engine builds no board and
    raises IndexError: in the first generation at [combined[0]] when
    [n >= 1], at [population[0]] otherwise. *)
Theorem run_engine_without_population (n pop_size : Z) (mut_rate : spec_float)
    (w : world G) :
  pop_size <= 0 -> unit_rate mut_rate = true ->
  run_engine n pop_size mut_rate w = Raise IndexError.
Proof.
  intros HP Hrate. unfold run_engine, build_population.
  replace (Z.to_nat pop_size) with 0%nat by lia. cbn [build_population_loop].
  erewrite bind_run; [|reflexivity].
  destruct (Z_lt_le_dec 0 (n * 2)) as [Hn|Hn].
  - rewrite range_cons by lia. cbn [generation_loop].
    apply bind_raise. by apply empty_generation_raises.
  - rewrite range_empty by lia. reflexivity.
Qed.

(** X14: With a board size of 0 or less and at least one individual, the engine
    runs no generation: it returns the empty board with no generation index,
    draws nothing from the random source, and [draw_board] then raises
    ZeroDivisionError at [480 // n]. *)
Theorem run_engine_without_rows (n pop_size : Z) (mut_rate : spec_float)
    (w : world G) (win : window) :
  n <= 0 -> 1 <= pop_size ->
  exists w',
    run_engine n pop_size mut_rate w = Ok (([], None), w') /\
    rng w' = rng w /\
    heap w' = heap w ++ replicate (Z.to_nat pop_size) [] /\
    draw_board [] None win = Raise ZeroDivisionError.
Proof.
  intros Hn HP.
  assert (Hbuild : forall count (w0 : world G),
            build_population_loop count n w0
            = Ok (seq (length (heap w0)) count,
                  World (heap w0 ++ replicate count []) (rng w0))).
  { induction count as [|count IH]; intros w0.
    - simpl. unfold mret, M_ret. rewrite app_nil_r. by destruct w0.
    - cbn [build_population_loop]. replace (Z.to_nat n) with 0%nat by lia.
      cbn [random_board]. erewrite bind_run; [|reflexivity].
      erewrite bind_run; [|apply alloc_run].
      erewrite bind_run; [|apply IH]. cbn [heap rng]. unfold mret, M_ret.
      rewrite length_app, <- app_assoc. cbn [length app seq replicate].
      do 4 f_equal. lia. }
  exists (World (heap w ++ replicate (Z.to_nat pop_size) []) (rng w)).
  split; [|split; [|split]]; [| | |reflexivity].
  - unfold run_engine, build_population. erewrite bind_run; [|apply Hbuild].
    rewrite range_empty by lia. cbn [generation_loop].
    destruct (Z.to_nat pop_size) as [|k] eqn:Ek; [lia|].
    eapply emit_run; [reflexivity|]. cbn [heap replicate].
    by rewrite lookup_app_r, Nat.sub_diag.
  - reflexivity.
  - reflexivity.
Qed.

End DegenerateInputs.

(** ** draw_board *)

Lemma count_bind_const {A B} (P : B -> Prop) `{!forall y, Decision (P y)}
    (f : A -> list B) (l : list A) (c : nat) :
  (forall x, x ∈ l -> length (filter P (f x)) = c) ->
  length (filter P (l ≫= f)) = (length l * c)%nat.
Proof.
  induction l as [|x l IH]; intros Hc; [done|].
  rewrite bind_cons, filter_app, length_app, Hc by left.
  rewrite IH by (intros y Hy; apply Hc; by right). simpl. lia.
Qed.

Lemma draw_tile_rectangles answer t row col :
  filter is_rectangle (draw_tile answer t row col)
  = [Rectangle (col * t) (row * t) (col * t + t) (row * t + t) (tile_color row col)].
Proof.
  unfold draw_tile. cbv zeta. rewrite filter_cons_True by done.
  destruct (gen_at answer row =? col); [|done].
  by rewrite filter_cons_False by (simpl; tauto).
Qed.

Lemma draw_tile_texts answer t row col :
  filter is_text (draw_tile answer t row col)
  = if gen_at answer row =? col then [queen_of answer t row] else [].
Proof.
  unfold draw_tile, queen_of. cbv zeta. rewrite filter_cons_False by (simpl; tauto).
  destruct (Z.eqb_spec (gen_at answer row) col) as [->|]; [|done].
  by rewrite filter_cons_True by done.
Qed.

Lemma row_texts answer t row (cols : list Z) :
  NoDup cols ->
  filter is_text (col ← cols; draw_tile answer t row col)
  = if decide (gen_at answer row ∈ cols) then [queen_of answer t row] else [].
Proof.
  induction 1 as [|c cols Hc Hnd IH]; [done|].
  rewrite bind_cons, filter_app, draw_tile_texts, IH.
  destruct (Z.eqb_spec (gen_at answer row) c) as [Heq|Hne].
  - rewrite (decide_False (P := gen_at answer row ∈ cols)) by (by rewrite Heq).
    rewrite (decide_True (P := gen_at answer row ∈ c :: cols)) by (rewrite Heq; left).
    done.
  - destruct (decide (gen_at answer row ∈ cols)) as [Hin|Hin].
    + rewrite (decide_True (P := gen_at answer row ∈ c :: cols)) by (by right). done.
    + rewrite (decide_False (P := gen_at answer row ∈ c :: cols)); [done|].
      intros [?|?]%elem_of_cons; done.
Qed.

Lemma tile_size_fits (n k : Z) : 0 < n -> 0 <= k < n -> k * (480 / n) + 480 / n <= 480.
Proof.
  intros Hn Hk. pose proof (Z.mul_div_le 480 n Hn).
  assert (0 <= 480 / n) by (apply Z.div_pos; lia). nia.
Qed.

Lemma draw_board_run (answer : board) (generation : option Z) (win : window) :
  answer <> [] ->
  let n := Z.of_nat (length answer) in
  draw_board answer generation win
  = Ok (Window (row ← range 0 n; col ← range 0 n; draw_tile answer (480 / n) row col)
          (match generation with Some g => SolutionFound g | None => NoPerfectSolution end)).
Proof.
  intros Hne n.
  assert (Hn : 0 < n) by (destruct answer; [done|unfold n; simpl; lia]).
  unfold draw_board. cbv zeta. fold n.
  destruct (Z.eqb_spec n 0) as [|_]; [lia|]. done.
Qed.

Lemma grid_rectangles (answer : board) (n t : Z) :
  0 <= n ->
  Z.of_nat (length (filter is_rectangle
                      (row ← range 0 n; col ← range 0 n; draw_tile answer t row col)))
  = n * n.
Proof.
  intros Hn. rewrite (count_bind_const _ _ _ (Z.to_nat n)).
  - rewrite length_range. lia.
  - intros row _. rewrite (count_bind_const _ _ _ 1%nat).
    + rewrite length_range. lia.
    + intros col _. by rewrite draw_tile_rectangles.
Qed.

Lemma grid_texts (answer : board) (n t : Z) :
  1 <= n -> board_ok n answer ->
  filter is_text (row ← range 0 n; col ← range 0 n; draw_tile answer t row col)
  = (fun row => queen_of answer t row) <$> range 0 n.
Proof.
  intros Hn [Hlen Hall].
  assert (Hrows : forall rows : list Z,
            Forall (fun row => 0 <= row < n) rows ->
            filter is_text (row ← rows; col ← range 0 n; draw_tile answer t row col)
            = (fun row => queen_of answer t row) <$> rows).
  { induction 1 as [|row rows Hrow _ IH]; [done|].
    rewrite bind_cons, filter_app, IH, fmap_cons, row_texts by apply NoDup_range.
    rewrite decide_True; [done|]. apply elem_of_range.
    unfold gen_at. rewrite Forall_forall in Hall.
    assert (Hin : nth (Z.to_nat row) answer 0 ∈ answer).
    { apply list_elem_of_In, nth_In. lia. }
    specialize (Hall _ Hin). lia. }
  apply Hrows, Forall_forall. intros row Hrow. by apply elem_of_range in Hrow.
Qed.

(** X15: On a non-empty answer [draw_board] succeeds; whatever the canvas showed
    before, it then shows [n * n] rectangles, each a square tile of side
    [480 // n] inside the 480 x 480 canvas, and the label tells the
    generation or that no perfect solution was found. *)
Theorem draw_board_draws_grid (answer : board) (generation : option Z)
    (win : window) :
  answer <> [] ->
  let n := Z.of_nat (length answer) in
  exists win',
    draw_board answer generation win = Ok win' /\
    draw_board answer generation (Window [] NoMessage) = Ok win' /\
    result_label win'
      = match generation with Some g => SolutionFound g | None => NoPerfectSolution end /\
    Z.of_nat (length (filter is_rectangle (canvas win'))) = n * n /\
    forall x1 y1 x2 y2 fill,
      Rectangle x1 y1 x2 y2 fill ∈ canvas win' ->
      0 <= x1 /\ x2 = x1 + 480 / n /\ x2 <= 480 /\
      0 <= y1 /\ y2 = y1 + 480 / n /\ y2 <= 480.
Proof.
  intros Hne n.
  assert (Hn : 0 < n) by (destruct answer; [done|unfold n; simpl; lia]).
  rewrite !draw_board_run by done. fold n.
  eexists. split; [reflexivity|]. split; [reflexivity|]. split; [reflexivity|].
  cbn [canvas]. split.
  - apply grid_rectangles. lia.
  - intros x1 y1 x2 y2 fill Hin.
    apply list_elem_of_bind in Hin as (row & Hin & Hrow).
    apply list_elem_of_bind in Hin as (col & Hin & Hcol).
    apply elem_of_range in Hrow, Hcol.
    assert (Hrect : Rectangle x1 y1 x2 y2 fill
                    ∈ filter is_rectangle (draw_tile answer (480 / n) row col))
      by (by apply list_elem_of_filter).
    rewrite draw_tile_rectangles in Hrect.
    apply list_elem_of_singleton in Hrect. injection Hrect as -> -> -> -> _.
    assert (0 <= 480 / n) by (apply Z.div_pos; lia).
    pose proof (tile_size_fits n col Hn ltac:(lia)).
    pose proof (tile_size_fits n row Hn ltac:(lia)). nia.
Qed.

Lemma draw_board_draws_grid_witness :
  exists win',
    draw_board [1; 3; 0; 2] (Some 5) (Window [] NoMessage) = Ok win' /\
    result_label win' = SolutionFound 5 /\
    Z.of_nat (length (filter is_rectangle (canvas win'))) = 4 * 4.
Proof.
  destruct (draw_board_draws_grid [1; 3; 0; 2] (Some 5) (Window [] NoMessage))
    as (win' & Hrun & _ & Hlabel & Hcount & _).
  - discriminate.
  - exists win'. split; [exact Hrun|]. split; [exact Hlabel|exact Hcount].
Defined.

(** X16: On a board that satisfies the invariant, [draw_board] draws exactly one
    queen per row and nothing else but the tiles: the texts on the canvas
    are, row by row, the queen centred in the tile of column [answer[row]]. *)
Theorem draw_board_places_one_queen_per_row (answer : board) (generation : option Z)
    (win : window) (n : Z) :
  1 <= n -> board_ok n answer ->
  exists win',
    draw_board answer generation win = Ok win' /\
    filter is_text (canvas win')
      = (fun row => queen_of answer (480 / n) row) <$> range 0 n /\
    Z.of_nat (length (filter is_text (canvas win'))) = n.
Proof.
  intros Hn Hok.
  assert (Hne : answer <> []).
  { destruct Hok as [Hlen _]. intros ->. simpl in Hlen. lia. }
  rewrite draw_board_run by done. destruct (Hok) as [-> _].
  eexists. split; [reflexivity|]. cbn [canvas].
  rewrite grid_texts by done.
  split; [done|]. rewrite length_fmap, length_range. lia.
Qed.

Lemma draw_board_places_one_queen_per_row_witness :
  exists win',
    draw_board [1; 3; 0; 2] None (Window [] NoMessage) = Ok win' /\
    Z.of_nat (length (filter is_text (canvas win'))) = 4.
Proof.
  destruct (draw_board_places_one_queen_per_row [1; 3; 0; 2] None (Window [] NoMessage) 4)
    as (win' & Hrun & _ & Hcount).
  - lia.
  - split; [reflexivity|]. repeat constructor; lia.
  - exists win'. split; [exact Hrun|exact Hcount].
Defined.

(** X17: The tiles form a checkerboard: a tile has one of the two colours, the
    first when [row + col] is even, and differs from its right and lower
    neighbours. *)
Theorem tile_colors_alternate (row col : Z) :
  tile_color row col
    = (if Z.even (row + col) then "#f5f5f5" else "#100c08")%string /\
  tile_color row col <> tile_color row (col + 1) /\
  tile_color row col <> tile_color (row + 1) col /\
  tile_color row col = tile_color (row + 1) (col + 1).
Proof.
  assert (Hc : forall r c, tile_color r c
                 = (if Z.even (r + c) then "#f5f5f5" else "#100c08")%string).
  { intros r c. unfold tile_color. rewrite Zmod_even.
    destruct (Z.even (r + c)); reflexivity. }
  rewrite !Hc. split; [done|].
  replace (row + (col + 1)) with (Z.succ (row + col)) by lia.
  replace (row + 1 + col) with (Z.succ (row + col)) by lia.
  replace (row + 1 + (col + 1)) with (Z.succ (Z.succ (row + col))) by lia.
  rewrite !Z.even_succ, Z.odd_succ, <- Z.negb_even.
  destruct (Z.even (row + col)); simpl; repeat split; discriminate.
Qed.

(** ** start_algorithm *)

(** X18: [split('.')[-1]] is what follows the last point, and the whole text when
    it has no point. *)
Theorem last_segment_after_last_point (before after : list N) :
  46%N ∉ after ->
  last_segment (before ++ 46%N :: after) = after /\ last_segment after = after.
Proof.
  intros Hno.
  assert (Hsame : forall s, 46%N ∉ s -> last_segment s = s).
  { intros s Hs. destruct s as [|c rest]; [done|]. simpl.
    rewrite bool_decide_eq_false_2 by (intros Hin; apply Hs; by right).
    destruct (N.eqb_spec c 46) as [->|_]; [|done]. exfalso. apply Hs. left. }
  split; [|by apply Hsame].
  induction before as [|c before IH]; simpl.
  - rewrite bool_decide_eq_false_2 by done. done.
  - rewrite bool_decide_eq_true_2; [done|].
    apply elem_of_app. right. left.
Qed.

Lemma last_segment_after_last_point_witness :
  last_segment ([48; 46; 49] ++ 46 :: [50; 53])%N = [50; 53]%N /\
  last_segment [50; 53]%N = [50; 53]%N.
Proof.
  apply (last_segment_after_last_point [48; 46; 49]%N [50; 53]%N).
  intros Hin. repeat (apply elem_of_cons in Hin as [Hin|Hin]; [discriminate Hin|]).
  by apply elem_of_nil in Hin.
Defined.

Lemma pow2_53 : 2 ^ 53 = 9007199254740992.
Proof. reflexivity. Qed.

Section HandlerTheorems.
Context {G : Type} `{RandomSourceSpec G}.

(** X19: When a check fails, [start_algorithm] only changes the label: the canvas
    keeps its content, no board is allocated and no random number is drawn;
    the label names a condition that the inputs violate. *)
Theorem start_algorithm_rejects_invalid_input (n pop_size : Z)
    (mut_rate_str : list N) (mut_rate : spec_float) (win : window) (w : world G) :
  n < 4 \/ 10 < n \/ pop_size < 1 \/ 500 < pop_size \/
  in_unit_interval mut_rate = false \/ (2 < length (last_segment mut_rate_str))%nat ->
  exists text,
    start_algorithm n pop_size mut_rate_str mut_rate win w
    = Ok (Window (canvas win) text, w) /\
    (text = BoardSizeOutOfRange /\ (n < 4 \/ 10 < n) \/
     text = PopulationSizeOutOfRange /\ (pop_size < 1 \/ 500 < pop_size) \/
     text = MutationRateOutOfRange /\ in_unit_interval mut_rate = false \/
     text = TooManyDecimalPlaces /\ (2 < length (last_segment mut_rate_str))%nat).
Proof.
  intros Hbad. unfold start_algorithm.
  destruct (Z.ltb_spec n 4); [eexists; split; [reflexivity|]; left; split; [done|lia]|].
  destruct (Z.ltb_spec 10 n); [eexists; split; [reflexivity|]; left; split; [done|lia]|].
  cbn [orb].
  destruct (Z.leb_spec pop_size 0);
    [eexists; split; [reflexivity|]; right; left; split; [done|lia]|].
  destruct (Z.ltb_spec 500 pop_size);
    [eexists; split; [reflexivity|]; right; left; split; [done|lia]|].
  cbn [orb].
  destruct (in_unit_interval mut_rate) eqn:Hrate; cbn [negb];
    [|eexists; split; [reflexivity|]; right; right; left; by split].
  destruct (Nat.ltb_spec 2 (length (last_segment mut_rate_str)));
    [eexists; split; [reflexivity|]; right; right; right; by split|].
  exfalso. destruct Hbad as [?|[?|[?|[?|[?|?]]]]]; lia.
Qed.

Lemma start_algorithm_accepts (n pop_size : Z) (mut_rate_str : list N)
    (mut_rate : spec_float) (win : window) (w : world G) :
  4 <= n <= 10 -> 1 <= pop_size <= 500 -> in_unit_interval mut_rate = true ->
  (length (last_segment mut_rate_str) <= 2)%nat ->
  start_algorithm n pop_size mut_rate_str mut_rate win w
  = ('(answer, generation) ← run_engine n pop_size mut_rate;
     lift (draw_board answer generation win)) w.
Proof.
  intros Hn HP Hrate Hdec. unfold start_algorithm.
  destruct (Z.ltb_spec n 4); [lia|]. destruct (Z.ltb_spec 10 n); [lia|]. cbn [orb].
  destruct (Z.leb_spec pop_size 0); [lia|].
  destruct (Z.ltb_spec 500 pop_size); [lia|]. cbn [orb].
  rewrite Hrate. cbn [negb].
  destruct (Nat.ltb_spec 2 (length (last_segment mut_rate_str))); [lia|]. done.
Qed.

Lemma engine_and_draw_run (n pop_size : Z) (mut_rate : spec_float) (win : window)
    (w : world G) :
  4 <= n <= 10 -> 1 <= pop_size <= 500 -> unit_rate mut_rate = true ->
  exists answer out w',
    run_engine n pop_size mut_rate w = Ok ((answer, out), w') /\
    ('(answer, generation) ← run_engine n pop_size mut_rate;
     lift (draw_board answer generation win)) w
    = Ok (Window (row ← range 0 n; col ← range 0 n; draw_tile answer (480 / n) row col)
            (match out with Some g => SolutionFound g | None => NoPerfectSolution end),
          w') /\
    board_ok n answer /\
    (out = None /\ 0 < evaluate_gen answer \/
     exists g, out = Some g /\ 1 <= g <= 2 * n /\ evaluate_gen answer = 0).
Proof.
  intros Hn HP Hunit.
  destruct (run_engine_outcome n pop_size mut_rate w ltac:(lia) ltac:(lia))
    as (population & w0 & answer & out & w' & _ & _ & Hrun & Hans & Hout);
    [rewrite pow2_53; lia|done|].
  assert (Hne : answer <> []).
  { destruct Hans as [Hlen _]. intros ->. simpl in Hlen. lia. }
  exists answer, out, w'. split; [done|]. split.
  { erewrite bind_run; [|exact Hrun]. apply lift_Ok.
    rewrite draw_board_run by done. by destruct Hans as [-> _]. }
  split; [done|].
  destruct Hout as [(g & -> & Hg & _ & Hzero)|(-> & final & _ & _ & Hpos & _)].
  - right. exists (Z.of_nat g + 1). split; [done|]. split; [lia|done].
  - left. by split.
Qed.

(** X20: On inputs that pass the four checks, [start_algorithm] runs the engine
    and draws its result: the canvas shows the [n * n] tiles and one queen
    per row of the returned board, and the label is either a generation
    index in [[1, 2 * n]] for a board of fitness 0, or the notice that no
    perfect solution was found. *)
Theorem start_algorithm_runs_and_draws (n pop_size : Z) (mut_rate_str : list N)
    (mut_rate : spec_float) (win : window) (w : world G) :
  4 <= n <= 10 -> 1 <= pop_size <= 500 ->
  valid_binary prec emax mut_rate = true -> in_unit_interval mut_rate = true ->
  (length (last_segment mut_rate_str) <= 2)%nat ->
  exists answer out w' win',
    run_engine n pop_size mut_rate w = Ok ((answer, out), w') /\
    start_algorithm n pop_size mut_rate_str mut_rate win w = Ok (win', w') /\
    board_ok n answer /\
    Z.of_nat (length (filter is_rectangle (canvas win'))) = n * n /\
    filter is_text (canvas win')
      = (fun row => queen_of answer (480 / n) row) <$> range 0 n /\
    (result_label win' = NoPerfectSolution /\ out = None /\ 0 < evaluate_gen answer \/
     exists g, result_label win' = SolutionFound g /\ out = Some g /\
               1 <= g <= 2 * n /\ evaluate_gen answer = 0).
Proof.
  intros Hn HP Hvalid Hrate Hdec.
  assert (Hunit : unit_rate mut_rate = true).
  { unfold unit_rate. rewrite Hvalid. exact Hrate. }
  destruct (engine_and_draw_run n pop_size mut_rate win w Hn HP Hunit)
    as (answer & out & w' & Hrun & Hdraw & Hans & Hout).
  eexists answer, out, w', _. split; [done|]. split.
  { rewrite start_algorithm_accepts by done. exact Hdraw. }
  split; [done|]. cbn [canvas result_label].
  split; [apply grid_rectangles; lia|]. split; [apply grid_texts; [lia|done]|].
  destruct Hout as [[-> Hpos]|(g & -> & Hg & Hzero)].
  - left. by repeat split.
  - right. exists g. split; [done|]. split; [done|]. by split.
Qed.

(** X21: Whatever the parsed inputs, lines 141-170 end without an exception, so
    that the [except ValueError] clause is reached from the parsing of the
    entries only: either one of the four checks writes its message, or the
    engine returns and [draw_board] succeeds. *)
Theorem start_algorithm_never_raises (n pop_size : Z) (mut_rate_str : list N)
    (mut_rate : spec_float) (win : window) (w : world G) :
  valid_binary prec emax mut_rate = true ->
  exists win' w', start_algorithm n pop_size mut_rate_str mut_rate win w = Ok (win', w').
Proof.
  intros Hvalid.
  destruct (decide (4 <= n <= 10 /\ 1 <= pop_size <= 500 /\
                    in_unit_interval mut_rate = true /\
                    (length (last_segment mut_rate_str) <= 2)%nat))
    as [(Hn & HP & Hrate & Hdec)|Hbad].
  - assert (Hunit : unit_rate mut_rate = true).
    { unfold unit_rate. rewrite Hvalid. exact Hrate. }
    destruct (engine_and_draw_run n pop_size mut_rate win w Hn HP Hunit)
      as (answer & out & w' & _ & Hdraw & _).
    eexists _, w'. rewrite start_algorithm_accepts by done. exact Hdraw.
  - unfold start_algorithm.
    destruct (Z.ltb_spec n 4); [by eexists _, _|].
    destruct (Z.ltb_spec 10 n); [by eexists _, _|]. cbn [orb].
    destruct (Z.leb_spec pop_size 0); [by eexists _, _|].
    destruct (Z.ltb_spec 500 pop_size); [by eexists _, _|]. cbn [orb].
    destruct (in_unit_interval mut_rate) eqn:Hrate; cbn [negb]; [|by eexists _, _].
    destruct (Nat.ltb_spec 2 (length (last_segment mut_rate_str))); [by eexists _, _|].
    exfalso. apply Hbad. repeat split; [lia..|done|lia].
Qed.

(** X22: With a board size of 0 or less, [mutation] raises ValueError as soon as
    it has an index to mutate: [randint(0, n - 1)] has an empty range. *)
Theorem mutation_raises_on_empty_range (population_list : list ref)
    (rate : spec_float) (n k : Z) (w : world G) :
  n <= 0 -> Z.of_nat (length population_list) < 2 ^ 53 ->
  unit_rate rate = true ->
  scaled_count (Z.of_nat (length (mutation_pool (length population_list)))) rate = Ok k ->
  1 <= k ->
  mutation population_list rate n w = Raise ValueError.
Proof.
  intros Hn Hlen Hrate Hk Hk1.
  destruct (chosen_ones_run (length population_list) rate w Hlen Hrate)
    as (shuffled & g' & k' & Hperm & Hk' & Hkb & Hch).
  rewrite Hk in Hk'. injection Hk' as <-.
  unfold mutation. erewrite bind_run; [|exact Hch].
  destruct (take (Z.to_nat k) shuffled) as [|i rest] eqn:Et.
  { exfalso. apply (f_equal length) in Et.
    rewrite length_take, (Permutation_length Hperm) in Et. simpl in Et. lia. }
  apply bind_raise. cbn [mutation_loop]. apply bind_raise.
  unfold py_randint. destruct (Z.ltb_spec (n - 1) 0); [done|lia].
Qed.

End HandlerTheorems.

(** ** Runs on concrete inputs *)

Lemma mutation_spares_first_half_witness :
  exists w',
    mutation [0%nat; 1%nat; 2%nat; 3%nat] float_one 4
      (World [[0; 1; 2; 3]; [3; 2; 1; 0]; [0; 1; 1; 0]; [3; 2; 2; 3]] 42)
    = Ok ([0%nat; 1%nat; 2%nat; 3%nat], w') /\
    heap w' !! 0%nat = Some [0; 1; 2; 3] /\ heap w' !! 1%nat = Some [3; 2; 1; 0].
Proof.
  destruct (mutation_spares_first_half [0%nat; 1%nat; 2%nat; 3%nat] float_one 4
              (World [[0; 1; 2; 3]; [3; 2; 1; 0]; [0; 1; 1; 0]; [3; 2; 2; 3]] 42))
    as (w' & Hrun & Hspare).
  - lia.
  - reflexivity.
  - repeat constructor; rewrite ?elem_of_cons, ?elem_of_nil; lia.
  - repeat constructor; eexists; (split; [reflexivity|]);
      (split; [reflexivity|]); repeat constructor; lia.
  - vm_compute. reflexivity.
  - exists w'. split; [exact Hrun|]. split.
    + apply (Hspare 0%nat); [vm_compute; reflexivity|reflexivity|reflexivity].
    + apply (Hspare 1%nat); [vm_compute; reflexivity|reflexivity|reflexivity].
Defined.

Lemma even_population_keeps_parents_witness :
  exists population1 w1 w2,
    crossover [0%nat; 1%nat] 4 (World [[0; 1; 2; 3]; [3; 2; 1; 0]] 42)
    = Ok (population1, w1) /\
    mutation population1 float_one 4 w1 = Ok (population1, w2) /\
    take 2 population1 = [0%nat; 1%nat].
Proof.
  destruct (even_population_keeps_parents [0%nat; 1%nat] float_one 4
              (World [[0; 1; 2; 3]; [3; 2; 1; 0]] 42))
    as (population1 & w1 & w2 & Hcross & Hmut & Htake & _).
  - lia.
  - reflexivity.
  - repeat constructor; rewrite ?elem_of_cons, ?elem_of_nil; lia.
  - repeat constructor; eexists; (split; [reflexivity|]);
      (split; [reflexivity|]); repeat constructor; lia.
  - vm_compute. reflexivity.
  - reflexivity.
  - exists population1, w1, w2. split; [exact Hcross|]. split; [exact Hmut|exact Htake].
Defined.

Lemma odd_population_mutates_last_parent_witness :
  exists population1 w1 w2 (j : nat),
    crossover [0%nat; 1%nat; 2%nat] 4
      (World [[0; 1; 2; 3]; [3; 2; 1; 0]; [1; 3; 0; 2]] 42) = Ok (population1, w1) /\
    length population1 = 5%nat /\
    mutation population1 float_one 4 w1 = Ok (population1, w2) /\
    [3; 4; 2] !! j = Some 2 /\
    heap w2 !! 2%nat = Some [1; 1; 0; 2].
Proof.
  destruct (odd_population_mutates_last_parent [0%nat; 1%nat; 2%nat] 4
              (World [[0; 1; 2; 3]; [3; 2; 1; 0]; [1; 3; 0; 2]] 42) 2%nat [1; 3; 0; 2])
    as (population1 & w1 & w2 & shuffled & draws & Hcross & Hlen & _ & _ & Hsh & Hdraws &
        Hmut & j & col & val & Hj & Hcv & _ & _ & Hnew).
  - lia.
  - repeat constructor; rewrite ?elem_of_cons, ?elem_of_nil; lia.
  - repeat constructor; eexists; (split; [reflexivity|]);
      (split; [reflexivity|]); repeat constructor; lia.
  - vm_compute. reflexivity.
  - reflexivity.
  - reflexivity.
  - reflexivity.
  - rewrite Hlen in Hsh. vm_compute in Hsh. subst shuffled.
    pose proof (f_equal fst Hdraws) as Hd. cbn [fst] in Hd. rewrite Hlen in Hd.
    vm_compute in Hd. subst draws.
    exists population1, w1, w2, j.
    split; [exact Hcross|]. split; [exact Hlen|]. split; [exact Hmut|].
    split; [exact Hj|].
    destruct j as [|[|[|j]]]; try discriminate Hj.
    injection Hcv as <- <-. exact Hnew.
Defined.

Lemma generation_retains_sorted_population_witness :
  exists population' scores' w',
    generation [0%nat; 1%nat] 4 2 (S754_finite false 7205759403792794 (-54))
      (World [[0; 1; 2; 3]; [3; 2; 1; 0]] 42) = Ok ((population', scores'), w') /\
    1 <= Z.of_nat (length population') <= 2 /\
    StronglySorted Z.le scores'.
Proof.
  destruct (generation_retains_sorted_population [0%nat; 1%nat] 4 2
              (S754_finite false 7205759403792794 (-54))
              (World [[0; 1; 2; 3]; [3; 2; 1; 0]] 42))
    as (population' & scores' & w' & Hgen & _ & _ & Hlen & _ & Hsorted & _).
  - lia.
  - lia.
  - vm_compute. reflexivity.
  - vm_compute. reflexivity.
  - repeat constructor; rewrite ?elem_of_cons, ?elem_of_nil; lia.
  - repeat constructor; eexists; (split; [reflexivity|]);
      (split; [reflexivity|]); repeat constructor; lia.
  - discriminate.
  - simpl. lia.
  - exists population', scores', w'. split; [exact Hgen|]. split; [exact Hlen|exact Hsorted].
Defined.

Lemma run_engine_without_population_witness :
  run_engine 4 0 float_one (World [] 3) = Raise IndexError.
Proof.
  apply (run_engine_without_population 4 0 float_one (World [] 3)).
  - lia.
  - reflexivity.
Defined.

Lemma run_engine_without_rows_witness :
  exists w',
    run_engine 0 3 float_one (World [] 3) = Ok (([], None), w') /\
    rng w' = 3 /\ heap w' = [[]; []; []].
Proof.
  destruct (run_engine_without_rows 0 3 float_one (World [] 3) (Window [] NoMessage))
    as (w' & Hrun & Hrng & Hheap & _).
  - lia.
  - lia.
  - exists w'. split; [exact Hrun|]. split; [exact Hrng|exact Hheap].
Defined.

Lemma start_algorithm_rejects_invalid_input_witness :
  exists text,
    start_algorithm 3 50 [48; 46; 52]%N (S754_finite false 7205759403792794 (-54))
      (Window [] NoMessage) (World [] 3)
    = Ok (Window [] text, World [] 3).
Proof.
  destruct (start_algorithm_rejects_invalid_input 3 50 [48; 46; 52]%N
              (S754_finite false 7205759403792794 (-54))
              (Window [] NoMessage) (World [] 3)) as (text & Hrun & _).
  - left. lia.
  - exists text. exact Hrun.
Defined.

Lemma start_algorithm_runs_and_draws_witness :
  exists answer out w' win',
    start_algorithm 4 10 [48; 46; 52]%N (S754_finite false 7205759403792794 (-54))
      (Window [] NoMessage) (World [] 7) = Ok (win', w') /\
    run_engine 4 10 (S754_finite false 7205759403792794 (-54)) (World [] 7)
    = Ok ((answer, out), w') /\
    Z.of_nat (length (filter is_rectangle (canvas win'))) = 4 * 4.
Proof.
  destruct (start_algorithm_runs_and_draws 4 10 [48; 46; 52]%N
              (S754_finite false 7205759403792794 (-54))
              (Window [] NoMessage) (World [] 7))
    as (answer & out & w' & win' & Hrun & Hstart & _ & Hrects & _).
  - lia.
  - lia.
  - vm_compute. reflexivity.
  - vm_compute. reflexivity.
  - vm_compute. lia.
  - exists answer, out, w', win'. split; [exact Hstart|]. split; [exact Hrun|exact Hrects].
Defined.

Lemma mutation_raises_on_empty_range_witness :
  mutation [0%nat; 1%nat] float_one 0 (World [[]; []] 3) = Raise ValueError.
Proof.
  apply (mutation_raises_on_empty_range [0%nat; 1%nat] float_one 0 1 (World [[]; []] 3)).
  - lia.
  - vm_compute. reflexivity.
  - reflexivity.
  - vm_compute. reflexivity.
  - lia.
Defined.

Lemma start_algorithm_never_raises_witness :
  exists win' w',
    start_algorithm 8 500 [48; 46; 50; 53]%N (S754_finite false 4503599627370496 (-54))
      (Window [] NoMessage) (World [] 11) = Ok (win', w').
Proof.
  apply (start_algorithm_never_raises 8 500 [48; 46; 50; 53]%N
           (S754_finite false 4503599627370496 (-54)) (Window [] NoMessage) (World [] 11)).
  vm_compute. reflexivity.
Defined.
